(** * OuonnkiTV: the aggregated multi-source search service (ApiService)

    A shallow embedding of the search core of the ApiService class:
    the per-source health store and its score, the adaptive concurrency
    plan, the concurrency limiter, the in-flight request table of
    searchVideos, and the aggregatedSearch session.

    Conventions of the embedding.
    - JavaScript numbers that carry latencies, ratios and scores are exact
      rationals (Q); counters are natural numbers; configured bounds and
      the concurrency plan are integers (Z).
    - Map<string, _> is a finite map (gmap string _), Set<string> a finite
      set (gset string).
    - Asynchronous code is a transition system: one transition per job of
      the event loop that the code can observe (a call, a fetch that comes
      back, the finally-handler of the limiter, the abort event).  The
      environment chooses the order of the jobs and what the network
      answers. *)

From Stdlib Require Import QArith Qround Qminmax Qabs Qpower Lqa Sorted.
From stdpp Require Import gmap strings list pretty.

Open Scope string_scope.
Open Scope list_scope.

(** ** Health store *)

Module Health.

Record HealthRec := mkRec {
  avgLatencyMs : Q;
  successCount : nat;
  failureCount : nat;
  lastLatencyMs : Q;
  lastUpdatedAt : Z
}.

Abbreviation store := (gmap string HealthRec).

Definition ofNat (n : nat) : Q := inject_Z (Z.of_nat n).

(** [updateHealth]: [now] is the reading of Date.now(). *)
Definition updateHealth (h : store) (sourceCode : string) (ok : bool)
    (latencyMs : Q) (now : Z) : store :=
  let rec0 := match h !! sourceCode with
              | Some r => r
              | None => mkRec latencyMs 0 0 latencyMs now
              end in
  let rec1 := mkRec (avgLatencyMs rec0) (successCount rec0) (failureCount rec0)
                    latencyMs now in
  let rec2 :=
    if ok then
      mkRec (avgLatencyMs rec1 * 0.7 + latencyMs * 0.3)%Q
            (successCount rec1 + 1) (failureCount rec1)
            (lastLatencyMs rec1) (lastUpdatedAt rec1)
    else
      mkRec (avgLatencyMs rec1 * 0.8 + latencyMs * 0.2)%Q
            (successCount rec1) (failureCount rec1 + 1)
            (lastLatencyMs rec1) (lastUpdatedAt rec1) in
  <[sourceCode := rec2]> h.

Definition scoreOfRec (r : HealthRec) : Q :=
  let total := (successCount r + failureCount r)%nat in
  let successRate := if (0 <? total)%nat
                     then (ofNat (successCount r) / ofNat total)%Q
                     else 0.5%Q in
  let latencyScore := (1 / Qmax 100 (avgLatencyMs r))%Q in
  (successRate * 0.7 + latencyScore * 0.3)%Q.

Definition getSourceScore (h : store) (sourceCode : string) : Q :=
  match h !! sourceCode with
  | None => 0%Q
  | Some r => scoreOfRec r
  end.

(** navigator.connection.effectiveType, when the browser exposes it. *)
Definition getNetworkFactor (effectiveType : option string) : Q :=
  match effectiveType with
  | Some ty =>
      if bool_decide (ty = "slow-2g" ∨ ty = "2g") then 0.4%Q
      else if bool_decide (ty = "3g") then 0.7%Q
      else if bool_decide (ty = "4g") then 1%Q
      else 1%Q
  | None => 1%Q
  end.

(** AGGREGATED_SEARCH_CONFIG: the object lives in the configuration module;
    a field that is absent there is [None] and takes the default written
    at its use. *)
Record Config := mkConfig {
  baseConcurrency : option Z;
  minConcurrency : option Z;
  maxConcurrency : option Z;
  topKFirstBatch : option Z;
  earlyAbortAfterTopK : bool
}.

(** Math.round: the nearest integer, a half rounded up. *)
Definition round (x : Q) : Z := Qfloor (x + (1 # 2)).

(** The loop over selectedAPIs: the pair is (failureRatio, total). *)
Definition tally (h : store) (acc : nat * nat) (id : string) : nat * nat :=
  match h !! id with
  | Some r => (fst acc + failureCount r, snd acc + (successCount r + failureCount r))%nat
  | None => acc
  end.

Definition getAdaptiveConcurrency (cfg : Config) (effectiveType : option string)
    (h : store) (selectedAPIs : list string) : Z :=
  let base := default 3%Z (baseConcurrency cfg) in
  let min := default 1%Z (minConcurrency cfg) in
  let max := default 6%Z (maxConcurrency cfg) in
  let netFactor := getNetworkFactor effectiveType in
  let acc := fold_left (tally h) selectedAPIs (0, 0)%nat in
  let failureRatio := if (0 <? snd acc)%nat
                      then (ofNat (fst acc) / ofNat (snd acc))%Q
                      else 0%Q in
  let healthFactor := Qmax 0.6 (1 - failureRatio) in
  let c := round (inject_Z base * netFactor * healthFactor) in
  Z.min max (Z.max min c).

(** The spec's reading of the plan, to compare with the loop above: the
    failure ratio is the total of recorded failures over the total of
    recorded attempts of the selected sources, 0 without history. *)
Definition recordsOf (h : store) (selected : list string) : list HealthRec :=
  omap (fun id => h !! id) selected.

Definition totalFailures (rs : list HealthRec) : nat :=
  foldr (fun r n => (failureCount r + n)%nat) 0%nat rs.

Definition totalAttempts (rs : list HealthRec) : nat :=
  foldr (fun r n => (successCount r + failureCount r + n)%nat) 0%nat rs.

Definition specFailureRatio (h : store) (selected : list string) : Q :=
  let rs := recordsOf h selected in
  if (0 <? totalAttempts rs)%nat
  then (ofNat (totalFailures rs) / ofNat (totalAttempts rs))%Q
  else 0%Q.

Definition clamp (lo hi x : Z) : Z := Z.min hi (Z.max lo x).



(** [chain R x l]: the list [x :: l] is a chain for [R]. *)
Fixpoint chain {A} (R : A -> A -> Prop) (x : A) (l : list A) : Prop :=
  match l with
  | [] => True
  | y :: rest => R x y ∧ chain R y rest
  end.

Definition decreasing (lats : list Q) : Prop :=
  match lats with
  | [] => True
  | l :: rest => chain (fun a b => (b < a)%Q) l rest
  end.

End Health.

(** ** Concurrency limiter (createConcurrencyLimiter) *)

Module Limiter.

(** [tryRun]: while running < limit and the queue is not empty, shift the
    head of the queue, count it as running and call it.  [start] is what
    calling the queued thunk does to the rest of the world: it runs the
    task up to its first suspension. *)
Fixpoint tryRun {T W : Type} (limit : Z) (start : T → W → W)
    (queue : list T) (running : nat) (w : W) : nat * list T * W :=
  match queue with
  | [] => (running, [], w)
  | next :: rest =>
      if (Z.of_nat running <? limit)%Z
      then tryRun limit start rest (S running) (start next w)
      else (running, queue, w)
  end.

Section Gate.
Context {V E : Type}.

(** How a task's promise settles. *)
Inductive Outcome :=
  | Fulfilled (v : V)
  | Rejected (e : E).

(** What can be observed of the tasks given to the limiter.  A task is
    named by a number, one per call of the limiter. *)
Record World := mkWorld {
  active : list nat;      (* started, promise still pending *)
  draining : list nat;    (* settled, finally-handler not yet run *)
  started : list nat;     (* every task started so far, in order *)
  delivered : list (nat * Outcome)  (* what each caller's promise got *)
}.

Record State := mkState {
  running : nat;
  queue : list nat;
  submitted : list nat;   (* every task passed to the limiter, in order *)
  world : World
}.

Definition init : State := mkState 0 [] [] (mkWorld [] [] [] []).

Definition startTask (t : nat) (w : World) : World :=
  mkWorld (active w ++ [t]) (draining w) (started w ++ [t]) (delivered w).

Inductive Event :=
  | Submit (t : nat)               (* limiter(task): queue.push(run); tryRun() *)
  | Settle (t : nat) (o : Outcome) (* task()'s promise settles: resolve / reject *)
  | Finally (t : nat).             (* .finally: running--; tryRun() *)

Definition withGate (s : State) (g : nat * list nat * World) : State :=
  mkState (fst (fst g)) (snd (fst g)) (submitted s) (snd g).

Definition removeOne (t : nat) (l : list nat) : list nat :=
  filter (fun x => x ≠ t) l.

Definition step (limit : Z) (s : State) (ev : Event) : option State :=
  match ev with
  | Submit t =>
      if decide (t ∈ submitted s) then None
      else
        let s1 := mkState (running s) (queue s ++ [t]) (submitted s ++ [t]) (world s) in
        Some (withGate s1 (tryRun limit startTask (queue s1) (running s1) (world s1)))
  | Settle t o =>
      if decide (t ∈ active (world s)) then
        let w := world s in
        Some (mkState (running s) (queue s) (submitted s)
                (mkWorld (removeOne t (active w)) (draining w ++ [t]) (started w)
                         (delivered w ++ [(t, o)])))
      else None
  | Finally t =>
      if decide (t ∈ draining (world s)) then
        let w := world s in
        let w1 := mkWorld (active w) (removeOne t (draining w)) (started w) (delivered w) in
        Some (withGate s (tryRun limit startTask (queue s) (running s - 1) w1))
      else None
  end.

Fixpoint run (limit : Z) (s : State) (evs : list Event) : option State :=
  match evs with
  | [] => Some s
  | ev :: rest =>
      match step limit s ev with
      | Some s' => run limit s' rest
      | None => None
      end
  end.

Definition isSubmit (ev : Event) : bool :=
  match ev with Submit _ => true | _ => false end.

(** The event with the outcome forgotten: what the gate itself can see. *)
Inductive Shape := ShSubmit (t : nat) | ShSettle (t : nat) | ShFinally (t : nat).

Definition shape (ev : Event) : Shape :=
  match ev with
  | Submit t => ShSubmit t
  | Settle t _ => ShSettle t
  | Finally t => ShFinally t
  end.

(** The part of a state that decides what runs and when. *)
Definition gateView (s : State) : nat * list nat * list nat * list nat * list nat :=
  (running s, queue s, active (world s), draining (world s), started (world s)).

(** Work left: every queued or active task still owes a settlement and a
    finally-handler, every draining task a finally-handler. *)
Definition workLeft (s : State) : nat :=
  2 * length (queue s) + 2 * length (active (world s)) + length (draining (world s)).

(** The invariant of the gate. *)
Record Inv (limit : Z) (s : State) : Prop := mkInv {
  inv_count : running s = (length (active (world s)) + length (draining (world s)))%nat;
  inv_limit : (Z.of_nat (running s) <= limit)%Z;
  inv_fifo : started (world s) ++ queue s = submitted s;
  inv_nodup : NoDup (submitted s);
  inv_live : ∀ t, t ∈ active (world s) ∨ t ∈ draining (world s) → t ∈ started (world s);
  inv_apart : NoDup (active (world s) ++ draining (world s));
  inv_full : queue s ≠ [] → (limit <= Z.of_nat (running s))%Z;
  inv_owed : ∀ t, t ∈ started (world s) →
               t ∈ active (world s) ∨ ∃ o, (t, o) ∈ delivered (world s)
}.

(** The outcomes carried by the settlements of a run of events. *)
Definition settlements (evs : list Event) : list (nat * Outcome) :=
  omap (fun ev => match ev with Settle t o => Some (t, o) | _ => None end) evs.

End Gate.

Arguments Outcome : clear implicits.
Arguments World : clear implicits.
Arguments State : clear implicits.
Arguments Event : clear implicits.

End Limiter.

(** ** searchVideos: one source, shared in-flight requests *)

Module Service.
Import Health.

(** A thrown value: an Error or a DOMException, with its name and message. *)
Record ErrorVal := mkError { name : string; message : string }.

Definition Error (msg : string) : ErrorVal := mkError "Error" msg.
Definition TypeError (msg : string) : ErrorVal := mkError "TypeError" msg.
Definition AbortError : ErrorVal := mkError "AbortError" "Aborted".
(** The DOMException a fetch rejects with when its signal is aborted; the
    message is the browser's. *)
Definition fetchAborted : ErrorVal := mkError "AbortError" "The operation was aborted.".

Record VideoItem := mkItem {
  vod_id : string;
  source_name : string;
  source_code : string;
  api_url : option string
}.

Record SearchResponse := mkResponse {
  code : nat;
  msg : option string;
  vod_list : list VideoItem         (* the field [list] *)
}.

(** An element of the upstream [list]: an object, or a value a property
    cannot be set on (null or a primitive; the module is strict code). *)
Inductive RawItem :=
  | RawObject (vod_id : string)
  | RawOther.

(** What response.json() gives. *)
Inductive Body :=
  | Unparsable (e : ErrorVal)       (* json() rejects *)
  | Falsy                           (* null, 0, the empty string, false *)
  | NoList                          (* no array under [list] *)
  | WithList (items : list RawItem).

(** How the fetch of [fetchWithTimeout] ends. *)
Inductive FetchResult :=
  | NetworkError (e : ErrorVal)     (* fetch rejects *)
  | TimedOut                        (* the timer aborted the controller *)
  | Cancelled                       (* the external signal aborted it *)
  | Response (status : nat) (body : Body).

Definition ok (status : nat) : bool := (200 <=? status)%nat && (status <=? 299)%nat.

Record Site := mkSite { api : string; site_name : string }.

(** The configuration module and the browser functions used here. *)
Record Env := mkEnv {
  API_SITES : gmap string Site;
  PROXY_URL : string;
  search_path : string;                       (* API_CONFIG.search.path *)
  encodeURIComponent : string → string
}.

Definition Outcome := Limiter.Outcome SearchResponse ErrorVal.

(** The promise made by one call of [exec]: pending with what the closure
    captured (request key, source, custom address, start time), then
    settled. *)
Inductive Promise :=
  | Pending (requestKey source : string) (customApi : option string) (start : Q)
  | Settled (requestKey : string) (o : Outcome).

Record State := mkState {
  sourceHealth : store;
  inflightRequests : gmap string nat;
  promises : list Promise;          (* indexed by promise number *)
  fetches : list string;            (* every fetch issued, by request key *)
  waiting : list (nat * nat);       (* caller, promise it awaits *)
  returned : list (nat * SearchResponse) (* caller, what searchVideos returned *)
}.

Definition init (h : store) : State := mkState h ∅ [] [] [] [].

Section WithEnv.
Variable env : Env.

(** !customApi *)
Definition given (customApi : option string) : bool :=
  match customApi with
  | Some s => negb (bool_decide (s = ""))
  | None => false
  end.

Definition failed (e : ErrorVal) : SearchResponse :=
  mkResponse 400 (Some (message e)) [].

(** The checks at the head of [searchVideos] and the request key; an
    error is what the outer catch turns into a response. *)
Definition requestKeyOf (query source : string) (customApi : option string)
    : ErrorVal + string :=
  if bool_decide (query = "") then inl (Error "缺少搜索参数")
  else if bool_decide (source = "custom") && negb (given customApi)
  then inl (Error "使用自定义API时必须提供API地址")
  else
    match API_SITES env !! source, bool_decide (source = "custom") with
    | None, false => inl (Error "无效的API来源")
    | site, _ =>
        let base := if given customApi then default "" customApi
                    else from_option api "" site in
        let apiUrl := base +:+ search_path env +:+ encodeURIComponent env query in
        inr (PROXY_URL env +:+ encodeURIComponent env apiUrl)
    end.

Definition tag (source : string) (customApi : option string) (it : RawItem)
    : option VideoItem :=
  match it with
  | RawObject id =>
      let nm := if bool_decide (source = "custom") then "自定义源"
                else from_option site_name "" (API_SITES env !! source) in
      Some (mkItem id nm source
              (if bool_decide (source = "custom") then customApi else None))
  | RawOther => None
  end.

(** The try block of [exec], from the moment the fetch settles. *)
Definition execBody (source : string) (customApi : option string) (r : FetchResult)
    : Limiter.Outcome (list VideoItem) ErrorVal :=
  match r with
  | NetworkError e => Limiter.Rejected e
  | TimedOut | Cancelled => Limiter.Rejected fetchAborted
  | Response status body =>
      if negb (ok status)
      then Limiter.Rejected (Error ("API请求失败: " +:+ pretty status))
      else
        match body with
        | Unparsable e => Limiter.Rejected e
        | Falsy | NoList => Limiter.Rejected (Error "API返回的数据格式无效")
        | WithList items =>
            match mapM (tag source customApi) items with
            | Some l => Limiter.Fulfilled l
            | None => Limiter.Rejected (TypeError "Cannot create property")
            end
        end
  end.

(** [exec] after the fetch: the try block, then the health record of the
    success or of the failure (which is thrown again), then the finally
    block that removes the request key. *)
Definition execFinish (h : store) (inflight : gmap string nat)
    (requestKey source : string) (customApi : option string)
    (start finish : Q) (now : Z) (r : FetchResult)
    : store * gmap string nat * Outcome :=
  match execBody source customApi r with
  | Limiter.Fulfilled l =>
      (updateHealth h source true (finish - start) now,
       delete requestKey inflight,
       Limiter.Fulfilled (mkResponse 200 None l))
  | Limiter.Rejected err =>
      (updateHealth h source false (finish - start) now,
       delete requestKey inflight,
       Limiter.Rejected err)
  end.

(** What an awaiting [searchVideos] returns once the shared promise has
    settled. *)
Definition resume (o : Outcome) : SearchResponse :=
  match o with
  | Limiter.Fulfilled resp => resp
  | Limiter.Rejected e => failed e
  end.

Inductive Event :=
  (* searchVideos(query, source, customApi) is called by [caller];
     [start] is performance.now() *)
  | Call (caller : nat) (query source : string) (customApi : option string) (start : Q)
  (* the fetch behind promise [p] ends; [finish] is performance.now(),
     [now] is Date.now() *)
  | Respond (p : nat) (r : FetchResult) (finish : Q) (now : Z).

Definition step (s : State) (ev : Event) : option State :=
  match ev with
  | Call c query source customApi start =>
      match requestKeyOf query source customApi with
      | inl e =>
          Some (mkState (sourceHealth s) (inflightRequests s) (promises s) (fetches s)
                  (waiting s) (returned s ++ [(c, failed e)]))
      | inr key =>
          match inflightRequests s !! key with
          | Some p =>
              Some (mkState (sourceHealth s) (inflightRequests s) (promises s)
                      (fetches s) (waiting s ++ [(c, p)]) (returned s))
          | None =>
              let p := length (promises s) in
              Some (mkState (sourceHealth s) (<[key := p]> (inflightRequests s))
                      (promises s ++ [Pending key source customApi start])
                      (fetches s ++ [key]) (waiting s ++ [(c, p)]) (returned s))
          end
      end
  | Respond p r finish now =>
      match promises s !! p with
      | Some (Pending key source customApi start) =>
          let '(h, inflight, o) :=
            execFinish (sourceHealth s) (inflightRequests s) key source customApi
                       start finish now r in
          let woken := filter (fun cp => cp.2 = p) (waiting s) in
          Some (mkState h inflight (<[p := Settled key o]> (promises s)) (fetches s)
                  (filter (fun cp => cp.2 ≠ p) (waiting s))
                  (returned s ++ ((fun cp => (cp.1, resume o)) <$> woken)))
      | _ => None
      end
  end.

Fixpoint run (s : State) (evs : list Event) : option State :=
  match evs with
  | [] => Some s
  | ev :: rest =>
      match step s ev with
      | Some s' => run s' rest
      | None => None
      end
  end.



End WithEnv.

(** The in-flight table names exactly the pending promises, each under its
    own request key. *)
Definition Table (s : State) : Prop :=
  ∀ key p, inflightRequests s !! key = Some p ↔
           ∃ source capi start, promises s !! p = Some (Pending key source capi start).

(** The ways an upstream search call fails. *)
Inductive UpstreamFailure : FetchResult → Prop :=
  | fail_network e : UpstreamFailure (NetworkError e)
  | fail_timeout : UpstreamFailure TimedOut
  | fail_cancelled : UpstreamFailure Cancelled
  | fail_status status body : ok status = false → UpstreamFailure (Response status body)
  | fail_unparsable status e : UpstreamFailure (Response status (Unparsable e))
  | fail_falsy status : UpstreamFailure (Response status Falsy)
  | fail_no_list status : UpstreamFailure (Response status NoList).

End Service.

(** ** aggregatedSearch: one session over the selected sources *)

Module Session.
Import Health.
Export Service(VideoItem, mkItem, vod_id, source_name, source_code, api_url,
               ErrorVal, AbortError, Error, Env, API_SITES).

Record CustomApi := mkCustomApi { url : string; custom_name : string }.

(** The session's identity of an item: `${item.source_code}_${item.vod_id}`. *)
Definition dedupKey (item : VideoItem) : string :=
  source_code item +:+ "_" +:+ vod_id item.

(** results.filter(...) with the [seen] set it updates: the items whose
    key was not seen yet, and the set afterwards. *)
Fixpoint filterNew (seen : gset string) (results : list VideoItem)
    : list VideoItem * gset string :=
  match results with
  | [] => ([], seen)
  | item :: rest =>
      if decide (dedupKey item ∈ seen) then filterNew seen rest
      else let r := filterNew ({[dedupKey item]} ∪ seen) rest in (item :: r.1, r.2)
  end.

(** Array.prototype.sort with a comparator: a stable insertion sort; an
    element goes before the first one it does not compare greater than. *)
Fixpoint insertBy {A} (cmp : A → A → Q) (x : A) (l : list A) : list A :=
  match l with
  | [] => [x]
  | y :: rest => if Qle_bool (cmp x y) 0 then x :: y :: rest
                 else y :: insertBy cmp x rest
  end.

Definition sortBy {A} (cmp : A → A → Q) (l : list A) : list A :=
  foldr (insertBy cmp) [] l.

(** What the caller's onNewResults does when it is called: it may abort
    the session's signal, and it may throw. *)
Record CbEffect := mkCb { cb_abort : bool; cb_throw : option ErrorVal }.

Definition quiet : CbEffect := mkCb false None.

Inductive Status :=
  | Queued                  (* in the limiter's queue *)
  | Fetching (ctrl : nat)   (* awaiting searchSingleSource, with its controller *)
  | Draining                (* settled, the limiter's finally not yet run *)
  | Released.

(** The promise aggregatedSearch returns. *)
Inductive Result :=
  | Pending
  | Resolved
  | Rejected (e : ErrorVal).

Inductive Obs :=
  | ObsSearch (apiId source : string) (ctrl : nat)  (* searchSingleSource is called *)
  | ObsCallback (items : list VideoItem).           (* onNewResults(items) *)

Record World := mkWorld {
  aborted : bool;                        (* let aborted *)
  signal : option bool;                  (* signal, and signal.aborted *)
  seen : gset string;
  tasks : list (string * Status);        (* orderedAPIs with each task's state *)
  perSourceControllers : gmap string nat;
  controllers : list bool;               (* each AbortController: aborted? *)
  listeners : list nat;                  (* controllers bound to the signal *)
  reachedTopK : nat;
  log : list Obs;
  result : Result
}.

Record State := mkState {
  limit : Z;                             (* dynamicLimit *)
  running : nat;
  queue : list nat;
  world : World
}.

Definition settled (st : Status) : bool :=
  match st with Draining | Released => true | _ => false end.

Definition allSettled (w : World) : bool := forallb (fun t => settled t.2) (tasks w).

Definition set_aborted b (w : World) :=
  mkWorld b (signal w) (seen w) (tasks w) (perSourceControllers w) (controllers w)
          (listeners w) (reachedTopK w) (log w) (result w).
Definition set_signal sg (w : World) :=
  mkWorld (aborted w) sg (seen w) (tasks w) (perSourceControllers w) (controllers w)
          (listeners w) (reachedTopK w) (log w) (result w).
Definition set_seen sn (w : World) :=
  mkWorld (aborted w) (signal w) sn (tasks w) (perSourceControllers w) (controllers w)
          (listeners w) (reachedTopK w) (log w) (result w).
Definition set_tasks ts (w : World) :=
  mkWorld (aborted w) (signal w) (seen w) ts (perSourceControllers w) (controllers w)
          (listeners w) (reachedTopK w) (log w) (result w).
Definition set_map m (w : World) :=
  mkWorld (aborted w) (signal w) (seen w) (tasks w) m (controllers w)
          (listeners w) (reachedTopK w) (log w) (result w).
Definition set_controllers cs (w : World) :=
  mkWorld (aborted w) (signal w) (seen w) (tasks w) (perSourceControllers w) cs
          (listeners w) (reachedTopK w) (log w) (result w).
Definition set_listeners ls (w : World) :=
  mkWorld (aborted w) (signal w) (seen w) (tasks w) (perSourceControllers w) (controllers w)
          ls (reachedTopK w) (log w) (result w).
Definition set_reached n (w : World) :=
  mkWorld (aborted w) (signal w) (seen w) (tasks w) (perSourceControllers w) (controllers w)
          (listeners w) n (log w) (result w).
Definition set_log l (w : World) :=
  mkWorld (aborted w) (signal w) (seen w) (tasks w) (perSourceControllers w) (controllers w)
          (listeners w) (reachedTopK w) l (result w).
Definition set_result r (w : World) :=
  mkWorld (aborted w) (signal w) (seen w) (tasks w) (perSourceControllers w) (controllers w)
          (listeners w) (reachedTopK w) (log w) r.

(** c.abort() for each controller of [cs]. *)
Definition abortAll (cs : list nat) (ctrls : list bool) : list bool :=
  foldr (fun c acc => <[c := true]> acc) ctrls cs.

(** abortRest: abort every controller in perSourceControllers. *)
Definition abortRest (w : World) : World :=
  set_controllers (abortAll (map_to_list (perSourceControllers w)).*2 (controllers w)) w.

(** The promise settles only once. *)
Definition decide_result (r : Result) (w : World) : World :=
  match result w with
  | Pending => set_result r w
  | _ => w
  end.

(** The signal's abort event: the listeners in the order they were added
    (the flag, abortRest, the controllers bound by the tasks, the reject
    of the abort promise). *)
Definition fireAbort (w : World) : World :=
  let w1 := set_signal (Some true) w in
  let w2 := set_aborted true w1 in
  let w3 := abortRest w2 in
  let w4 := set_controllers (abortAll (listeners w3) (controllers w3)) w3 in
  decide_result (Rejected AbortError) w4.

Definition set_status (i : nat) (st : Status) (w : World) : World :=
  set_tasks (alter (fun t => (t.1, st)) i (tasks w)) w.

(** The task's promise is fulfilled; Promise.all is fulfilled with the
    last of them. *)
Definition settle (i : nat) (w : World) : World :=
  let w1 := set_status i Draining w in
  if allSettled w1 then decide_result Resolved w1 else w1.

(** The task's promise is rejected, and Promise.all with it. *)
Definition settleRejected (i : nat) (e : ErrorVal) (w : World) : World :=
  decide_result (Rejected e) (set_status i Draining w).

Section WithSetup.
Variable env : Env.
Variable parseInt : string → option nat.
Variable cfg : Config.
Variable customAPIs : list CustomApi.

Definition topK : Z := Z.max 1 (default 4%Z (topKFirstBatch cfg)).

(** The branch that calls searchSingleSource, if any: the source it is
    called with. *)
Definition backend (apiId : string) : option string :=
  if String.prefix "custom_" apiId then
    match parseInt (String.substring 7 (String.length apiId - 7) apiId) with
    | Some idx => match customAPIs !! idx with
                  | Some _ => Some "custom"
                  | None => None
                  end
    | None => None
    end
  else match API_SITES env !! apiId with
       | Some _ => Some apiId
       | None => None
       end.

(** reachedTopK += 1; onNewResults(newUnique): the call is logged, and
    the callback may abort the signal while it runs. *)
Definition deliver (cb : CbEffect) (newUnique : list VideoItem) (w : World) : World :=
  let w1 := set_log (log w ++ [ObsCallback newUnique])
              (set_reached (reachedTopK w + 1) w) in
  if cb_abort cb && bool_decide (signal w1 = Some false) then fireAbort w1 else w1.

(** if (earlyAbortAfterTopK && reachedTopK >= topK && !aborted) abortRest() *)
Definition earlyAbort (w : World) : World :=
  if earlyAbortAfterTopK cfg && (topK <=? Z.of_nat (reachedTopK w))%Z
     && negb (aborted w)
  then abortRest w else w.

(** The task after its try block, with the [results] it holds: the
    finally block, the aborted check, the filter, the callback and the
    early abort. *)
Definition finish (i : nat) (apiId : string) (results : list VideoItem)
    (cb : CbEffect) (w : World) : World :=
  let w1 := set_map (delete apiId (perSourceControllers w)) w in
  if aborted w1 then settle i w1
  else
    let r := filterNew (seen w1) results in
    let w2 := set_seen r.2 w1 in
    match r.1 with
    | [] => settle i w2
    | _ :: _ =>
        let w3 := deliver cb r.1 w2 in
        match cb_throw cb with
        | Some e => settleRejected i e w3
        | None => settle i (earlyAbort w3)
        end
    end.

(** const perCtrl = new AbortController(); the controller enters the
    map under the source's id and is bound to the external signal. *)
Definition register (apiId : string) (w : World) : World :=
  let c := length (controllers w) in
  let w1 := set_map (<[apiId := c]> (perSourceControllers w))
              (set_controllers (controllers w ++ [false]) w) in
  match signal w1 with
  | Some true => set_controllers (<[c := true]> (controllers w1)) w1
  | Some false => set_listeners (listeners w1 ++ [c]) w1
  | None => w1
  end.

(** The limiter calls task [i]: the task runs up to its await. *)
Definition startTask (i : nat) (w : World) : World :=
  match tasks w !! i with
  | None => w
  | Some (apiId, _) =>
      if aborted w then settle i w
      else
        let c := length (controllers w) in
        let w2 := register apiId w in
        match backend apiId with
        | Some source =>
            set_log (log w2 ++ [ObsSearch apiId source c]) (set_status i (Fetching c) w2)
        | None => finish i apiId [] quiet w2
        end
  end.

Definition withGate (s : State) (g : nat * list nat * World) : State :=
  mkState (limit s) g.1.1 g.1.2 g.2.

(** limiter(task): queue.push(run); tryRun(). *)
Definition submit (s : State) (i : nat) : State :=
  withGate s (Limiter.tryRun (limit s) startTask (queue s ++ [i]) (running s) (world s)).

Definition idle (sg : option bool) (r : Result) : State :=
  mkState 0 0 [] (mkWorld false sg ∅ [] ∅ [] [] 0 [] r).

(** The call itself, up to the promise it returns.  [sg] is the signal:
    absent, or present with its aborted flag. *)
Definition aggregatedSearch (h : store) (effectiveType : option string)
    (selectedAPIs : list string) (sg : option bool) : State :=
  match selectedAPIs with
  | [] => idle sg Resolved
  | _ :: _ =>
      if bool_decide (sg = Some true) then idle sg (Rejected AbortError)
      else
        let dynamicLimit := getAdaptiveConcurrency cfg effectiveType h selectedAPIs in
        let orderedAPIs :=
          sortBy (fun a b => (getSourceScore h b - getSourceScore h a)%Q) selectedAPIs in
        let w := mkWorld false sg ∅ ((fun id => (id, Queued)) <$> orderedAPIs)
                         ∅ [] [] 0 [] Pending in
        foldl submit (mkState dynamicLimit 0 [] w) (seq 0 (length orderedAPIs))
  end.

(** What the event loop brings to a session.  searchSingleSource catches
    every error and returns the empty list instead, so the await of a task
    never throws and the task's own catch block is never entered: a task
    resumes with a list of results, whatever happened upstream. *)
Inductive Event :=
  (* the searchSingleSource call of task [i] returns [results]; [cb] is
     what onNewResults does if the task calls it *)
  | Return (i : nat) (results : list VideoItem) (cb : CbEffect)
  (* the limiter's finally-handler for task [i]: running--; tryRun() *)
  | Release (i : nat)
  (* the caller aborts the signal *)
  | Abort.

Definition step (s : State) (ev : Event) : option State :=
  match ev with
  | Return i results cb =>
      match tasks (world s) !! i with
      | Some (apiId, Fetching _) =>
          Some (mkState (limit s) (running s) (queue s)
                  (finish i apiId results cb (world s)))
      | _ => None
      end
  | Release i =>
      match tasks (world s) !! i with
      | Some (_, Draining) =>
          Some (withGate s
                  (Limiter.tryRun (limit s) startTask (queue s) (running s - 1)
                     (set_status i Released (world s))))
      | _ => None
      end
  | Abort =>
      match signal (world s) with
      | Some false =>
          Some (mkState (limit s) (running s) (queue s) (fireAbort (world s)))
      | _ => None
      end
  end.

Fixpoint run (s : State) (evs : list Event) : option State :=
  match evs with
  | [] => Some s
  | ev :: rest =>
      match step s ev with
      | Some s' => run s' rest
      | None => None
      end
  end.

End WithSetup.

(** The items handed to onNewResults so far, in order. *)
Definition callbacks (l : list Obs) : list (list VideoItem) :=
  omap (fun o => match o with ObsCallback items => Some items | _ => None end) l.

Definition searches (l : list Obs) : list string :=
  omap (fun o => match o with ObsSearch apiId _ _ => Some apiId | _ => None end) l.

Definition throws (ev : Event) : bool :=
  match ev with
  | Return _ _ cb => bool_decide (is_Some (cb_throw cb))
  | _ => false
  end.

(** *** Invariants of a session *)

(** The flag has been set whenever the signal has fired on a session
    that has tasks. *)
Definition Flagged (w : World) : Prop := signal w = Some true → aborted w = true.

(** The calls of onNewResults added between two states: the items they
    hand over have distinct keys, none of which was seen before, all of
    which are seen afterwards. *)
Definition Delivers (w w' : World) : Prop :=
  seen w ⊆ seen w' ∧
  ∃ new, callbacks (log w') = callbacks (log w) ++ new ∧
         NoDup (dedupKey <$> concat new) ∧
         ∀ it, it ∈ concat new → (dedupKey it ∉ seen w) ∧ dedupKey it ∈ seen w'.

Definition statusAt (w : World) (i : nat) : option Status := snd <$> tasks w !! i.

(** How the returned promise stands to the tasks and to the signal. *)
Record Decided (w : World) : Prop := mkDecided {
  dec_pending : result w = Pending ↔ aborted w = false ∧ allSettled w = false;
  dec_resolved : result w = Resolved → allSettled w = true;
  dec_rejected : ∀ e, result w = Rejected e → e = AbortError ∧ aborted w = true;
  dec_flag : aborted w = true ↔ signal w = Some true
}.

(** The tasks in the queue, and those not yet given to the limiter (from
    [k] on), are in the state Queued. *)
Definition Struct (k : nat) (q : list nat) (w : World) : Prop :=
  NoDup q ∧
  (∀ i, i ∈ q → (i < k)%nat ∧ statusAt w i = Some Queued) ∧
  (∀ j, (k <= j < length (tasks w))%nat → statusAt w j = Some Queued).

Definition Sound (s : State) : Prop :=
  Struct (length (tasks (world s))) (queue s) (world s) ∧ Decided (world s).


End Session.

(** ** Concrete inputs used by the examples *)

Module Demo.
Import Health.

Definition h_slow : store := updateHealth ∅ "s" true 1000 0%Z.

Definition cfg_default : Config := mkConfig (Some 3%Z) (Some 1%Z) (Some 6%Z) None false.

(** topKFirstBatch = 2, earlyAbortAfterTopK on, concurrency 3 / 1 / 6. *)
Definition cfg_top2 : Config := mkConfig (Some 3%Z) (Some 1%Z) (Some 6%Z) (Some 2%Z) true.

Definition sites : gmap string Service.Site :=
  list_to_map [("s1", Service.mkSite "https://one.example" "One");
               ("s2", Service.mkSite "https://two.example" "Two");
               ("s3", Service.mkSite "https://three.example" "Three");
               ("s4", Service.mkSite "https://four.example" "Four");
               ("s5", Service.mkSite "https://five.example" "Five")].

Definition env : Service.Env :=
  Service.mkEnv sites "/proxy?url=" "?ac=videolist&wd=" (fun s => s).

Definition noInt : string → option nat := fun _ => None.

Definition five : list string := ["s1"; "s2"; "s3"; "s4"; "s5"].

Definition item (source id : string) : Service.VideoItem :=
  Service.mkItem id source source None.


(** Two sources whose codes and ids run together to the same key. *)
Definition sites_ab : gmap string Service.Site :=
  list_to_map [("a_b", Service.mkSite "https://ab.example" "AB");
               ("a", Service.mkSite "https://a.example" "A")].

Definition env_ab : Service.Env :=
  Service.mkEnv sites_ab "/proxy?url=" "?ac=videolist&wd=" (fun s => s).

Definition two_calls : list Service.Event :=
  [Service.Call 1 "q" "s1" None 10; Service.Call 2 "q" "s1" None 12].

Definition three_tasks : list (Limiter.Event nat string) :=
  [Limiter.Submit 0; Limiter.Submit 1; Limiter.Submit 2;
   Limiter.Settle 0 (Limiter.Rejected "failed"); Limiter.Finally 0;
   Limiter.Settle 1 (Limiter.Fulfilled 7)]%nat.

(** The states the examples reach. *)
Definition reached (o : option Session.State) : Session.State :=
  default (Session.idle None Session.Pending) o.

Definition run5 := Session.run env noInt cfg_top2 [].
Definition search5 : Session.State :=
  Session.aggregatedSearch env noInt cfg_top2 [] ∅ None five (Some false).

(** s1 and s2 have answered, each with one item. *)
Definition after_two : Session.State :=
  reached (run5 search5 [Session.Return 0 [item "s1" "1"] Session.quiet;
                         Session.Release 0;
                         Session.Return 1 [item "s2" "1"] Session.quiet]).

(** then s5 is started and answers. *)
Definition after_five : Session.State :=
  reached (run5 after_two [Session.Release 1;
                           Session.Return 4 [item "s5" "1"] Session.quiet]).

Definition run2 := Session.run env noInt cfg_default [].
Definition search2 : Session.State :=
  Session.aggregatedSearch env noInt cfg_default [] ∅ None ["s1"; "s2"] (Some false).


Definition one_done : Session.State :=
  reached (run2 search2 [Session.Return 0 [item "s1" "1"] Session.quiet;
                         Session.Release 0]).

(** s1 has answered, then the signal fires, then s2 answers. *)
Definition fired : Session.State :=
  reached (run5 search5 [Session.Return 0 [item "s1" "1"] Session.quiet;
                         Session.Abort]).
Definition fired_later : Session.State :=
  reached (run5 fired [Session.Return 1 [item "s2" "1"] Session.quiet;
                       Session.Release 0]).

Definition run_ab := Session.run env_ab noInt cfg_default [].
Definition search_ab : Session.State :=
  Session.aggregatedSearch env_ab noInt cfg_default [] ∅ None ["a_b"; "a"] None.
Definition ab_first : Session.State :=
  reached (run_ab search_ab [Session.Return 0 [item "a_b" "c"] Session.quiet]).
Definition ab_second : Session.State :=
  reached (run_ab ab_first [Session.Release 0;
                            Session.Return 1 [item "a" "b_c"] Session.quiet]).

Definition called_twice : Service.State :=
  default (Service.init ∅) (Service.run env (Service.init ∅) two_calls).

Definition gate_state : Limiter.State nat string :=
  default Limiter.init (Limiter.run 2 Limiter.init three_tasks).

End Demo.

(** ** Runs of health records *)

Module Records.
Import Health.

(** One completed call of a source: whether it succeeded, its latency and
    the reading of Date.now(). *)
Record Completed := mkCompleted { ok : bool; latency : Q; stamp : Z }.

(** The calls of [updateHealth] for one source, in order. *)
Definition recordAll (h : store) (id : string) (calls : list Completed) : store :=
  foldl (fun h c => updateHealth h id (ok c) (latency c) (stamp c)) h calls.

Definition successes (calls : list Completed) : nat :=
  length (List.filter ok calls).

Definition failures (calls : list Completed) : nat :=
  length (List.filter (fun c => negb (ok c)) calls).

(** The counters of a source, 0 without a record. *)
Definition successesOf (h : store) (id : string) : nat :=
  from_option successCount 0%nat (h !! id).

Definition failuresOf (h : store) (id : string) : nat :=
  from_option failureCount 0%nat (h !! id).


(** failureRatio as the loop of getAdaptiveConcurrency leaves it. *)
Definition failureRatio (h : store) (selectedAPIs : list string) : Q :=
  let acc := fold_left (tally h) selectedAPIs (0, 0)%nat in
  if (0 <? snd acc)%nat then (ofNat (fst acc) / ofNat (snd acc))%Q else 0%Q.

End Records.

(** ** The order of dispatch *)

Module Dispatch.
Import Health.

(** orderedAPIs: [...selectedAPIs].sort((a, b) => score(b) - score(a)). *)
Definition orderedAPIs (h : store) (selectedAPIs : list string) : list string :=
  Session.sortBy (fun a b => (getSourceScore h b - getSourceScore h a)%Q) selectedAPIs.

(** [a] may come before [b]: its score is not lower. *)
Definition scoreOrder (h : store) (a b : string) : Prop :=
  (getSourceScore h b <= getSourceScore h a)%Q.

(** The sources of a list whose score equals [k]. *)
Definition withScore (h : store) (k : Q) (l : list string) : list string :=
  List.filter (fun id => Qeq_bool (getSourceScore h id) k) l.

(** The source has a health record. *)
Definition known (h : store) (id : string) : bool := bool_decide (is_Some (h !! id)).

(** The source ids of a session's tasks, in order. *)
Definition taskIds (w : Session.World) : list string := (Session.tasks w).*1.

(** A task that is awaiting its search. *)
Definition isFetching (st : Session.Status) : bool :=
  match st with Session.Fetching _ => true | _ => false end.

(** A task the limiter counts as running: started and not yet released. *)
Definition isCounted (st : Session.Status) : bool :=
  match st with Session.Fetching _ | Session.Draining => true | _ => false end.

Definition fetching (w : Session.World) : list (string * Session.Status) :=
  List.filter (fun t => isFetching t.2) (Session.tasks w).

Definition counted (w : Session.World) : list (string * Session.Status) :=
  List.filter (fun t => isCounted t.2) (Session.tasks w).

(** The limiter of a session when [j] tasks have been given to it, [k]
    of them started, and [r] is its counter. *)
Record Slots (limit : Z) (j k r : nat) (w : Session.World) : Prop := mkSlots {
  slots_started : (k <= j <= length (Session.tasks w))%nat;
  slots_status : ∀ i st, Session.statusAt w i = Some st →
                         (st = Session.Queued ↔ (k <= i)%nat);
  slots_searches : sublist (Session.searches (Session.log w)) (take k (taskIds w));
  slots_running : r = length (counted w);
  slots_limit : (Z.of_nat r <= Z.max 0 limit)%Z;
  slots_positive : (0 < k)%nat → (0 < limit)%Z
}.

(** The queue holds the tasks from [k] on, and a task waits in it only
    while the limit is reached. *)
Definition GateAt (j : nat) (s : Session.State) : Prop :=
  ∃ k, Session.queue s = seq k (j - k) ∧
       Slots (Session.limit s) j k (Session.running s) (Session.world s) ∧
       ((k < j)%nat → (Session.limit s <= Z.of_nat (Session.running s))%Z).

Definition Gate (s : Session.State) : Prop :=
  GateAt (length (Session.tasks (Session.world s))) s.

(** What a task still has to do: its search and its release. *)
Definition weight (st : Session.Status) : nat :=
  match st with
  | Session.Queued | Session.Fetching _ => 2
  | Session.Draining => 1
  | Session.Released => 0
  end.

Definition work (w : Session.World) : nat :=
  sum_list ((fun t => weight t.2) <$> Session.tasks w).

(** No controller of the session has been aborted. *)
Definition Calm (w : Session.World) : Prop :=
  Forall (fun b => b = false) (Session.controllers w).

(** The events of a run other than the abort of the signal. *)
Definition isAbort (ev : Session.Event) : bool :=
  match ev with Session.Abort => true | _ => false end.

Definition moves (evs : list Session.Event) : list Session.Event :=
  List.filter (fun ev => negb (isAbort ev)) evs.

(** The results brought by the events of a run. *)
Definition returnedItems (evs : list Session.Event) : list Service.VideoItem :=
  concat (omap (fun ev => match ev with
                          | Session.Return _ results _ => Some results
                          | _ => None
                          end) evs).

End Dispatch.

(** ** searchVideos and searchSingleSource: what the callers get *)

Module Answers.
Import Service.

(** An upstream list whose elements are all objects, by their ids. *)
Definition objects (ids : list string) : list RawItem := RawObject <$> ids.

(** Every caller that awaits, awaits a promise that is still pending and
    that the in-flight table names. *)
Definition Awaits (s : State) : Prop :=
  ∀ c p, (c, p) ∈ waiting s →
    ∃ key source capi start,
      promises s !! p = Some (Pending key source capi start) ∧
      inflightRequests s !! key = Some p.

(** The request key a promise was made for. *)
Definition promiseKey (pr : Promise) : string :=
  match pr with
  | Pending key _ _ _ => key
  | Settled key _ => key
  end.

(** The two shapes of what searchVideos returns. *)
Definition WellFormed (resp : SearchResponse) : Prop :=
  (code resp = 200%nat ∧ msg resp = None) ∨
  (code resp = 400%nat ∧ vod_list resp = [] ∧ is_Some (msg resp)).


End Answers.

(** ** getVideoDetail: the play addresses *)

Module Detail.
Import Stdlib.Strings.Ascii.

(** String.prototype.split with a non-empty string separator: the pieces
    between the occurrences of [sep], found from left to right without
    overlap.  [skip] counts the characters of a found separator still to
    pass, [cur] is the piece being read. *)
Fixpoint splitFrom (sep : string) (skip : nat) (cur s : string) : list string :=
  match s with
  | EmptyString => [cur]
  | String c rest =>
      match skip with
      | S k => splitFrom sep k cur rest
      | O =>
          if String.prefix sep s
          then cur :: splitFrom sep (String.length sep - 1) "" rest
          else splitFrom sep 0 (cur +:+ String c "") rest
      end
  end.

Definition split (sep s : string) : list string := splitFrom sep 0 "" s.

(** const parts = ep.split('$'); parts.length > 1 ? parts[1] : '' *)
Definition episodeUrl (ep : string) : string :=
  match split "$" ep with
  | _ :: url :: _ => url
  | _ => ""
  end.

(** url && (url.startsWith('http://') || url.startsWith('https://')) *)
Definition isPlayable (url : string) : bool :=
  negb (bool_decide (url = "")) &&
  (String.prefix "http://" url || String.prefix "https://" url).

(** The addresses taken from vod_play_url ([None]: the field is absent):
    the last play source, its episodes, the address of each. *)
Definition playEpisodes (vod_play_url : option string) : list string :=
  match vod_play_url with
  | None => []
  | Some s =>
      if bool_decide (s = "") then []
      else
        match last (split "$$$" s) with
        | Some mainSource =>
            List.filter isPlayable (episodeUrl <$> split "#" mainSource)
        | None => []
        end
  end.

Section WithPattern.
(** vod_content.match(M3U8_PATTERN) with the leading $ of each match
    removed; the pattern is the configuration's. *)
Variable matchM3u8 : string → list string.

Definition episodes (vod_play_url vod_content : option string) : list string :=
  match playEpisodes vod_play_url, vod_content with
  | [], Some content => if bool_decide (content = "") then [] else matchM3u8 content
  | eps, _ => eps
  end.

End WithPattern.

(** *** Play lines as the sources write them *)

Fixpoint joinWith (sep : string) (l : list string) : string :=
  match l with
  | [] => ""
  | [x] => x
  | x :: rest => x +:+ sep +:+ joinWith sep rest
  end.

(** name$address of an episode, and a play source: its episodes joined
    by #. *)
Definition episodeLine (e : string * string) : string := e.1 +:+ "$" +:+ e.2.

Definition playLine (eps : list (string * string)) : string :=
  joinWith "#" (episodeLine <$> eps).

Fixpoint has (c : Ascii.ascii) (s : string) : bool :=
  match s with
  | EmptyString => false
  | String d rest => Ascii.eqb c d || has c rest
  end.

Definition dollar : Ascii.ascii := "$"%char.
Definition hash : Ascii.ascii := "#"%char.

(** An episode whose name and address hold neither $ nor #, the
    address being one that can be played. *)
Definition Plain (e : string * string) : Prop :=
  has dollar e.1 = false ∧ has hash e.1 = false ∧
  has dollar e.2 = false ∧ has hash e.2 = false ∧
  isPlayable e.2 = true.

Fixpoint endsWithDollar (s : string) : bool :=
  match s with
  | EmptyString => false
  | String c EmptyString => Ascii.eqb c dollar
  | String _ rest => endsWithDollar rest
  end.

End Detail.

(** ** useVideoPreview: scrubbing *)

Module Preview.

(** What onScrub reads of the hidden video: its duration, if it is a
    finite number, and its readyState. *)
Record Video := mkVideo { duration : option Q; readyState : nat }.

(** Math.min(Math.max(timeInSeconds, 0), Math.max(0, video.duration - 0.05)) *)
Definition target (timeInSeconds d : Q) : Q :=
  Qmin (Qmax timeInSeconds 0) (Qmax 0 (d - 0.05)).

(** One call of onScrub with a finite time: the new value of
    lastRequestedTimeRef and the time the video is asked to seek to, if
    any. *)
Definition onScrub (frameStep : Q) (video : option Video) (lastRequested : Q)
    (timeInSeconds : Q) : Q * option Q :=
  match video with
  | None => (lastRequested, None)
  | Some v =>
      match duration v with
      | None => (lastRequested, None)
      | Some d =>
          if (readyState v <? 1)%nat then (lastRequested, None)
          else if negb (Qle_bool frameStep (Qabs (timeInSeconds - lastRequested)))
          then (lastRequested, None)
          else (timeInSeconds, Some (target timeInSeconds d))
      end
  end.

(** The calls of a session of scrubbing, each with the video as it is
    then: the requests that were let through, each with its seek. *)
Fixpoint scrubs (frameStep : Q) (lastRequested : Q)
    (calls : list (option Video * Q)) : list (Q * Q) :=
  match calls with
  | [] => []
  | (video, t) :: rest =>
      match onScrub frameStep video lastRequested t with
      | (lastRequested', Some seek) => (t, seek) :: scrubs frameStep lastRequested' rest
      | (lastRequested', None) => scrubs frameStep lastRequested' rest
      end
  end.

(** The seek stays inside the video. *)
Definition Inside (calls : list (option Video * Q)) (r : Q * Q) : Prop :=
  (0 <= r.2)%Q ∧
  ∃ v d, (Some v, r.1) ∈ calls ∧ duration v = Some d ∧ (1 <= readyState v)%nat ∧
         (r.2 <= Qmax 0 (d - 0.05))%Q ∧
         ((0 <= r.1)%Q → (r.1 <= d - 0.05)%Q → r.2 == r.1)%Q.

End Preview.

(** ** Inputs of the further examples *)

Module Runs.
Import Health.

(** s1 answers and is released, then s2 answers. *)
Definition two_answers : list Session.Event :=
  [Session.Return 0 [Demo.item "s1" "1"] Session.quiet; Session.Release 0;
   Session.Return 1 [Demo.item "s2" "1"] Session.quiet].

(** A configuration that leaves the limiter no slot. *)
Definition cfg_zero : Config := mkConfig (Some 3%Z) (Some 0%Z) (Some 0%Z) None false.

Definition stuck : Session.State :=
  Demo.reached
    (Session.run Demo.env Demo.noInt cfg_zero []
       (Session.aggregatedSearch Demo.env Demo.noInt cfg_zero [] ∅ None Demo.five
          (Some false))
       [Session.Abort]).

(** Two episodes as a source lists them. *)
Definition two_episodes : list (string * string) :=
  [("1", "http://a.example/1.m3u8"); ("2", "https://a.example/2.m3u8")].

End Runs.
(** * Properties *)

Section HealthFacts.
Import Health Demo.











(** A latency above the running average lowers the score even though the
    latencies themselves decrease. *)
Example score_can_decrease :
  let h := updateHealth ∅ "s" true 200 0%Z in
  decreasing [1000; 900]%Q ∧
  (getSourceScore (updateHealth h "s" true 1000 1%Z) "s" < getSourceScore h "s")%Q.
Proof.
  split; [simpl; split; [reflexivity|exact I]|]. vm_compute. reflexivity.
Qed.

(** The loop of [getAdaptiveConcurrency] computes the two totals. *)
Lemma tally_totals h sel : ∀ acc,
  fold_left (tally h) sel acc =
  ((fst acc + totalFailures (recordsOf h sel))%nat,
   (snd acc + totalAttempts (recordsOf h sel))%nat).
Proof.
  induction sel as [|id rest IH]; intros [f t]; simpl.
  - f_equal; lia.
  - rewrite IH. unfold tally, recordsOf. simpl.
    destruct (h !! id) as [r|]; simpl; f_equal; lia.
Qed.





(** The plan never leaves the configured interval. *)
Lemma adaptive_concurrency_bounds cfg conn h sel :
  (default 1 (minConcurrency cfg) <= default 6 (maxConcurrency cfg))%Z →
  (default 1 (minConcurrency cfg) <= getAdaptiveConcurrency cfg conn h sel
     <= default 6 (maxConcurrency cfg))%Z.
Proof.
  intros Hle. unfold getAdaptiveConcurrency. lia.
Qed.

End HealthFacts.

(** ** The concurrency limiter *)

Arguments Limiter.removeOne : simpl never.

Section LimiterFacts.
Import Limiter.
Context {V E : Type}.
Variable limit : Z.

Abbreviation State := (State V E).
Abbreviation Event := (Event V E).
Abbreviation World := (World V E).
Abbreviation Inv := (@Limiter.Inv V E limit).

(** What one call of [tryRun] does: it moves a prefix of the queue, in
    order, to the running tasks, and stops either on an empty queue or on
    a full gate. *)
Lemma tryRun_spec (q : list nat) : ∀ (r : nat) (w : World),
  ∃ moved,
    let res := tryRun limit startTask q r w in
    q = moved ++ res.1.2 ∧
    res.1.1 = (r + length moved)%nat ∧
    active res.2 = active w ++ moved ∧
    started res.2 = started w ++ moved ∧
    draining res.2 = draining w ∧
    delivered res.2 = delivered w ∧
    ((Z.of_nat r <= limit)%Z → (Z.of_nat res.1.1 <= limit)%Z) ∧
    (res.1.2 ≠ [] → (limit <= Z.of_nat res.1.1)%Z).
Proof.
  induction q as [|next rest IH]; intros r w.
  - exists []. simpl. rewrite !app_nil_r. repeat split; try done; lia.
  - simpl. destruct (Z.of_nat r <? limit)%Z eqn:Hlt.
    + destruct (IH (S r) (startTask next w)) as (moved & Hq & Hr & Ha & Hs & Hd & Hdl & Hb & Hf).
      exists (next :: moved). simpl in *.
      rewrite <- !app_assoc in *. simpl in *.
      apply Z.ltb_lt in Hlt.
      repeat split; try done; try lia.
      all: try (by f_equal).
      all: try (intros _; apply Hb; lia).
    + exists []. simpl. rewrite !app_nil_r.
      apply Z.ltb_ge in Hlt.
      repeat split; try done; try lia.
Qed.

(** The gate's own variables after [tryRun] do not depend on the world. *)
Lemma tryRun_gate (q : list nat) : ∀ (r : nat) (w1 w2 : World),
  (tryRun limit startTask q r w1).1 = (tryRun limit startTask q r w2).1.
Proof.
  induction q as [|next rest IH]; intros r w1 w2; simpl; [done|].
  destruct (Z.of_nat r <? limit)%Z; [apply IH|done].
Qed.

Lemma length_removeOne (t : nat) (l : list nat) :
  NoDup l → t ∈ l → S (length (removeOne t l)) = length l.
Proof.
  unfold removeOne. induction l as [|x l IH]; intros Hnd Hin.
  - by apply elem_of_nil in Hin.
  - apply NoDup_cons in Hnd as [Hx Hnd].
    rewrite filter_cons. destruct (decide (x ≠ t)) as [Hne|Heq].
    + simpl. f_equal. apply IH; [done|]. set_solver.
    + assert (x = t) as -> by (destruct (decide (x = t)); [done|contradiction]).
      f_equal. clear IH Hin Hnd.
      induction l as [|y l IH]; [done|].
      rewrite filter_cons. destruct (decide (y ≠ t)) as [_|Hyt].
      * simpl. f_equal. apply IH. set_solver.
      * exfalso. apply Hx. assert (y = t) by (destruct (decide (y = t)); [done|contradiction]).
        set_solver.
Qed.

Lemma elem_of_removeOne (t x : nat) (l : list nat) :
  x ∈ removeOne t l ↔ x ∈ l ∧ x ≠ t.
Proof.
  unfold removeOne. rewrite list_elem_of_filter. tauto.
Qed.

Lemma NoDup_removeOne (t : nat) (l : list nat) : NoDup l → NoDup (removeOne t l).
Proof. apply NoDup_filter. Qed.


Lemma Inv_init : (0 <= limit)%Z → Inv init.
Proof.
  intros H. split; simpl; try done; try lia; try apply NoDup_nil_2.
  - intros t [Ht|Ht]; by apply elem_of_nil in Ht.
  - intros t Ht. by apply elem_of_nil in Ht.
Qed.

(** [tryRun] keeps the invariant when the tasks it may start are fresh. *)
Lemma Inv_tryRun (s : State) (r : nat) (w : World) :
  r = (length (active w) + length (draining w))%nat →
  (Z.of_nat r <= limit)%Z →
  started w ++ queue s = submitted s →
  NoDup (submitted s) →
  (∀ t, t ∈ active w ∨ t ∈ draining w → t ∈ started w) →
  NoDup (active w ++ draining w) →
  (∀ t, t ∈ started w → t ∈ active w ∨ ∃ o, (t, o) ∈ delivered w) →
  Inv (withGate s (tryRun limit startTask (queue s) r w)).
Proof.
  intros Hc Hl Hf Hnd Hlive Hap Howed.
  destruct (tryRun_spec (queue s) r w) as (moved & Hq & Hr & Ha & Hs & Hd & Hdl & Hb & Hfull).
  simpl in *. set (res := tryRun limit startTask (queue s) r w) in *.
  assert (Hfresh : ∀ t, t ∈ moved → t ∉ started w).
  { intros t Ht Hst. rewrite <- Hf, Hq in Hnd.
    apply NoDup_app in Hnd as (_ & Hdis & _). apply (Hdis t Hst). set_solver. }
  assert (Hndm : NoDup moved).
  { rewrite <- Hf, Hq in Hnd. apply NoDup_app in Hnd as (_ & _ & Hnd).
    by apply NoDup_app in Hnd as (Hnd & _). }
  split; unfold withGate; simpl.
  - rewrite Hr, Ha, Hd, length_app. lia.
  - by apply Hb.
  - rewrite Hs, <- app_assoc, <- Hq. exact Hf.
  - exact Hnd.
  - intros t. rewrite Ha, Hs, Hd. set_solver.
  - rewrite Ha, Hd. rewrite <- app_assoc.
    apply NoDup_app in Hap as (Hna & Hdis & Hndr).
    apply NoDup_app. split; [done|]. split.
    + intros t Hta Hin. apply elem_of_app in Hin as [Hin|Hin].
      * apply (Hfresh t Hin). apply Hlive. by left.
      * by apply (Hdis t).
    + apply NoDup_app. split; [done|]. split; [|done].
      intros t Htm Htd. apply (Hfresh t Htm). apply Hlive. by right.
  - exact Hfull.
  - intros t. rewrite Hs, Ha, Hdl. intros Ht.
    apply elem_of_app in Ht as [Ht|Ht]; [|set_solver].
    destruct (Howed t Ht) as [?|?]; [set_solver|by right].
Qed.

Lemma Inv_step (s s' : State) (ev : Event) :
  Inv s → step limit s ev = Some s' → Inv s'.
Proof.
  intros [Hc Hl Hf Hnd Hlive Hap Hfull Howed] Hstep.
  destruct ev as [t|t o|t]; simpl in Hstep.
  - destruct (decide (t ∈ submitted s)) as [|Hnew]; [done|].
    inversion Hstep; subst s'. clear Hstep.
    apply (Inv_tryRun (mkState (running s) (queue s ++ [t]) (submitted s ++ [t]) (world s)));
      simpl; try done.
    + by rewrite app_assoc, Hf.
    + apply NoDup_app. split; [done|]. split; [|apply NoDup_singleton].
      intros x Hx Hxt. apply list_elem_of_singleton in Hxt. by subst.
  - destruct (decide (t ∈ active (world s))) as [Hin|]; [|done].
    inversion Hstep; subst s'. clear Hstep.
    pose proof Hap as Hap0.
    apply NoDup_app in Hap as (Hna & Hdis & Hndr).
    split; simpl; try done.
    + rewrite length_app. simpl.
      pose proof (length_removeOne t _ Hna Hin). lia.
    + intros x. rewrite elem_of_removeOne, elem_of_app, list_elem_of_singleton.
      intros [[Hx _]|[Hx| ->]]; apply Hlive; auto.
    + apply NoDup_app. split; [by apply NoDup_removeOne|]. split.
      * intros x Hx Hxd. apply elem_of_removeOne in Hx as [Hx Hne].
        apply elem_of_app in Hxd as [Hxd|Hxd]; [by apply (Hdis x)|].
        apply list_elem_of_singleton in Hxd. done.
      * apply NoDup_app. split; [done|]. split; [|apply NoDup_singleton].
        intros x Hx Hxt. apply list_elem_of_singleton in Hxt. subst.
        by apply (Hdis t).
    + intros x Hx. destruct (decide (x = t)) as [->|Hne].
      * right. exists o. set_solver.
      * destruct (Howed x Hx) as [Ha|[o' Ho']].
        -- left. by apply elem_of_removeOne.
        -- right. exists o'. set_solver.
  - destruct (decide (t ∈ draining (world s))) as [Hin|]; [|done].
    inversion Hstep; subst s'. clear Hstep.
    apply NoDup_app in Hap as (Hna & Hdis & Hndr).
    pose proof (length_removeOne t _ Hndr Hin) as Hlen.
    apply Inv_tryRun; simpl; try done.
    + lia.
    + lia.
    + intros x [Hx|Hx]; apply Hlive; [by left|].
      apply elem_of_removeOne in Hx as [Hx _]. by right.
    + apply NoDup_app. split; [done|]. split; [|by apply NoDup_removeOne].
      intros x Hx Hxd. apply elem_of_removeOne in Hxd as [Hxd _]. by apply (Hdis x).
Qed.

Lemma Inv_run (evs : list Event) : ∀ s s',
  Inv s → run limit s evs = Some s' → Inv s'.
Proof.
  induction evs as [|ev rest IH]; intros s s' Hi Hrun; simpl in Hrun.
  - by inversion Hrun; subst.
  - destruct (step limit s ev) as [s1|] eqn:Hs; [|done].
    eapply IH; [|exact Hrun]. by eapply Inv_step.
Qed.

(** Each caller's promise gets the outcome of its own task: the outcomes
    delivered are those of the settlements, in their order. *)
Lemma delivered_run (evs : list Event) : ∀ s s',
  run limit s evs = Some s' →
  delivered (world s') = delivered (world s) ++ settlements evs.
Proof.
  induction evs as [|ev rest IH]; intros s s' Hrun; simpl in Hrun.
  - inversion Hrun; subst. by rewrite app_nil_r.
  - destruct (step limit s ev) as [s1|] eqn:Hs; [|done].
    rewrite (IH _ _ Hrun). clear IH Hrun.
    destruct ev as [t|t o|t]; simpl in Hs.
    + destruct (decide _); [done|]. inversion Hs; subst s1; simpl.
      destruct (tryRun_spec (queue s ++ [t]) (running s) (world s))
        as (moved & _ & _ & _ & _ & _ & Hdl & _).
      simpl in Hdl. by rewrite Hdl.
    + destruct (decide _); [|done]. inversion Hs; subst s1; simpl.
      unfold settlements. simpl. by rewrite <- app_assoc.
    + destruct (decide _); [|done]. inversion Hs; subst s1; simpl.
      match goal with |- context [tryRun limit startTask ?q ?r ?w] =>
        destruct (tryRun_spec q r w) as (moved & _ & _ & _ & _ & _ & Hdl & _) end.
      simpl in Hdl. by rewrite Hdl.
Qed.

(** What the gate does depends on the shapes of the events only, not on
    whether a task was fulfilled or rejected. *)
Lemma gateView_step (s1 s2 : State) (e1 e2 : Event) :
  gateView s1 = gateView s2 → submitted s1 = submitted s2 → shape e1 = shape e2 →
  match step limit s1 e1, step limit s2 e2 with
  | Some s1', Some s2' => gateView s1' = gateView s2' ∧ submitted s1' = submitted s2'
  | None, None => True
  | _, _ => False
  end.
Proof.
  unfold gateView. intros Hg Hsub Hsh.
  destruct s1 as [r1 q1 sb1 [a1 d1 st1 dl1]], s2 as [r2 q2 sb2 [a2 d2 st2 dl2]].
  simpl in *. inversion Hg; subst. clear Hg.
  destruct e1 as [t|t o|t], e2 as [t'|t' o'|t']; inversion Hsh; subst; simpl.
  - destruct (decide (t' ∈ sb2)); [done|]. split; [|done].
    pose proof (tryRun_gate (q2 ++ [t']) r2 (mkWorld a2 d2 st2 dl1) (mkWorld a2 d2 st2 dl2)) as Hgate.
    destruct (tryRun_spec (q2 ++ [t']) r2 (mkWorld a2 d2 st2 dl1)) as (m1 & Hq1 & _ & Ha1 & Hs1 & Hd1 & _).
    destruct (tryRun_spec (q2 ++ [t']) r2 (mkWorld a2 d2 st2 dl2)) as (m2 & Hq2 & _ & Ha2 & Hs2 & Hd2 & _).
    simpl in *. rewrite Ha1, Ha2, Hs1, Hs2, Hd1, Hd2.
    assert (m1 = m2) as ->.
    { rewrite Hq2 in Hq1 at 1. rewrite Hgate in Hq1. by apply app_inv_tail in Hq1. }
    by rewrite Hgate.
  - destruct (decide (t' ∈ a2)); done.
  - destruct (decide (t' ∈ d2)); [|done]. split; [|done].
    set (w1 := mkWorld a2 (removeOne t' d2) st2 dl1).
    set (w2 := mkWorld a2 (removeOne t' d2) st2 dl2).
    pose proof (tryRun_gate q2 (r2 - 1) w1 w2) as Hgate.
    destruct (tryRun_spec q2 (r2 - 1) w1) as (m1 & Hq1 & _ & Ha1 & Hs1 & Hd1 & _).
    destruct (tryRun_spec q2 (r2 - 1) w2) as (m2 & Hq2 & _ & Ha2 & Hs2 & Hd2 & _).
    simpl in *. rewrite Ha1, Ha2, Hs1, Hs2, Hd1, Hd2.
    assert (m1 = m2) as ->.
    { rewrite Hq2 in Hq1 at 1. rewrite Hgate in Hq1. by apply app_inv_tail in Hq1. }
    by rewrite Hgate.
Qed.

Lemma gateView_run (evs1 : list Event) : ∀ (evs2 : list Event) s1 s2 s1',
  gateView s1 = gateView s2 → submitted s1 = submitted s2 →
  shape <$> evs1 = shape <$> evs2 →
  run limit s1 evs1 = Some s1' →
  ∃ s2', run limit s2 evs2 = Some s2' ∧ gateView s1' = gateView s2'.
Proof.
  induction evs1 as [|e1 rest1 IH]; intros [|e2 rest2] s1 s2 s1' Hg Hsub Hsh Hrun;
    simpl in *; try done.
  - inversion Hrun; subst. by exists s2.
  - inversion Hsh as [[Hsh1 Hsh2]].
    pose proof (gateView_step s1 s2 e1 e2 Hg Hsub Hsh1) as Hstep.
    destruct (step limit s1 e1) as [s1a|]; [|done].
    destruct (step limit s2 e2) as [s2a|]; [|done].
    destruct Hstep as [Hg' Hsub'].
    by apply (IH rest2 s1a s2a).
Qed.

(** Every event other than a submission uses up one unit of work. *)
Lemma workLeft_step (s s' : State) (ev : Event) :
  Inv s → isSubmit ev = false → step limit s ev = Some s' →
  workLeft s = S (workLeft s').
Proof.
  intros [Hc Hl Hf Hnd Hlive Hap Hfull Howed] Hns Hstep.
  apply NoDup_app in Hap as (Hna & Hdis & Hndr).
  destruct ev as [t|t o|t]; simpl in *; [done| |].
  - destruct (decide _) as [Hin|]; [|done]. inversion Hstep; subst s'.
    unfold workLeft. simpl. rewrite length_app. simpl.
    pose proof (length_removeOne t _ Hna Hin). lia.
  - destruct (decide _) as [Hin|]; [|done]. inversion Hstep; subst s'.
    match goal with |- context [tryRun limit startTask ?q ?r ?w] =>
      destruct (tryRun_spec q r w) as (moved & Hq & _ & Ha & _ & Hd & _) end.
    apply (f_equal length) in Hq. rewrite length_app in Hq.
    unfold workLeft, withGate. simpl in *. rewrite Ha, Hd, length_app.
    pose proof (length_removeOne t _ Hndr Hin). lia.
Qed.

Lemma workLeft_run (evs : list Event) : ∀ s s',
  Inv s → forallb (fun ev => negb (isSubmit ev)) evs = true →
  run limit s evs = Some s' →
  (length evs + workLeft s')%nat = workLeft s.
Proof.
  induction evs as [|ev rest IH]; intros s s' Hi Hns Hrun; simpl in *.
  - by inversion Hrun; subst.
  - apply andb_true_iff in Hns as [Hev Hns]. apply negb_true_iff in Hev.
    destruct (step limit s ev) as [s1|] eqn:Hs; [|done].
    rewrite (workLeft_step s s1 ev Hi Hev Hs).
    rewrite <- (IH s1 s' (Inv_step _ _ _ Hi Hs) Hns Hrun). lia.
Qed.

(** A gate with room is never idle while tasks wait, so a state in which
    no settlement and no finally-handler is pending owes nothing. *)
Lemma quiet_all_settled (s : State) :
  (1 <= limit)%Z → Inv s →
  active (world s) = [] → draining (world s) = [] →
  queue s = [] ∧ ∀ t, t ∈ submitted s → ∃ o, (t, o) ∈ delivered (world s).
Proof.
  intros Hlim [Hc Hl Hf Hnd Hlive Hap Hfull Howed] Ha Hd.
  rewrite Ha, Hd in Hc. simpl in Hc.
  assert (Hq : queue s = []).
  { destruct (queue s) eqn:Eq; [done|]. exfalso.
    assert (limit <= Z.of_nat (running s))%Z by (by apply Hfull). lia. }
  split; [done|]. intros t Ht. rewrite <- Hf, Hq, app_nil_r in Ht.
  destruct (Howed t Ht) as [Hin|?]; [|done].
  rewrite Ha in Hin. by apply elem_of_nil in Hin.
Qed.

Lemma run_cons (s s1 : State) (ev : Event) (evs : list Event) :
  step limit s ev = Some s1 → run limit s (ev :: evs) = run limit s1 evs.
Proof. intros H. simpl. by rewrite H. Qed.

Lemma submitted_run (evs : list Event) : ∀ s s',
  forallb (fun ev => negb (isSubmit ev)) evs = true →
  run limit s evs = Some s' → submitted s' = submitted s.
Proof.
  induction evs as [|ev rest IH]; intros s s' Hns Hrun; simpl in *.
  - by inversion Hrun.
  - apply andb_true_iff in Hns as [Hev Hns].
    destruct (step limit s ev) as [s1|] eqn:Hs; [|done].
    rewrite (IH s1 s' Hns Hrun).
    destruct ev as [t|t o|t]; simpl in *; [done| |];
      destruct (decide _); try done; by inversion Hs.
Qed.

(** Whatever outcome each task chooses, the pending work can be run to
    the end. *)
Lemma completion_exists (choose : nat → Outcome V E) (n : nat) : ∀ s,
  Inv s → workLeft s = n → (1 <= limit)%Z →
  ∃ evs s', forallb (fun ev => negb (isSubmit ev)) evs = true ∧
            run limit s evs = Some s' ∧
            settlements evs ⊆ (fun t => (t, choose t)) <$> submitted s ∧
            active (world s') = [] ∧ draining (world s') = [].
Proof.
  induction n as [n IH] using lt_wf_ind. intros s Hi Hn Hlim.
  assert (Hsub : ∀ ev s1, isSubmit ev = false → step limit s ev = Some s1 →
                          submitted s1 = submitted s).
  { intros ev s1 Hev Hs. apply (submitted_run [ev] s s1); simpl.
    - by rewrite Hev.
    - by rewrite Hs. }
  destruct (active (world s)) as [|t l] eqn:Ea.
  - destruct (draining (world s)) as [|t l] eqn:Ed.
    + exists [], s. repeat split; try done.
      intros x Hx. by apply elem_of_nil in Hx.
    + destruct (step limit s (Finally t)) as [s1|] eqn:Hs.
      * pose proof (workLeft_step s s1 (Finally t) Hi eq_refl Hs) as Hw.
        destruct (IH (workLeft s1) ltac:(lia) s1 (Inv_step _ _ _ Hi Hs) eq_refl Hlim)
          as (evs & s' & Hns & Hrun & Hch & Hq).
        exists (Finally t :: evs), s'. rewrite (run_cons _ _ _ evs Hs).
        rewrite (Hsub (Finally t) _ eq_refl Hs) in Hch. done.
      * simpl in Hs. rewrite Ed in Hs. destruct (decide _) as [|Hn']; [done|].
        exfalso. apply Hn'. set_solver.
  - destruct (step limit s (Settle t (choose t))) as [s1|] eqn:Hs.
    + pose proof (workLeft_step s s1 (Settle t (choose t)) Hi eq_refl Hs) as Hw.
      destruct (IH (workLeft s1) ltac:(lia) s1 (Inv_step _ _ _ Hi Hs) eq_refl Hlim)
        as (evs & s' & Hns & Hrun & Hch & Hq).
      exists (Settle t (choose t) :: evs), s'. rewrite (run_cons _ _ _ evs Hs).
      rewrite (Hsub (Settle t (choose t)) _ eq_refl Hs) in Hch.
      split; [done|]. split; [done|]. split; [|done].
      intros x Hx. unfold settlements in Hx. simpl in Hx.
      apply elem_of_cons in Hx as [->|Hx]; [|by apply Hch].
      apply list_elem_of_fmap. exists t. split; [done|].
      rewrite <- (inv_fifo _ _ Hi). apply elem_of_app. left.
      apply (inv_live _ _ Hi). left. rewrite Ea. set_solver.
    + simpl in Hs. rewrite Ea in Hs. destruct (decide _) as [|Hn']; [done|].
      exfalso. apply Hn'. set_solver.
Qed.

(** C3.  For a limit of at least 1 and any tasks given to the limiter:
    never more than [limit] tasks run; tasks start in the order they were
    given; what the gate does is the same whether tasks are fulfilled or
    rejected, and each caller gets the outcome of its own task; and once
    submissions stop, every course of settlements is finite and, when no
    task is left running, every task has settled; such a course exists
    for any choice of outcomes. *)
Theorem limiter_guarantees (evs : list Event) (s : State)
    (Hlimit : (1 <= limit)%Z) (Hrun : run limit init evs = Some s) :
  (* bounded parallelism *)
  ((length (active (world s)) <= running s)%nat ∧ (Z.of_nat (running s) <= limit)%Z) ∧
  (* first in, first out *)
  started (world s) ++ queue s = submitted s ∧
  (* outcomes are independent *)
  delivered (world s) = settlements evs ∧
  (∀ evs' : list Event, shape <$> evs = shape <$> evs' →
     ∃ s', run limit init evs' = Some s' ∧ gateView s = gateView s') ∧
  (* no starvation *)
  (∀ (evs2 : list Event) s2,
     forallb (fun ev => negb (isSubmit ev)) evs2 = true →
     run limit s evs2 = Some s2 →
     (length evs2 <= workLeft s)%nat ∧
     (active (world s2) = [] → draining (world s2) = [] →
      ∀ t, t ∈ submitted s → ∃ o, (t, o) ∈ delivered (world s2))) ∧
  (∀ choose : nat → Outcome V E,
     ∃ (evs2 : list Event) s2,
       forallb (fun ev => negb (isSubmit ev)) evs2 = true ∧
       run limit s evs2 = Some s2 ∧
       settlements evs2 ⊆ (fun t => (t, choose t)) <$> submitted s ∧
       ∀ t, t ∈ submitted s → ∃ o, (t, o) ∈ delivered (world s2)).
Proof.
  assert (Hi : Inv s) by (eapply Inv_run; [apply Inv_init; lia|exact Hrun]).
  split; [|split; [|split; [|split; [|split]]]].
  - destruct Hi as [Hc Hl _ _ _ _ _ _]. split; [lia|done].
  - by destruct Hi.
  - by rewrite (delivered_run evs init s Hrun).
  - intros evs' Hsh. by apply (gateView_run evs evs' init init s).
  - intros evs2 s2 Hns Hrun2.
    pose proof (workLeft_run evs2 s s2 Hi Hns Hrun2) as Hw.
    split; [lia|]. intros Ha Hd t Ht.
    assert (Hi2 : Inv s2) by (by eapply Inv_run).
    destruct (quiet_all_settled s2 Hlimit Hi2 Ha Hd) as [_ Hall].
    apply Hall. by rewrite (submitted_run evs2 s s2 Hns Hrun2).
  - intros choose.
    destruct (completion_exists choose (workLeft s) s Hi eq_refl Hlimit)
      as (evs2 & s2 & Hns & Hrun2 & Hch & Ha & Hd).
    exists evs2, s2. split; [done|]. split; [done|]. split; [done|].
    assert (Hi2 : Inv s2) by (by eapply Inv_run).
    destruct (quiet_all_settled s2 Hlimit Hi2 Ha Hd) as [_ Hall].
    intros t Ht. apply Hall. by rewrite (submitted_run evs2 s s2 Hns Hrun2).
Qed.

End LimiterFacts.

(** ** searchVideos: failures and shared requests *)

Section ServiceFacts.
Import Health Service.
Variable env : Env.

Lemma execFinish_parts h inflight key source capi start finish now r :
  execFinish env h inflight key source capi start finish now r =
  (updateHealth h source
     (match execBody env source capi r with Limiter.Fulfilled _ => true | _ => false end)
     (finish - start) now,
   delete key inflight,
   match execBody env source capi r with
   | Limiter.Fulfilled l => Limiter.Fulfilled (mkResponse 200 None l)
   | Limiter.Rejected e => Limiter.Rejected e
   end).
Proof.
  unfold execFinish. by destruct (execBody env source capi r).
Qed.

Lemma step_respond s p r finish now key source capi start :
  promises s !! p = Some (Pending key source capi start) →
  step env s (Respond p r finish now) =
    let res := execFinish env (sourceHealth s) (inflightRequests s) key source capi
                 start finish now r in
    Some (mkState res.1.1 (delete key (inflightRequests s))
            (<[p := Settled key res.2]> (promises s)) (fetches s)
            (filter (fun cp => cp.2 ≠ p) (waiting s))
            (returned s ++ ((fun cp => (cp.1, resume res.2)) <$>
                              filter (fun cp => cp.2 = p) (waiting s)))).
Proof.
  intros Hp. simpl. rewrite Hp, execFinish_parts. reflexivity.
Qed.

(** Every class of upstream failure makes the try block of [exec] throw. *)
Lemma execBody_failure source capi r :
  UpstreamFailure r → ∃ err, execBody env source capi r = Limiter.Rejected err.
Proof.
  intros Hf. destruct Hf as [e| | |status body Hok|status e|status|status]; simpl;
    try (rewrite Hok; simpl); try (destruct (negb (ok status))); eauto.
Qed.

(** C4.  When the upstream call of a pending request fails (network error,
    timeout, cancellation, a status outside 2xx, a body that does not
    parse or has no list), [exec] records a failure with the elapsed time
    in the health store and then throws the error again: its promise is
    rejected with it.  The [searchVideos] calls that await the promise
    catch it and return a response with code 400 and the error message. *)
Theorem exec_failure_recorded (s : State) (p : nat) (r : FetchResult)
    (finish : Q) (now : Z) (key source : string) (capi : option string) (start : Q)
    (Hp : promises s !! p = Some (Pending key source capi start))
    (Hfail : UpstreamFailure r) :
  ∃ err s' rec',
    execBody env source capi r = Limiter.Rejected err ∧
    step env s (Respond p r finish now) = Some s' ∧
    sourceHealth s' = updateHealth (sourceHealth s) source false (finish - start) now ∧
    sourceHealth s' !! source = Some rec' ∧
    lastLatencyMs rec' = (finish - start)%Q ∧
    failureCount rec' =
      (from_option failureCount 0 (sourceHealth s !! source) + 1)%nat ∧
    successCount rec' = from_option successCount 0%nat (sourceHealth s !! source) ∧
    promises s' !! p = Some (Settled key (Limiter.Rejected err)) ∧
    (∀ c, (c, p) ∈ waiting s → (c, mkResponse 400 (Some (message err)) []) ∈ returned s').
Proof.
  destruct (execBody_failure source capi r Hfail) as [err Herr].
  rewrite (step_respond s p r finish now key source capi start Hp).
  rewrite execFinish_parts, Herr. simpl.
  eexists err, _, _. split; [done|]. split; [reflexivity|]. simpl.
  split; [done|]. unfold updateHealth. rewrite lookup_insert_eq.
  split; [reflexivity|]. simpl.
  split; [done|]. split; [by destruct (sourceHealth s !! source)|].
  split; [by destruct (sourceHealth s !! source)|].
  split.
  - apply list_lookup_insert_eq. by eapply lookup_lt_Some.
  - intros c Hc. apply elem_of_app. right.
    apply list_elem_of_fmap. exists (c, p). split; [done|].
    apply list_elem_of_filter. done.
Qed.


Lemma Table_init h : Table (init h).
Proof.
  intros key p. simpl. rewrite lookup_empty. split; [done|].
  intros (? & ? & ? & H). by rewrite lookup_nil in H.
Qed.

Lemma Table_step s s' ev : Table s → step env s ev = Some s' → Table s'.
Proof.
  intros Ht Hstep. destruct ev as [c query source capi start|p r finish now].
  - simpl in Hstep. destruct (requestKeyOf env query source capi) as [e|key].
    { inversion Hstep; subst. exact Ht. }
    destruct (inflightRequests s !! key) as [p|] eqn:Hk.
    { inversion Hstep; subst. exact Ht. }
    inversion Hstep; subst s'. clear Hstep. intros k q. simpl. split.
    + intros Hq. destruct (decide (k = key)) as [->|Hne].
      * rewrite lookup_insert_eq in Hq. inversion Hq; subst q.
        exists source, capi, start. by rewrite lookup_app_r, Nat.sub_diag.
      * rewrite lookup_insert_ne in Hq by done.
        apply Ht in Hq as (src & cp & st & Hq).
        exists src, cp, st. rewrite lookup_app_l; [done|]. by eapply lookup_lt_Some.
    + intros (src & cp & st & Hq).
      destruct (decide (q < length (promises s))%nat) as [Hlt|Hge].
      * rewrite lookup_app_l in Hq by done.
        assert (Hin : inflightRequests s !! k = Some q) by (apply Ht; eauto).
        rewrite lookup_insert_ne; [done|]. intros ->. by rewrite Hk in Hin.
      * rewrite lookup_app_r in Hq by lia.
        destruct (q - length (promises s))%nat as [|n] eqn:Hd; simpl in Hq; [|by rewrite lookup_nil in Hq].
        inversion Hq; subst. assert (q = length (promises s)) as -> by lia.
        by rewrite lookup_insert_eq.
  - destruct (promises s !! p) as [[key source capi start|k o]|] eqn:Hp.
    2,3: by (simpl in Hstep; rewrite Hp in Hstep).
    rewrite (step_respond s p r finish now key source capi start Hp) in Hstep.
    inversion Hstep; subst s'. clear Hstep. intros k q. simpl. split.
    + intros Hq. apply lookup_delete_Some in Hq as [Hne Hq].
      apply Ht in Hq as (src & cp & st & Hq).
      exists src, cp, st. rewrite list_lookup_insert_ne; [done|].
      intros ->. rewrite Hp in Hq. by inversion Hq.
    + intros (src & cp & st & Hq).
      destruct (decide (p = q)) as [->|Hne].
      * rewrite list_lookup_insert_eq in Hq by (by eapply lookup_lt_Some). done.
      * rewrite list_lookup_insert_ne in Hq by done.
        apply lookup_delete_Some. split.
        -- intros <-. apply Hne.
           assert (H1 : inflightRequests s !! key = Some p) by (apply Ht; eauto).
           assert (H2 : inflightRequests s !! key = Some q) by (apply Ht; eauto).
           rewrite H1 in H2. by inversion H2.
        -- apply Ht. eauto.
Qed.







End ServiceFacts.

(** ** aggregatedSearch *)

(** A property of the world and of the tasks still queued that every task
    start keeps is kept by [tryRun]. *)
Lemma tryRun_invariant {T W : Type} (I : list T → W → Prop) (limit : Z)
    (start : T → W → W) :
  (∀ t q w, I (t :: q) w → I q (start t w)) →
  ∀ q r w, I q w →
    I (Limiter.tryRun limit start q r w).1.2 (Limiter.tryRun limit start q r w).2.
Proof.
  intros Hstart q. induction q as [|next rest IH]; intros r w Hi; simpl; [done|].
  destruct (Z.of_nat r <? limit)%Z; [|done].
  apply IH. by apply Hstart.
Qed.

Lemma tryRun_preserves {T W : Type} (P : W → Prop) (limit : Z) (start : T → W → W) :
  (∀ t w, P w → P (start t w)) →
  ∀ q r w, P w → P (Limiter.tryRun limit start q r w).2.
Proof.
  intros Hstart q r w Hp.
  apply (tryRun_invariant (fun _ w => P w) limit start); [|done].
  intros t q' w'. apply Hstart.
Qed.

Section SessionFacts.
Import Health Session.
Variable env : Env.
Variable parseInt : string → option nat.
Variable cfg : Config.
Variable customAPIs : list CustomApi.

Abbreviation finish := (finish cfg).
Abbreviation startTask := (startTask env parseInt cfg customAPIs).
Abbreviation step := (step env parseInt cfg customAPIs).
Abbreviation run := (run env parseInt cfg customAPIs).
Abbreviation aggregatedSearch := (aggregatedSearch env parseInt cfg customAPIs).

(** Unfold one operation on the world and split on its tests. *)
Ltac frame :=
  unfold settle, settleRejected, fireAbort, abortRest, set_status;
  unfold decide_result; simpl;
  repeat (case_match; simpl); try done.

Lemma run_app (evs1 evs2 : list Event) : ∀ s,
  run s (evs1 ++ evs2) = run s evs1 ≫= fun s1 => run s1 evs2.
Proof.
  induction evs1 as [|ev rest IH]; intros s; simpl; [done|].
  destruct (step s ev); [apply IH|done].
Qed.

(** *** After the abort no callback *)

Lemma settle_quiet i w :
  aborted (settle i w) = aborted w ∧ log (settle i w) = log w ∧
  signal (settle i w) = signal w ∧ seen (settle i w) = seen w.
Proof. frame. Qed.

Lemma fireAbort_quiet w :
  aborted (fireAbort w) = true ∧ log (fireAbort w) = log w ∧
  signal (fireAbort w) = Some true ∧ seen (fireAbort w) = seen w.
Proof. frame. Qed.

Lemma finish_aborted i apiId results cb w :
  aborted w = true →
  aborted (finish i apiId results cb w) = true ∧
  log (finish i apiId results cb w) = log w ∧
  signal (finish i apiId results cb w) = signal w.
Proof.
  intros Ha. unfold Session.finish. simpl. rewrite Ha.
  destruct (settle_quiet i (set_map (delete apiId (perSourceControllers w)) w))
    as (H1 & H2 & H3 & _).
  rewrite H1, H2, H3. simpl. done.
Qed.

Lemma register_frame apiId w :
  aborted (register apiId w) = aborted w ∧ signal (register apiId w) = signal w ∧
  seen (register apiId w) = seen w ∧ log (register apiId w) = log w ∧
  tasks (register apiId w) = tasks w ∧ result (register apiId w) = result w ∧
  reachedTopK (register apiId w) = reachedTopK w.
Proof.
  unfold register. simpl. destruct (signal w) as [[]|] eqn:Hs; simpl; by rewrite ?Hs.
Qed.

(** A task that starts never calls onNewResults before its await. *)
Lemma startTask_quiet i w :
  aborted (startTask i w) = aborted w ∧
  callbacks (log (startTask i w)) = callbacks (log w) ∧
  signal (startTask i w) = signal w ∧ seen (startTask i w) = seen w.
Proof.
  unfold Session.startTask. destruct (tasks w !! i) as [[apiId st]|]; [|done].
  destruct (aborted w) eqn:Ha.
  { destruct (settle_quiet i w) as (H1 & H2 & H3 & H4). by rewrite H1, H2, H3, H4. }
  destruct (register_frame apiId w) as (R1 & R2 & R3 & R4 & _).
  destruct (backend env parseInt customAPIs apiId).
  - simpl. rewrite R1, R2, R3, R4. unfold callbacks. rewrite omap_app. simpl.
    by rewrite app_nil_r.
  - unfold Session.finish. simpl. rewrite R1, Ha.
    match goal with |- context [settle i ?w'] =>
      destruct (settle_quiet i w') as (H1 & H2 & H3 & H4); rewrite H1, H2, H3, H4 end.
    simpl. by rewrite R1, R2, R3, R4.
Qed.

Lemma tryRun_quiet limit q r w :
  let w' := (Limiter.tryRun limit startTask q r w).2 in
  aborted w' = aborted w ∧ callbacks (log w') = callbacks (log w) ∧
  signal w' = signal w ∧ seen w' = seen w.
Proof.
  apply (tryRun_preserves
           (fun w' => aborted w' = aborted w ∧ callbacks (log w') = callbacks (log w) ∧
                      signal w' = signal w ∧ seen w' = seen w)); [|done].
  intros t w0 (H1 & H2 & H3 & H4).
  destruct (startTask_quiet t w0) as (G1 & G2 & G3 & G4).
  by rewrite G1, G2, G3, G4.
Qed.

Lemma step_aborted s s' ev :
  aborted (world s) = true → step s ev = Some s' →
  aborted (world s') = true ∧
  callbacks (log (world s')) = callbacks (log (world s)).
Proof.
  intros Ha Hstep. destruct ev as [i results cb|i|]; simpl in Hstep.
  - destruct (tasks (world s) !! i) as [[apiId [|c| |]]|]; try done.
    inversion Hstep; subst s'; simpl.
    destruct (finish_aborted i apiId results cb (world s) Ha) as (H1 & H2 & _).
    by rewrite H1, H2.
  - destruct (tasks (world s) !! i) as [[apiId [|c| |]]|]; try done.
    inversion Hstep; subst s'; simpl.
    match goal with |- context [Limiter.tryRun ?l _ ?q ?r ?w] =>
      destruct (tryRun_quiet l q r w) as (H1 & H2 & _) end.
    rewrite H1, H2. done.
  - destruct (signal (world s)) as [[]|]; try done.
    inversion Hstep; subst s'; simpl.
    destruct (fireAbort_quiet (world s)) as (H1 & H2 & _). by rewrite H1, H2.
Qed.

Lemma run_aborted evs : ∀ s s',
  aborted (world s) = true → run s evs = Some s' →
  callbacks (log (world s')) = callbacks (log (world s)).
Proof.
  induction evs as [|ev rest IH]; intros s s' Ha Hrun; simpl in Hrun.
  - by inversion Hrun.
  - destruct (step s ev) as [s1|] eqn:Hs; [|done].
    destruct (step_aborted s s1 ev Ha Hs) as [Ha1 Hc].
    rewrite <- Hc. by apply IH.
Qed.


Lemma abortAll_length cs ctrls : length (abortAll cs ctrls) = length ctrls.
Proof.
  induction cs as [|c cs IH]; simpl; [done|]. by rewrite length_insert.
Qed.

Lemma abortAll_hits cs ctrls c :
  c ∈ cs → (c < length ctrls)%nat → abortAll cs ctrls !! c = Some true.
Proof.
  induction cs as [|c' cs IH]; intros Hin Hlt; simpl.
  - by apply elem_of_nil in Hin.
  - destruct (decide (c' = c)) as [->|Hne].
    + apply list_lookup_insert_eq. by rewrite abortAll_length.
    + rewrite list_lookup_insert_ne by done. apply IH; [set_solver|done].
Qed.

(** What each operation leaves alone. *)
Lemma settle_frame i w :
  controllers (settle i w) = controllers w ∧
  perSourceControllers (settle i w) = perSourceControllers w ∧
  reachedTopK (settle i w) = reachedTopK w ∧
  tasks (settle i w) = tasks (set_status i Draining w).
Proof. frame. Qed.

Lemma settleRejected_frame i e w :
  aborted (settleRejected i e w) = aborted w ∧
  signal (settleRejected i e w) = signal w ∧
  seen (settleRejected i e w) = seen w ∧
  log (settleRejected i e w) = log w ∧
  controllers (settleRejected i e w) = controllers w ∧
  tasks (settleRejected i e w) = tasks (set_status i Draining w).
Proof. frame. Qed.

Lemma fireAbort_frame w :
  tasks (fireAbort w) = tasks w ∧
  perSourceControllers (fireAbort w) = perSourceControllers w ∧
  reachedTopK (fireAbort w) = reachedTopK w ∧
  length (controllers (fireAbort w)) = length (controllers w).
Proof. frame; by rewrite !abortAll_length. Qed.

Lemma abortRest_frame w :
  aborted (abortRest w) = aborted w ∧ signal (abortRest w) = signal w ∧
  seen (abortRest w) = seen w ∧ log (abortRest w) = log w ∧
  tasks (abortRest w) = tasks w ∧ result (abortRest w) = result w ∧
  perSourceControllers (abortRest w) = perSourceControllers w.
Proof. done. Qed.

Lemma deliver_frame cb items w :
  seen (deliver cb items w) = seen w ∧
  log (deliver cb items w) = log w ++ [ObsCallback items] ∧
  tasks (deliver cb items w) = tasks w ∧
  perSourceControllers (deliver cb items w) = perSourceControllers w ∧
  reachedTopK (deliver cb items w) = (reachedTopK w + 1)%nat ∧
  length (controllers (deliver cb items w)) = length (controllers w).
Proof.
  unfold deliver. destruct (_ && _); [|done].
  match goal with |- context [fireAbort ?w'] =>
    destruct (fireAbort_quiet w') as (_ & H2 & _ & H4);
    destruct (fireAbort_frame w') as (G1 & G2 & G3 & G4) end.
  by rewrite H2, H4, G1, G2, G3, G4.
Qed.

(** The callback either leaves the signal alone or fires it. *)
Lemma deliver_signal cb items w :
  (signal (deliver cb items w) = signal w ∧ aborted (deliver cb items w) = aborted w ∧
   result (deliver cb items w) = result w ∧
   controllers (deliver cb items w) = controllers w) ∨
  (signal w = Some false ∧ cb_abort cb = true ∧
   deliver cb items w =
     fireAbort (set_log (log w ++ [ObsCallback items])
                  (set_reached (reachedTopK w + 1) w))).
Proof.
  unfold deliver. simpl. destruct (cb_abort cb); simpl; [|by left].
  case_bool_decide; [by right|by left].
Qed.

Lemma earlyAbort_frame w :
  aborted (earlyAbort cfg w) = aborted w ∧ signal (earlyAbort cfg w) = signal w ∧
  seen (earlyAbort cfg w) = seen w ∧ log (earlyAbort cfg w) = log w ∧
  tasks (earlyAbort cfg w) = tasks w ∧ result (earlyAbort cfg w) = result w ∧
  perSourceControllers (earlyAbort cfg w) = perSourceControllers w.
Proof. unfold earlyAbort. by destruct (_ && _ && _). Qed.

(** The ways a task can go once it resumes: the session was aborted; or
    its results hold nothing new; or they do and the callback is called,
    which then throws or returns. *)
Lemma finish_cases (P : World → Prop) i apiId results cb w :
  let w1 := set_map (delete apiId (perSourceControllers w)) w in
  let r := filterNew (seen w) results in
  let w3 := deliver cb r.1 (set_seen r.2 w1) in
  (aborted w = true → P (settle i w1)) →
  (aborted w = false → r.1 = [] → P (settle i (set_seen r.2 w1))) →
  (∀ e, aborted w = false → r.1 ≠ [] → cb_throw cb = Some e →
        P (settleRejected i e w3)) →
  (aborted w = false → r.1 ≠ [] → cb_throw cb = None →
   P (settle i (earlyAbort cfg w3))) →
  P (finish i apiId results cb w).
Proof.
  intros w1 r w3 H1 H2 H3 H4. unfold Session.finish.
  change (aborted (set_map (delete apiId (perSourceControllers w)) w)) with (aborted w).
  destruct (aborted w) eqn:Ha; [by apply H1|].
  change (seen (set_map (delete apiId (perSourceControllers w)) w)) with (seen w).
  fold w1 r. subst w3.
  destruct (r.1) as [|it new] eqn:Hr; [by apply H2|].
  destruct (cb_throw cb) as [e|] eqn:Hcb.
  - by apply (H3 e).
  - by apply H4.
Qed.

Lemma Flagged_same w w' :
  signal w' = signal w → aborted w' = aborted w → Flagged w → Flagged w'.
Proof. unfold Flagged. intros -> ->. done. Qed.

Lemma Flagged_settle i w : Flagged w → Flagged (settle i w).
Proof.
  destruct (settle_quiet i w) as (H1 & _ & H3 & _). by apply Flagged_same.
Qed.

Lemma Flagged_deliver cb items w : Flagged w → Flagged (deliver cb items w).
Proof.
  intros Hf. destruct (deliver_signal cb items w) as [(H1 & H2 & _)|(_ & _ & ->)].
  - by apply (Flagged_same w).
  - intros _. match goal with |- aborted (fireAbort ?w') = _ =>
      by destruct (fireAbort_quiet w') as (? & _) end.
Qed.

Lemma finish_flagged i apiId results cb w :
  Flagged w → Flagged (finish i apiId results cb w).
Proof.
  intros Hf. apply finish_cases.
  - intros _. by apply Flagged_settle, (Flagged_same w).
  - intros _ _. by apply Flagged_settle, (Flagged_same w).
  - intros e _ _ _.
    match goal with |- Flagged (settleRejected i e ?w') =>
      destruct (settleRejected_frame i e w') as (H1 & H2 & _);
      apply (Flagged_same w'); [done|done|] end.
    by apply Flagged_deliver, (Flagged_same w).
  - intros _ _ _. apply Flagged_settle.
    match goal with |- Flagged (earlyAbort cfg ?w') =>
      destruct (earlyAbort_frame w') as (H1 & H2 & _);
      apply (Flagged_same w'); [done|done|] end.
    by apply Flagged_deliver, (Flagged_same w).
Qed.

Lemma step_flagged s s' ev :
  Flagged (world s) → step s ev = Some s' → Flagged (world s').
Proof.
  intros Hf Hstep. destruct ev as [i results cb|i|]; simpl in Hstep.
  - destruct (tasks (world s) !! i) as [[apiId [|c| |]]|]; try done.
    inversion Hstep; subst s'; simpl. by apply finish_flagged.
  - destruct (tasks (world s) !! i) as [[apiId [|c| |]]|]; try done.
    inversion Hstep; subst s'; simpl. unfold Flagged.
    match goal with |- context [Limiter.tryRun ?l _ ?q ?r ?w] =>
      destruct (tryRun_quiet l q r w) as (H1 & _ & H3 & _) end.
    rewrite H1, H3. exact Hf.
  - destruct (signal (world s)) as [[]|]; try done.
    inversion Hstep; subst s'; simpl. intros _.
    by destruct (fireAbort_quiet (world s)) as (H1 & _).
Qed.

Lemma run_flagged evs : ∀ s s',
  Flagged (world s) → run s evs = Some s' → Flagged (world s').
Proof.
  induction evs as [|ev rest IH]; intros s s' Hf Hrun; simpl in Hrun.
  - by inversion Hrun; subst.
  - destruct (step s ev) as [s1|] eqn:Hs; [|done].
    eapply IH; [|exact Hrun]. by eapply step_flagged.
Qed.

(** A session without tasks whose signal has fired: nothing can happen. *)
Lemma run_idle evs s s' :
  tasks (world s) = [] → signal (world s) = Some true →
  run s evs = Some s' → evs = [] ∧ s' = s.
Proof.
  intros Ht Hsg Hrun. destruct evs as [|ev rest]; simpl in Hrun.
  - by inversion Hrun.
  - destruct ev as [i results cb|i|]; simpl in Hrun; rewrite ?Ht, ?Hsg in Hrun;
      try rewrite lookup_nil in Hrun; done.
Qed.

Lemma submit_quiet s i :
  aborted (world (submit env parseInt cfg customAPIs s i)) = aborted (world s) ∧
  callbacks (log (world (submit env parseInt cfg customAPIs s i)))
    = callbacks (log (world s)) ∧
  signal (world (submit env parseInt cfg customAPIs s i)) = signal (world s) ∧
  seen (world (submit env parseInt cfg customAPIs s i)) = seen (world s).
Proof. unfold submit. simpl. apply tryRun_quiet. Qed.

Lemma foldl_submit_quiet l : ∀ s,
  let s' := foldl (submit env parseInt cfg customAPIs) s l in
  aborted (world s') = aborted (world s) ∧
  callbacks (log (world s')) = callbacks (log (world s)) ∧
  signal (world s') = signal (world s) ∧ seen (world s') = seen (world s).
Proof.
  induction l as [|i rest IH]; intros s; simpl; [done|].
  destruct (IH (submit env parseInt cfg customAPIs s i)) as (H1 & H2 & H3 & H4).
  destruct (submit_quiet s i) as (G1 & G2 & G3 & G4).
  rewrite H1, H2, H3, H4. done.
Qed.

(** What the call leaves behind: no callback yet, no seen key, the flag
    down, the signal as it was given. *)
Lemma aggregatedSearch_quiet h conn sel sg :
  let s := aggregatedSearch h conn sel sg in
  aborted (world s) = false ∧ callbacks (log (world s)) = [] ∧
  signal (world s) = sg ∧ seen (world s) = ∅.
Proof.
  unfold Session.aggregatedSearch. destruct sel as [|id rest]; [done|].
  case_bool_decide; [done|].
  match goal with |- context [foldl _ ?s0 ?l] =>
    destruct (foldl_submit_quiet l s0) as (H1 & H2 & H3 & H4) end.
  simpl in *. by rewrite H1, H2, H3, H4.
Qed.

Lemma aggregatedSearch_idle h conn sel :
  aggregatedSearch h conn sel (Some true) =
    idle (Some true) (match sel with [] => Resolved | _ => Rejected AbortError end).
Proof.
  unfold Session.aggregatedSearch. destruct sel; [done|].
  by rewrite bool_decide_true.
Qed.

(** C10.  Once the external signal has fired, onNewResults is not called
    again in that session, whatever returns afterwards. *)
Theorem no_callback_after_abort (h : store) (conn : option string)
    (sel : list string) (sg : option bool) (evs1 evs2 : list Event) (s1 s2 : State)
    (Hrun1 : run (aggregatedSearch h conn sel sg) evs1 = Some s1)
    (Hfired : signal (world s1) = Some true)
    (Hrun2 : run s1 evs2 = Some s2) :
  callbacks (log (world s2)) = callbacks (log (world s1)).
Proof.
  destruct (decide (sg = Some true)) as [->|Hsg].
  - rewrite aggregatedSearch_idle in Hrun1.
    apply run_idle in Hrun1 as [_ ->]; [|done|done].
    apply run_idle in Hrun2 as [_ ->]; done.
  - assert (Hf : Flagged (world s1)).
    { eapply run_flagged; [|exact Hrun1].
      destruct (aggregatedSearch_quiet h conn sel sg) as (_ & _ & H3 & _).
      unfold Flagged. rewrite H3. done. }
    apply (run_aborted evs2 s1 s2); [by apply Hf|done].
Qed.

(** C8 (as amended).  Called with a signal that is already aborted and at
    least one selected source, aggregatedSearch returns a promise rejected
    with AbortError; with or without sources it calls no source, then or
    later. *)
Theorem pre_aborted_rejects (h : store) (conn : option string) (sel : list string) :
  (sel ≠ [] →
   result (world (aggregatedSearch h conn sel (Some true))) = Rejected AbortError) ∧
  (∀ evs s, run (aggregatedSearch h conn sel (Some true)) evs = Some s →
            evs = [] ∧ log (world s) = [] ∧ tasks (world s) = []).
Proof.
  rewrite aggregatedSearch_idle. split.
  - by destruct sel.
  - intros evs s Hrun. apply run_idle in Hrun as [-> ->]; done.
Qed.

(** *** The seen set *)

Lemma filterNew_spec results : ∀ sn : gset string,
  sn ⊆ (filterNew sn results).2 ∧
  NoDup (dedupKey <$> (filterNew sn results).1) ∧
  ∀ it, it ∈ (filterNew sn results).1 →
        it ∈ results ∧ (dedupKey it ∉ sn) ∧ dedupKey it ∈ (filterNew sn results).2.
Proof.
  induction results as [|item rest IH]; intros sn; simpl.
  - split; [done|]. split; [apply NoDup_nil_2|]. intros it Hit.
    by apply elem_of_nil in Hit.
  - destruct (decide (dedupKey item ∈ sn)) as [Hin|Hnew].
    + destruct (IH sn) as (H1 & H2 & H3). split; [done|]. split; [done|].
      intros it Hit. destruct (H3 it Hit) as (? & ? & ?). set_solver.
    + destruct (IH ({[dedupKey item]} ∪ sn)) as (H1 & H2 & H3). simpl.
      split; [set_solver|]. split.
      * apply NoDup_cons. split; [|done].
        intros Hk. apply list_elem_of_fmap in Hk as (it & Heq & Hit).
        destruct (H3 it Hit) as (_ & Hn & _). set_solver.
      * intros it Hit. apply elem_of_cons in Hit as [->|Hit].
        -- split; [set_solver|]. split; [done|]. set_solver.
        -- destruct (H3 it Hit) as (? & ? & ?). set_solver.
Qed.

Lemma filterNew_nil results : ∀ sn : gset string,
  (filterNew sn results).1 = [] → (filterNew sn results).2 = sn.
Proof.
  induction results as [|item rest IH]; intros sn; simpl; [done|].
  destruct (decide (dedupKey item ∈ sn)); [apply IH|done].
Qed.

(** What a task that resumes adds to the callbacks: nothing, or one call
    with the items of its results that were not seen. *)
Lemma finish_delivers i apiId results cb w :
  let w' := finish i apiId results cb w in
  (seen w' = seen w ∧ callbacks (log w') = callbacks (log w)) ∨
  (aborted w = false ∧
   seen w' = (filterNew (seen w) results).2 ∧
   callbacks (log w') = callbacks (log w) ++ [(filterNew (seen w) results).1]).
Proof.
  apply finish_cases.
  - intros _. left.
    match goal with |- context [settle i ?w'] =>
      destruct (settle_quiet i w') as (_ & H2 & _ & H4) end.
    by rewrite H2, H4.
  - intros _ Hnil. left.
    match goal with |- context [settle i ?w'] =>
      destruct (settle_quiet i w') as (_ & H2 & _ & H4) end.
    rewrite H2, H4. simpl. split; [|done]. by apply filterNew_nil.
  - intros e Ha _ _. right. split; [done|].
    match goal with |- context [settleRejected i e ?w'] =>
      destruct (settleRejected_frame i e w') as (_ & _ & H3 & H4 & _) end.
    rewrite H3, H4.
    match goal with |- context [deliver cb ?items ?w'] =>
      destruct (deliver_frame cb items w') as (G1 & G2 & _) end.
    rewrite G1, G2. simpl. unfold callbacks. rewrite omap_app. done.
  - intros Ha _ _. right. split; [done|].
    match goal with |- context [settle i ?w'] =>
      destruct (settle_quiet i w') as (_ & H2 & _ & H4) end.
    rewrite H2, H4.
    match goal with |- context [earlyAbort cfg ?w'] =>
      destruct (earlyAbort_frame w') as (_ & _ & E3 & E4 & _) end.
    rewrite E3, E4.
    match goal with |- context [deliver cb ?items ?w'] =>
      destruct (deliver_frame cb items w') as (G1 & G2 & _) end.
    rewrite G1, G2. simpl. unfold callbacks. rewrite omap_app. done.
Qed.

Lemma Delivers_refl w w' :
  seen w' = seen w → callbacks (log w') = callbacks (log w) → Delivers w w'.
Proof.
  intros Hs Hc. split; [by rewrite Hs|]. exists []. rewrite app_nil_r.
  split; [done|]. split; [apply NoDup_nil_2|].
  intros it Hin. by apply elem_of_nil in Hin.
Qed.

Lemma Delivers_trans w1 w2 w3 : Delivers w1 w2 → Delivers w2 w3 → Delivers w1 w3.
Proof.
  intros (Hs1 & new1 & Hc1 & Hnd1 & Hn1) (Hs2 & new2 & Hc2 & Hnd2 & Hn2).
  split; [set_solver|]. exists (new1 ++ new2).
  split; [by rewrite Hc2, Hc1, app_assoc|].
  rewrite concat_app, fmap_app. split.
  - apply NoDup_app. split; [done|]. split; [|done].
    intros k Hk1 Hk2.
    apply list_elem_of_fmap in Hk1 as (it1 & -> & Hit1).
    apply list_elem_of_fmap in Hk2 as (it2 & Heq & Hit2).
    destruct (Hn1 it1 Hit1) as [_ Hin]. destruct (Hn2 it2 Hit2) as [Hout _].
    rewrite <- Heq in Hout. done.
  - intros it Hin. apply elem_of_app in Hin as [Hin|Hin].
    + destruct (Hn1 it Hin). set_solver.
    + destruct (Hn2 it Hin). set_solver.
Qed.

Lemma step_delivers s s' ev : step s ev = Some s' → Delivers (world s) (world s').
Proof.
  intros Hstep. destruct ev as [i results cb|i|]; simpl in Hstep.
  - destruct (tasks (world s) !! i) as [[apiId [|c| |]]|]; try done.
    inversion Hstep; subst s'; simpl.
    destruct (finish_delivers i apiId results cb (world s)) as [[Hs Hc]|(_ & Hs & Hc)].
    + by apply Delivers_refl.
    + destruct (filterNew_spec results (seen (world s))) as (Hsub & Hnd & Hk).
      split; [by rewrite Hs|]. eexists. split; [exact Hc|].
      simpl. rewrite app_nil_r. split; [done|].
      intros it Hit. destruct (Hk it Hit) as (_ & ? & ?).
      by rewrite Hs.
  - destruct (tasks (world s) !! i) as [[apiId [|c| |]]|]; try done.
    inversion Hstep; subst s'; simpl.
    match goal with |- context [Limiter.tryRun ?l _ ?q ?r ?w] =>
      destruct (tryRun_quiet l q r w) as (_ & H2 & _ & H4) end.
    by apply Delivers_refl.
  - destruct (signal (world s)) as [[]|]; try done.
    inversion Hstep; subst s'; simpl.
    destruct (fireAbort_quiet (world s)) as (_ & H2 & _ & H4).
    apply Delivers_refl; [done|by rewrite H2].
Qed.

Lemma run_delivers evs : ∀ s s', run s evs = Some s' → Delivers (world s) (world s').
Proof.
  induction evs as [|ev rest IH]; intros s s' Hrun; simpl in Hrun.
  - inversion Hrun; subst. by apply Delivers_refl.
  - destruct (step s ev) as [s1|] eqn:Hs; [|done].
    eapply Delivers_trans; [by eapply step_delivers|by apply IH].
Qed.

(** C9.  The session's key of an item is source_code, an underscore and
    vod_id run together, and two different pairs can give the same key:
    ('a_b', 'c') and ('a', 'b_c').  In a session no two items handed to
    onNewResults have the same key, and once an item has been handed over,
    an item with the same key that arrives later never is. *)
Theorem dedup_key_collision (h : store) (conn : option string) (sel : list string)
    (sg : option bool) :
  (∀ it, dedupKey it = source_code it +:+ "_" +:+ vod_id it) ∧
  (let i1 := mkItem "c" "A" "a_b" None in
   let i2 := mkItem "b_c" "A" "a" None in
   (source_code i1, vod_id i1) ≠ (source_code i2, vod_id i2) ∧
   dedupKey i1 = dedupKey i2) ∧
  (∀ evs s, run (aggregatedSearch h conn sel sg) evs = Some s →
            NoDup (dedupKey <$> concat (callbacks (log (world s))))) ∧
  (∀ evs1 s1 evs2 s2 i1 i2,
     run (aggregatedSearch h conn sel sg) evs1 = Some s1 →
     run s1 evs2 = Some s2 →
     i1 ∈ concat (callbacks (log (world s1))) →
     dedupKey i2 = dedupKey i1 →
     ∃ later, callbacks (log (world s2)) = callbacks (log (world s1)) ++ later ∧
              i2 ∉ concat later).
Proof.
  destruct (aggregatedSearch_quiet h conn sel sg) as (_ & Hc0 & _ & Hs0).
  split; [done|]. split; [split; [done|reflexivity]|]. split.
  - intros evs s Hrun.
    destruct (run_delivers evs _ s Hrun) as (_ & new & Hc & Hnd & _).
    rewrite Hc, Hc0. exact Hnd.
  - intros evs1 s1 evs2 s2 i1 i2 Hrun1 Hrun2 Hin Hkey.
    destruct (run_delivers evs1 _ s1 Hrun1) as (_ & new1 & Hc1 & _ & Hk1).
    destruct (run_delivers evs2 _ s2 Hrun2) as (_ & later & Hc2 & _ & Hk2).
    exists later. split; [done|]. intros Hin2.
    rewrite Hc1, Hc0 in Hin. simpl in Hin.
    destruct (Hk1 i1 Hin) as [_ Hseen]. destruct (Hk2 i2 Hin2) as [Hnot _].
    rewrite Hkey in Hnot. done.
Qed.

(** *** The promise that is returned *)


Lemma statusAt_set_status w i j st :
  statusAt (set_status i st w) j =
  if decide (i = j) then (fun _ => st) <$> statusAt w j else statusAt w j.
Proof.
  unfold statusAt, set_status. simpl. destruct (decide (i = j)) as [->|Hne].
  - rewrite list_lookup_alter_eq. by destruct (tasks w !! j).
  - by rewrite list_lookup_alter_ne.
Qed.

Lemma allSettled_false w i st :
  statusAt w i = Some st → settled st = false → allSettled w = false.
Proof.
  unfold statusAt, allSettled. intros Hi Hst.
  destruct (tasks w !! i) as [[id st']|] eqn:Hl; [|done]. simpl in Hi.
  inversion Hi; subst st'.
  apply not_true_is_false. intros Hall.
  rewrite forallb_forall in Hall.
  assert (Hin : In (id, st) (tasks w)).
  { apply list_elem_of_In, list_elem_of_lookup. eauto. }
  specialize (Hall _ Hin). simpl in Hall. congruence.
Qed.

Lemma allSettled_alter l i st :
  forallb (fun t : string * Status => settled t.2) (alter (fun t => (t.1, st)) i l) =
  match l !! i with
  | Some t => if settled st then forallb (fun t : string * Status => settled t.2) (delete i l)
              else false
  | None => forallb (fun t : string * Status => settled t.2) l
  end.
Proof.
  unfold alter. revert i. induction l as [|t l IH]; intros [|i]; simpl; try done.
  rewrite IH. destruct (l !! i); [|done].
  destruct (settled st); [done|]. apply andb_false_r.
Qed.

Lemma allSettled_delete l i t :
  l !! i = Some t →
  forallb (fun t : string * Status => settled t.2) l =
  settled t.2 && forallb (fun t : string * Status => settled t.2) (delete i l).
Proof.
  revert i. induction l as [|x l IH]; intros [|i] Hi; simpl in *; try done.
  - by inversion Hi.
  - rewrite (IH i Hi). destruct (settled x.2), (settled t.2); done.
Qed.

(** Settling a task keeps a settled session settled. *)
Lemma allSettled_settle w i st :
  settled st = true → allSettled w = true → allSettled (set_status i st w) = true.
Proof.
  unfold allSettled, set_status. simpl. intros Hst Hall.
  rewrite allSettled_alter. destruct (tasks w !! i) as [t|] eqn:Hi; [|done].
  rewrite Hst. rewrite (allSettled_delete _ i t Hi) in Hall.
  by apply andb_true_iff in Hall as [_ ?].
Qed.

(** A change of state that does not settle or unsettle a task does not
    change whether the session is settled. *)
Lemma allSettled_same w i st0 st :
  statusAt w i = Some st0 → settled st0 = settled st →
  allSettled (set_status i st w) = allSettled w.
Proof.
  unfold statusAt, allSettled, set_status. simpl. intros Hi Hst.
  destruct (tasks w !! i) as [[id st']|] eqn:Hl; [|done]. simpl in Hi.
  inversion Hi; subst st'.
  rewrite allSettled_alter, Hl, (allSettled_delete _ i _ Hl). simpl.
  rewrite Hst. by destruct (settled st).
Qed.


Lemma settle_cases i w :
  aborted (settle i w) = aborted w ∧ signal (settle i w) = signal w ∧
  allSettled (settle i w) = allSettled (set_status i Draining w) ∧
  result (settle i w) =
    match result w with
    | Pending => if allSettled (set_status i Draining w) then Resolved else Pending
    | r => r
    end.
Proof.
  unfold settle, decide_result.
  destruct (allSettled (set_status i Draining w)) eqn:Hall; simpl;
    destruct (result w) eqn:Hw; unfold allSettled in *; simpl in *;
    rewrite ?Hw, ?Hall; done.
Qed.

Lemma Decided_settle i w : Decided w → Decided (settle i w).
Proof.
  intros [Hp Hr Hj Hf].
  destruct (settle_cases i w) as (Ha & Hs & Hall & Hres).
  assert (Hmono : allSettled w = true → allSettled (set_status i Draining w) = true)
    by apply (allSettled_settle w i Draining eq_refl).
  split; rewrite ?Ha, ?Hs, ?Hall, ?Hres; [| | |done].
  - destruct (result w) eqn:Hw.
    + destruct (proj1 Hp eq_refl) as [Hna _].
      destruct (allSettled (set_status i Draining w)); split; try done.
      intros [_ ?]. done.
    + specialize (Hmono (Hr eq_refl)). split; [done|]. intros [_ ?]. congruence.
    + destruct (Hj e eq_refl) as [_ Hab]. split; [done|]. intros [? _]. congruence.
  - destruct (result w) eqn:Hw.
    + by destruct (allSettled (set_status i Draining w)).
    + intros _. by apply Hmono, Hr.
    + done.
  - intros e. destruct (result w) eqn:Hw.
    + by destruct (allSettled (set_status i Draining w)).
    + done.
    + intros He. inversion He; subst. by apply Hj.
Qed.

Lemma fireAbort_cases w :
  allSettled (fireAbort w) = allSettled w ∧
  result (fireAbort w) =
    match result w with Pending => Rejected AbortError | r => r end.
Proof.
  unfold fireAbort, decide_result. simpl.
  destruct (result w) eqn:Hw; unfold allSettled; simpl; by rewrite ?Hw.
Qed.

Lemma Decided_fireAbort w : Decided w → Decided (fireAbort w).
Proof.
  intros [Hp Hr Hj Hf].
  destruct (fireAbort_quiet w) as (Ha & _ & Hs & _).
  destruct (fireAbort_cases w) as (Hall & Hres).
  split; rewrite ?Ha, ?Hs, ?Hall, ?Hres; [| | |done].
  - destruct (result w); split; try done; intros [? _]; done.
  - destruct (result w) eqn:Hw; try done.
  - intros e. destruct (result w) eqn:Hw; try done.
    + intros He. by inversion He.
    + intros He. inversion He; subst. split; [|done]. by apply Hj.
Qed.

Lemma Decided_same w w' :
  result w' = result w → aborted w' = aborted w → signal w' = signal w →
  allSettled w' = allSettled w → Decided w → Decided w'.
Proof.
  intros H1 H2 H3 H4 [Hp Hr Hj Hf]. split; rewrite ?H1, ?H2, ?H3, ?H4; done.
Qed.

(** A task that resumes and whose callback does not throw. *)
Lemma Decided_deliver cb items w : Decided w → Decided (deliver cb items w).
Proof.
  intros Hd. destruct (deliver_signal cb items w) as [(H1 & H2 & H3 & _)|(_ & _ & ->)].
  - apply (Decided_same w); try done.
    unfold allSettled. by destruct (deliver_frame cb items w) as (_ & _ & -> & _).
  - apply Decided_fireAbort. by apply (Decided_same w).
Qed.

Lemma Decided_finish i apiId results cb w :
  cb_throw cb = None → Decided w → Decided (finish i apiId results cb w).
Proof.
  intros Hcb Hd. apply finish_cases.
  - intros _. by apply Decided_settle, (Decided_same w).
  - intros _ _. by apply Decided_settle, (Decided_same w).
  - intros e _ _ He. congruence.
  - intros _ _ _. apply Decided_settle.
    match goal with |- Decided (earlyAbort cfg ?w') =>
      destruct (earlyAbort_frame w') as (E1 & E2 & _ & _ & E5 & E6 & _);
      apply (Decided_same w'); try done; [by unfold allSettled; rewrite E5|] end.
    by apply Decided_deliver, (Decided_same w).
Qed.

Lemma finish_tasks i apiId results cb w :
  tasks (finish i apiId results cb w) = tasks (set_status i Draining w).
Proof.
  apply finish_cases.
  - intros _. by destruct (settle_frame i (set_map (delete apiId (perSourceControllers w)) w))
      as (_ & _ & _ & ->).
  - intros _ _.
    match goal with |- context [settle i ?w'] =>
      by destruct (settle_frame i w') as (_ & _ & _ & ->) end.
  - intros e _ _ _.
    match goal with |- context [settleRejected i e ?w'] =>
      destruct (settleRejected_frame i e w') as (_ & _ & _ & _ & _ & ->) end.
    unfold set_status. simpl.
    match goal with |- context [deliver cb ?items ?w'] =>
      by destruct (deliver_frame cb items w') as (_ & _ & -> & _) end.
  - intros _ _ _.
    match goal with |- context [settle i ?w'] =>
      destruct (settle_frame i w') as (_ & _ & _ & ->) end.
    unfold set_status. simpl.
    match goal with |- context [earlyAbort cfg ?w'] =>
      destruct (earlyAbort_frame w') as (_ & _ & _ & _ & -> & _) end.
    match goal with |- context [deliver cb ?items ?w'] =>
      by destruct (deliver_frame cb items w') as (_ & _ & -> & _) end.
Qed.

(** Starting a task takes it out of the state Queued and leaves the
    other tasks as they are. *)
Lemma startTask_tasks i w st0 :
  statusAt w i = Some st0 →
  ∃ st, st ≠ Queued ∧ tasks (startTask i w) = tasks (set_status i st w).
Proof.
  unfold statusAt. intros Hi. unfold Session.startTask.
  destruct (tasks w !! i) as [[apiId st']|]; [|done].
  destruct (aborted w).
  { exists Draining. split; [done|]. by destruct (settle_frame i w) as (_ & _ & _ & ->). }
  destruct (register_frame apiId w) as (_ & _ & _ & _ & R5 & _).
  destruct (backend env parseInt customAPIs apiId) as [source|].
  - exists (Fetching (length (controllers w))). split; [done|].
    simpl. by rewrite R5.
  - exists Draining. split; [done|]. rewrite finish_tasks.
    unfold set_status. simpl. by rewrite R5.
Qed.

Lemma Decided_startTask i w :
  statusAt w i = Some Queued → Decided w → Decided (startTask i w).
Proof.
  intros Hi Hd. unfold Session.startTask. pose proof Hi as Hi'. unfold statusAt in Hi.
  destruct (tasks w !! i) as [[apiId st']|]; [|done]. simpl in Hi.
  destruct (aborted w) eqn:Ha; [by apply Decided_settle|].
  destruct (register_frame apiId w) as (R1 & R2 & _ & _ & R5 & R6 & _).
  assert (Hd2 : Decided (register apiId w)).
  { apply (Decided_same w); try done. unfold allSettled. by rewrite R5. }
  assert (Hs2 : statusAt (register apiId w) i = Some Queued).
  { unfold statusAt. by rewrite R5. }
  destruct (backend env parseInt customAPIs apiId) as [source|].
  - apply (Decided_same (register apiId w)); try done. simpl.
    change (allSettled (set_status i (Fetching (length (controllers w))) (register apiId w))
            = allSettled (register apiId w)).
    by apply (allSettled_same _ i Queued).
  - by apply Decided_finish.
Qed.


Lemma Struct_other k q w w' i :
  i ∉ q → (i < k)%nat → (∃ st, tasks w' = tasks (set_status i st w)) →
  Struct k q w → Struct k q w'.
Proof.
  intros Hni Hik [st Ht] (Hnd & Hq & Hrest).
  assert (Hst : ∀ j, j ≠ i → statusAt w' j = statusAt w j).
  { intros j Hne. unfold statusAt. rewrite Ht.
    pose proof (statusAt_set_status w i j st) as H. unfold statusAt in H.
    rewrite H. by destruct (decide (i = j)); [subst|]. }
  assert (Hlen : length (tasks w') = length (tasks w)).
  { rewrite Ht. unfold set_status. simpl. apply length_alter. }
  split; [done|]. split.
  - intros j Hj. destruct (Hq j Hj) as [? ?]. split; [done|].
    rewrite Hst; [done|]. intros ->. done.
  - intros j Hj. rewrite Hst by lia. apply Hrest. lia.
Qed.

Lemma Struct_startTask k t q w : Struct k (t :: q) w → Struct k q (startTask t w).
Proof.
  intros (Hnd & Hq & Hrest). apply NoDup_cons in Hnd as [Hnt Hnd].
  destruct (Hq t) as [Htk Hts]; [set_solver|].
  destruct (startTask_tasks t w Queued Hts) as (st & _ & Ht).
  apply (Struct_other k q w _ t); try done; [by exists st|].
  split; [done|]. split; [|done]. intros i Hi. apply Hq. set_solver.
Qed.

Lemma tryRun_decided k limit q r w :
  Struct k q w → Decided w →
  let res := Limiter.tryRun limit startTask q r w in
  Struct k res.1.2 res.2 ∧ Decided res.2.
Proof.
  intros Hs Hd.
  apply (tryRun_invariant (fun q w => Struct k q w ∧ Decided w)); [|done].
  intros t q' w' [Hs' Hd']. split; [by apply Struct_startTask|].
  apply Decided_startTask; [|done].
  destruct Hs' as (_ & Hq & _). apply Hq. set_solver.
Qed.


Lemma tryRun_length limit q r w :
  length (tasks (Limiter.tryRun limit startTask q r w).2) = length (tasks w).
Proof.
  apply (tryRun_preserves (fun w' => length (tasks w') = length (tasks w))); [|done].
  intros t w' Hlen. rewrite <- Hlen. unfold Session.startTask.
  destruct (tasks w' !! t) as [[apiId st]|] eqn:Ht; [|done].
  assert (Hst : statusAt w' t = Some st) by (unfold statusAt; by rewrite Ht).
  destruct (startTask_tasks t w' st Hst) as (st' & _ & Heq).
  unfold Session.startTask in Heq. rewrite Ht in Heq. rewrite Heq.
  unfold set_status. simpl. apply length_alter.
Qed.

Lemma Sound_step s s' ev :
  throws ev = false → Sound s → step s ev = Some s' → Sound s'.
Proof.
  intros Hth [Hs Hd] Hstep. destruct ev as [i results cb|i|]; simpl in Hstep.
  - destruct (tasks (world s) !! i) as [[apiId [|c| |]]|] eqn:Hi; try done.
    inversion Hstep; subst s'; simpl. unfold Sound. simpl.
    assert (Hlen : (i < length (tasks (world s)))%nat) by (by eapply lookup_lt_Some).
    assert (Hniq : i ∉ queue s).
    { intros Hin. destruct Hs as (_ & Hq & _). destruct (Hq i Hin) as [_ Hst].
      unfold statusAt in Hst. rewrite Hi in Hst. done. }
    split.
    + rewrite finish_tasks. unfold set_status at 1. simpl. rewrite length_alter.
      apply (Struct_other _ _ (world s) _ i); try done.
      exists Draining. apply finish_tasks.
    + apply Decided_finish; [|done]. simpl in Hth.
      destruct (cb_throw cb); [|done]. rewrite bool_decide_true in Hth; [done|eauto].
  - destruct (tasks (world s) !! i) as [[apiId [|c| |]]|] eqn:Hi; try done.
    inversion Hstep; subst s'; simpl. unfold Sound. simpl.
    assert (Hlen : (i < length (tasks (world s)))%nat) by (by eapply lookup_lt_Some).
    assert (Hst : statusAt (world s) i = Some Draining)
      by (unfold statusAt; by rewrite Hi).
    assert (Hniq : i ∉ queue s).
    { intros Hin. destruct Hs as (_ & Hq & _). destruct (Hq i Hin) as [_ Hst'].
      congruence. }
    rewrite tryRun_length. unfold set_status at 1. simpl. rewrite length_alter.
    apply tryRun_decided.
    + apply (Struct_other _ _ (world s) _ i); try done. by exists Released.
    + apply (Decided_same (world s)); try done.
      by apply (allSettled_same (world s) i Draining).
  - destruct (signal (world s)) as [[]|]; try done.
    inversion Hstep; subst s'; simpl. split; simpl.
    + destruct (fireAbort_frame (world s)) as (Ht & _).
      unfold Struct, statusAt in *. by rewrite Ht.
    + by apply Decided_fireAbort.
Qed.

Lemma Sound_run evs : ∀ s s',
  forallb (fun ev => negb (throws ev)) evs = true →
  Sound s → run s evs = Some s' → Sound s'.
Proof.
  induction evs as [|ev rest IH]; intros s s' Hth Hs Hrun; simpl in *.
  - by inversion Hrun; subst.
  - apply andb_true_iff in Hth as [Hev Hth]. apply negb_true_iff in Hev.
    destruct (step s ev) as [s1|] eqn:Hstep; [|done].
    eapply IH; [done| |exact Hrun]. by eapply Sound_step.
Qed.

Lemma insertBy_length {A} (cmp : A → A → Q) x l :
  length (insertBy cmp x l) = S (length l).
Proof.
  induction l as [|y l IH]; simpl; [done|].
  destruct (Qle_bool (cmp x y) 0); simpl; by rewrite ?IH.
Qed.

Lemma sortBy_length {A} (cmp : A → A → Q) l : length (sortBy cmp l) = length l.
Proof.
  induction l as [|x l IH]; simpl; [done|]. by rewrite insertBy_length, IH.
Qed.

(** Giving the tasks to the limiter one after the other. *)
Lemma Sound_submit m : ∀ k s,
  (k + m <= length (tasks (world s)))%nat →
  Struct k (queue s) (world s) → Decided (world s) →
  let s' := foldl (submit env parseInt cfg customAPIs) s (seq k m) in
  Struct (k + m) (queue s') (world s') ∧ Decided (world s') ∧
  length (tasks (world s')) = length (tasks (world s)).
Proof.
  induction m as [|m IH]; intros k s Hkm Hs Hd; simpl.
  - by rewrite Nat.add_0_r.
  - set (s1 := submit env parseInt cfg customAPIs s k).
    assert (Hlen : length (tasks (world s1)) = length (tasks (world s))).
    { subst s1. unfold submit. simpl. apply tryRun_length. }
    assert (H1 : Struct (S k) (queue s1) (world s1) ∧ Decided (world s1)).
    { subst s1. unfold submit. simpl. apply tryRun_decided; [|done].
      destruct Hs as (Hnd & Hq & Hrest). split; [|split].
      - apply NoDup_app. split; [done|]. split; [|apply NoDup_singleton].
        intros i Hi Hik. apply list_elem_of_singleton in Hik as ->.
        destruct (Hq k Hi). lia.
      - intros i Hi. apply elem_of_app in Hi as [Hi|Hi].
        + destruct (Hq i Hi). split; [lia|done].
        + apply list_elem_of_singleton in Hi as ->. split; [lia|].
          apply Hrest. lia.
      - intros j Hj. apply Hrest. lia. }
    destruct H1 as [Hs1 Hd1].
    destruct (IH (S k) s1 ltac:(lia) Hs1 Hd1) as (G1 & G2 & G3).
    replace (k + S m)%nat with (S k + m)%nat by lia.
    split; [done|]. split; [done|]. by rewrite G3.
Qed.

(** The state the call leaves is sound, unless the signal was already
    aborted. *)
Lemma Sound_aggregatedSearch h conn sel sg :
  sg ≠ Some true → Sound (aggregatedSearch h conn sel sg).
Proof.
  intros Hsg. unfold Session.aggregatedSearch.
  destruct sel as [|id rest].
  { split; simpl.
    - split; [apply NoDup_nil_2|]. split.
      + intros i Hi. by apply elem_of_nil in Hi.
      + simpl. intros j Hj. lia.
    - split; simpl; try done.
      split; [done|]. intros [_ H]. done. }
  rewrite bool_decide_false by done.
  set (ordered := sortBy _ (id :: rest)).
  set (w := mkWorld _ _ _ _ _ _ _ _ _ _).
  assert (Hn : length ordered = S (length rest)) by (subst ordered; by rewrite sortBy_length).
  assert (Hq : ∀ j, (j < length ordered)%nat → statusAt w j = Some Queued).
  { intros j Hj. unfold statusAt. subst w. simpl. rewrite list_lookup_fmap.
    destruct (lookup_lt_is_Some_2 ordered j Hj) as [x Hx]. by rewrite Hx. }
  assert (Hlen : length (tasks w) = length ordered).
  { subst w. simpl. by rewrite length_fmap. }
  set (dynamicLimit := getAdaptiveConcurrency cfg conn h (id :: rest)).
  destruct (Sound_submit (length ordered) 0 (mkState dynamicLimit 0 [] w))
    as (G1 & G2 & G3).
  - change (0 + length ordered <= length (tasks w))%nat. lia.
  - split; [apply NoDup_nil_2|]. split.
    + intros i Hi. by apply elem_of_nil in Hi.
    + intros j [_ Hj]. apply Hq.
      change (j < length (tasks w))%nat in Hj. lia.
  - change (Decided w).
    assert (Hall : allSettled w = false).
    { apply (allSettled_false w 0 Queued); [|done]. apply Hq. lia. }
    split; rewrite ?Hall; try done.
  - split; [|exact G2].
    change (length (tasks w)) with (length (tasks w)) in G3.
    rewrite G3. change (world (mkState dynamicLimit 0 [] w)) with w. rewrite Hlen.
    exact G1.
Qed.









(** *** The early abort *)

(** abortRest aborts the controller of every source that is in the map,
    that is, of every task that has started and not yet finished. *)
Lemma abortRest_in_flight w id c :
  perSourceControllers w !! id = Some c → (c < length (controllers w))%nat →
  controllers (abortRest w) !! c = Some true.
Proof.
  intros Hc Hlt. unfold abortRest. simpl. apply abortAll_hits; [|done].
  apply list_elem_of_fmap. exists (id, c). split; [done|].
  by apply elem_of_map_to_list.
Qed.

(** When a task hands over items and the count reaches topKFirstBatch,
    with earlyAbortAfterTopK on, the controllers of all the other sources
    in flight are aborted at once. *)
Lemma early_abort_in_flight i apiId results w id c :
  aborted w = false → earlyAbortAfterTopK cfg = true →
  (filterNew (seen w) results).1 ≠ [] →
  (topK cfg <= Z.of_nat (reachedTopK w + 1))%Z →
  id ≠ apiId → perSourceControllers w !! id = Some c →
  (c < length (controllers w))%nat →
  controllers (finish i apiId results quiet w) !! c = Some true.
Proof.
  intros Ha He Hnew Htop Hne Hc Hlt. apply finish_cases; try done; try congruence.
  intros _ _ _.
  match goal with |- context [settle i ?w'] =>
    destruct (settle_frame i w') as (-> & _) end.
  unfold earlyAbort, deliver. simpl. rewrite He, Ha. simpl.
  rewrite (proj2 (Z.leb_le _ _) Htop). simpl.
  apply abortAll_hits; [|done].
  apply list_elem_of_fmap. exists (id, c). split; [done|].
  apply elem_of_map_to_list. by rewrite lookup_delete_ne.
Qed.


(** What a throwing callback does to the promise: it is rejected with
    what was thrown, unless it was settled before. *)
Lemma throwing_callback i apiId results e w :
  aborted w = false → (filterNew (seen w) results).1 ≠ [] → result w = Pending →
  result (finish i apiId results (mkCb false (Some e)) w) = Rejected e.
Proof.
  intros Ha Hnew Hres. apply finish_cases; try done; try congruence.
  intros e' _ _ He'. inversion He'; subst e'.
  unfold settleRejected, decide_result, deliver. simpl. by rewrite Hres.
Qed.

End SessionFacts.
(** ** The examples, run *)

Ltac compute_all := repeat apply conj; vm_compute; reflexivity.

Section SessionExamples.
Import Health Session Demo.

(** C5 (where the code departs from it).  Five sources, topKFirstBatch = 2,
    earlyAbortAfterTopK on, the default concurrency of 3.  When the first
    two sources have each handed over an item, abortRest aborts the
    controllers of the two sources that are in flight (s3 and s4); s5 is
    still in the limiter's queue and has no controller.  It starts
    afterwards with a fresh controller that is not aborted, is searched,
    and its items are handed to onNewResults. *)
Theorem early_abort_misses_queued :
  run5 search5 [Return 0 [item "s1" "1"] quiet; Release 0;
                Return 1 [item "s2" "1"] quiet] = Some after_two ∧
  limit after_two = 3%Z ∧
  tasks (world after_two) = [("s1", Released); ("s2", Draining); ("s3", Fetching 2);
                             ("s4", Fetching 3); ("s5", Queued)] ∧
  controllers (world after_two) = [false; false; true; true] ∧
  perSourceControllers (world after_two) !! "s5" = None ∧
  run5 after_two [Release 1; Return 4 [item "s5" "1"] quiet] = Some after_five ∧
  tasks (world after_five) !! 4%nat = Some ("s5", Draining) ∧
  controllers (world after_five) = [false; false; true; true; false] ∧
  searches (log (world after_five)) = five ∧
  callbacks (log (world after_five))
    = [[item "s1" "1"]; [item "s2" "1"]; [item "s5" "1"]].
Proof. compute_all. Qed.



(** C8 without its side condition fails for an empty selection: the call returns
    a resolved promise although the signal is already aborted. *)
Lemma pre_aborted_empty_resolves :
  result (world (aggregatedSearch env noInt cfg_default [] ∅ None [] (Some true)))
    = Resolved ∧
  Resolved ≠ Rejected AbortError.
Proof. split; [reflexivity|discriminate]. Qed.

Lemma pre_aborted_rejects_witness :
  result (world (aggregatedSearch env noInt cfg_default [] ∅ None five (Some true)))
    = Rejected AbortError.
Proof.
  apply (proj1 (pre_aborted_rejects env noInt cfg_default [] ∅ None five)).
  discriminate.
Defined.

Lemma dedup_key_collision_witness :
  ∃ later,
    callbacks (log (world ab_second)) = callbacks (log (world ab_first)) ++ later ∧
    item "a" "b_c" ∉ concat later.
Proof.
  apply (proj2 (proj2 (proj2
           (dedup_key_collision env_ab noInt cfg_default [] ∅ None ["a_b"; "a"] None)))
           [Return 0 [item "a_b" "c"] quiet] ab_first
           [Release 0; Return 1 [item "a" "b_c"] quiet] ab_second
           (item "a_b" "c") (item "a" "b_c")).
  - vm_compute. reflexivity.
  - vm_compute. reflexivity.
  - vm_compute. apply list_elem_of_here.
  - vm_compute. reflexivity.
Defined.

(** The later of the two items is not handed over. *)
Example collision_suppressed :
  run_ab search_ab [Return 0 [item "a_b" "c"] quiet; Release 0;
                    Return 1 [item "a" "b_c"] quiet] = Some ab_second ∧
  callbacks (log (world ab_second)) = [[item "a_b" "c"]] ∧
  result (world ab_second) = Resolved.
Proof. compute_all. Qed.

Lemma no_callback_after_abort_witness :
  callbacks (log (world fired_later)) = callbacks (log (world fired)).
Proof.
  apply (no_callback_after_abort env noInt cfg_top2 [] ∅ None five (Some false)
           [Return 0 [item "s1" "1"] quiet; Abort]
           [Return 1 [item "s2" "1"] quiet; Release 0] fired fired_later).
  - vm_compute. reflexivity.
  - vm_compute. reflexivity.
  - vm_compute. reflexivity.
Defined.

End SessionExamples.

Section ServiceExamples.
Import Health Service Demo.


(** Both callers of the shared request get the same failure. *)
Example shared_failure :
  (returned <$> step env called_twice (Respond 0 TimedOut 8010 0)) =
    Some [(1%nat, mkResponse 400 (Some "The operation was aborted.") []);
          (2%nat, mkResponse 400 (Some "The operation was aborted.") [])] ∧
  (fetches <$> step env called_twice (Respond 0 TimedOut 8010 0)) =
    Some ["/proxy?url=https://one.example?ac=videolist&wd=q"].
Proof. compute_all. Qed.

Lemma exec_failure_recorded_witness :
  ∃ err s' rec',
    execBody env "s1" None (Response 503 NoList) = Limiter.Rejected err ∧
    step env called_twice (Respond 0 (Response 503 NoList) 8010 0) = Some s' ∧
    sourceHealth s' !! "s1" = Some rec' ∧
    failureCount rec' = 1%nat ∧ lastLatencyMs rec' = (8010 - 10)%Q ∧
    (∀ c, (c, 0%nat) ∈ waiting called_twice →
          (c, mkResponse 400 (Some (message err)) []) ∈ returned s').
Proof.
  destruct (exec_failure_recorded env called_twice 0 (Response 503 NoList) 8010 0
              "/proxy?url=https://one.example?ac=videolist&wd=q" "s1" None 10)
    as (err & s' & rec' & Hbody & Hstep & Hh & Hrec & Hlat & Hfc & Hsc & Hp & Hw).
  - vm_compute. reflexivity.
  - apply fail_status. reflexivity.
  - exists err, s', rec'. repeat apply conj; try done.
Defined.

End ServiceExamples.

Section LimiterExamples.
Import Limiter Demo.

Lemma limiter_guarantees_witness :
  ((length (active (world gate_state)) <= running gate_state)%nat ∧
   (Z.of_nat (running gate_state) <= 2)%Z) ∧
  started (world gate_state) ++ queue gate_state = submitted gate_state ∧
  delivered (world gate_state) = settlements three_tasks.
Proof.
  destruct (limiter_guarantees 2 three_tasks gate_state) as (Hb & Hf & Hd & _).
  - lia.
  - vm_compute. reflexivity.
  - repeat apply conj; tauto.
Defined.

(** Task 0 is rejected; tasks 1 and 2 run all the same, in order. *)
Example rejection_does_not_stop_the_gate :
  started (world gate_state) = [0; 1; 2]%nat ∧ queue gate_state = [] ∧
  delivered (world gate_state)
    = [(0%nat, Rejected "failed"); (1%nat, Fulfilled 7%nat)].
Proof. compute_all. Qed.

End LimiterExamples.

(** * Further properties of the code *)

(** ** The health store over runs of calls *)

Section RecordsFacts.
Import Health Records.

Lemma updateHealth_other h id id' okb l now :
  id' ≠ id → updateHealth h id okb l now !! id' = h !! id'.
Proof. intros Hne. unfold updateHealth. by rewrite lookup_insert_ne. Qed.

Lemma updateHealth_counts h id okb l now :
  successesOf (updateHealth h id okb l now) id
    = (successesOf h id + if okb then 1 else 0)%nat ∧
  failuresOf (updateHealth h id okb l now) id
    = (failuresOf h id + if okb then 0 else 1)%nat.
Proof.
  unfold successesOf, failuresOf, updateHealth. rewrite lookup_insert_eq.
  destruct (h !! id) as [r|], okb; simpl; split; lia.
Qed.

(** X1.  The counters of a source count its completed calls: after any run
    of records for a source its successCount has grown by the number of
    successes and its failureCount by the number of failures, the record
    exists as soon as one call has completed, and the records of the other
    sources are untouched. *)
Theorem recordAll_counts (h : store) (id : string) (calls : list Completed) :
  successesOf (recordAll h id calls) id = (successesOf h id + successes calls)%nat ∧
  failuresOf (recordAll h id calls) id = (failuresOf h id + failures calls)%nat ∧
  (calls ≠ [] → is_Some (recordAll h id calls !! id)) ∧
  (∀ id', id' ≠ id → recordAll h id calls !! id' = h !! id').
Proof.
  revert h. induction calls as [|c rest IH]; intros h.
  - unfold successes, failures. simpl. repeat split; try lia; done.
  - destruct (IH (updateHealth h id (ok c) (latency c) (stamp c))) as (H1 & H2 & H3 & H4).
    destruct (updateHealth_counts h id (ok c) (latency c) (stamp c)) as [G1 G2].
    unfold recordAll in *. simpl. unfold successes, failures in *. simpl.
    split; [|split; [|split]].
    + rewrite H1, G1. destruct (ok c); simpl; lia.
    + rewrite H2, G2. destruct (ok c); simpl; lia.
    + intros _. destruct rest as [|c2 rest2]; [|by apply H3].
      simpl. unfold updateHealth. rewrite lookup_insert_eq. eauto.
    + intros id' Hne. rewrite H4 by done. by apply updateHealth_other.
Qed.

Lemma recordAll_counts_witness :
  is_Some (recordAll ∅ "s" [mkCompleted true 120 0; mkCompleted false 300 1] !! "s") ∧
  recordAll ∅ "s" [mkCompleted true 120 0; mkCompleted false 300 1] !! "t" = None.
Proof.
  destruct (recordAll_counts ∅ "s" [mkCompleted true 120 0; mkCompleted false 300 1])
    as (_ & _ & H3 & H4).
  split; [by apply H3|]. rewrite (H4 "t") by done. apply lookup_empty.
Defined.








(** The success rate is a rate. *)
Lemma rate_bounds s f :
  (0 < s + f)%nat → (0 <= ofNat s / ofNat (s + f) <= 1)%Q.
Proof.
  intros Hpos.
  assert (Ht : (0 < ofNat (s + f))%Q) by (unfold ofNat, Qlt; simpl; lia).
  assert (Hs : (0 <= ofNat s)%Q) by (unfold ofNat, Qle; simpl; lia).
  assert (Hle : (ofNat s <= ofNat (s + f))%Q) by (unfold ofNat, Qle; simpl; lia).
  split.
  - apply Qle_shift_div_l; [done|]. lra.
  - apply Qle_shift_div_r; [done|]. lra.
Qed.

(** X4.  A source with a record has a score above 0 and at most 0.703,
    whatever the record holds; a source without a record has score 0 and
    so ranks below every source with one. *)
Theorem score_range (h : store) (id : string) (r : HealthRec)
    (Hr : h !! id = Some r) :
  (0 < getSourceScore h id <= 0.703)%Q ∧
  (∀ id', h !! id' = None → (getSourceScore h id' < getSourceScore h id)%Q).
Proof.
  assert (Hrange : (0 < getSourceScore h id <= 0.703)%Q).
  { unfold getSourceScore. rewrite Hr. unfold scoreOfRec.
    pose proof (Q.le_max_l 100 (avgLatencyMs r)) as Hm.
    set (m := Qmax 100 (avgLatencyMs r)) in *.
    assert (Hinv : (0 < / m)%Q) by (apply Qinv_lt_0_compat; lra).
    assert (Hinv2 : (/ m <= 1 # 100)%Q).
    { apply Qle_shift_inv_r; lra. }
    assert (Hd : (1 / m == / m)%Q) by (unfold Qdiv; apply Qmult_1_l).
    rewrite !Hd. clearbody m.
    destruct (0 <? successCount r + failureCount r)%nat eqn:E.
    - apply Nat.ltb_lt in E. pose proof (rate_bounds _ _ E) as [H0 H1].
      set (q := (ofNat (successCount r) / ofNat (successCount r + failureCount r))%Q) in *.
      clearbody q. split; lra.
    - split; lra. }
  split; [exact Hrange|].
  intros id' Hn. unfold getSourceScore at 1. rewrite Hn. apply Hrange.
Qed.

Lemma score_range_witness :
  (0 < getSourceScore Demo.h_slow "s" <= 0.703)%Q ∧
  (getSourceScore Demo.h_slow "t" < getSourceScore Demo.h_slow "s")%Q.
Proof.
  destruct (score_range Demo.h_slow "s" (mkRec (1000 * 0.7 + 1000 * 0.3) 1 0 1000 0%Z)
              eq_refl) as [H1 H2].
  split; [exact H1|]. apply H2. reflexivity.
Defined.

End RecordsFacts.

(** ** The concurrency plan *)

Section PlanFacts.
Import Health.

Lemma getNetworkFactor_values conn :
  getNetworkFactor conn = 0.4%Q ∨ getNetworkFactor conn = 0.7%Q ∨
  getNetworkFactor conn = 1%Q.
Proof.
  unfold getNetworkFactor. destruct conn as [ty|]; [|auto].
  repeat case_bool_decide; auto.
Qed.

Lemma specFailureRatio_nonneg h sel : (0 <= specFailureRatio h sel)%Q.
Proof.
  unfold specFailureRatio. destruct (0 <? _)%nat eqn:E; [|lra].
  apply Nat.ltb_lt in E. apply Qle_shift_div_l.
  - unfold ofNat, Qlt. simpl. lia.
  - unfold ofNat, Qle. simpl. lia.
Qed.

Lemma round_mono x y : (x <= y)%Q → (round x <= round y)%Z.
Proof. intros H. unfold round. apply Qfloor_resp_le. lra. Qed.

Lemma clamp_mono lo hi x y : (x <= y)%Z → (clamp lo hi x <= clamp lo hi y)%Z.
Proof. unfold clamp. lia. Qed.

(** X5.  For a base concurrency that is not negative, recorded failures
    lower the plan by at most the factor 0.6: the plan lies between the
    clamped round(0.6 * base * netFactor) and the clamped
    round(base * netFactor).  It never exceeds maxConcurrency, and it is
    at least minConcurrency when the two bounds are in order. *)
Theorem plan_window (cfg : Config) (conn : option string) (h : store)
    (sel : list string) (Hbase : (0 <= default 3 (baseConcurrency cfg))%Z) :
  let base := default 3%Z (baseConcurrency cfg) in
  let lo := default 1%Z (minConcurrency cfg) in
  let hi := default 6%Z (maxConcurrency cfg) in
  let net := getNetworkFactor conn in
  let plan := getAdaptiveConcurrency cfg conn h sel in
  (clamp lo hi (round (inject_Z base * net * 0.6)) <= plan
     <= clamp lo hi (round (inject_Z base * net)))%Z ∧
  (plan <= hi)%Z ∧ ((lo <= hi)%Z → (lo <= plan)%Z).
Proof.
  intros base lo hi net plan.
  assert (Hplan : plan = clamp lo hi
            (round (inject_Z base * net * Qmax 0.6 (1 - specFailureRatio h sel)))).
  { subst plan. unfold getAdaptiveConcurrency, clamp, specFailureRatio.
    rewrite tally_totals. reflexivity. }
  assert (Hnet : (0 < net)%Q).
  { subst net. destruct (getNetworkFactor_values conn) as [->|[->| ->]]; reflexivity. }
  assert (Hb : (0 <= inject_Z base)%Q) by (unfold Qle; simpl; lia).
  assert (Hbn : (0 <= inject_Z base * net)%Q) by (apply Qmult_le_0_compat; lra).
  pose proof (specFailureRatio_nonneg h sel) as Hfr.
  pose proof (Q.le_max_l 0.6 (1 - specFailureRatio h sel)) as Hhf1.
  assert (Hhf2 : (Qmax 0.6 (1 - specFailureRatio h sel) <= 1)%Q).
  { apply Q.max_lub; lra. }
  set (hf := Qmax 0.6 (1 - specFailureRatio h sel)) in *. clearbody hf.
  set (bn := (inject_Z base * net)%Q) in *. clearbody bn.
  split; [|rewrite Hplan; unfold clamp; lia].
  rewrite Hplan. split; apply clamp_mono, round_mono; nra.
Qed.

Lemma plan_window_witness :
  (1 <= getAdaptiveConcurrency Demo.cfg_default (Some "3g") Demo.h_slow ["s"] <= 2)%Z.
Proof.
  destruct (plan_window Demo.cfg_default (Some "3g") Demo.h_slow ["s"]) as ((H1 & H2) & _).
  - simpl. lia.
  - split; [exact H1|exact H2].
Defined.

(** X6.  Trouble never raises the plan: with a base concurrency that is
    not negative, a network factor that is not higher together with a
    failure ratio that is not lower gives a plan that is not higher.  In
    particular the plan on 2g is at most the plan on 3g, which is at most
    the plan on 4g, for the same sources and records. *)
Theorem plan_monotone (cfg : Config) (h : store) (sel : list string)
    (Hbase : (0 <= default 3 (baseConcurrency cfg))%Z) :
  (∀ conn1 conn2 h2 sel2,
     (getNetworkFactor conn1 <= getNetworkFactor conn2)%Q →
     (Records.failureRatio h2 sel2 <= Records.failureRatio h sel)%Q →
     (getAdaptiveConcurrency cfg conn1 h sel
        <= getAdaptiveConcurrency cfg conn2 h2 sel2)%Z) ∧
  (getAdaptiveConcurrency cfg (Some "2g") h sel
     <= getAdaptiveConcurrency cfg (Some "3g") h sel
     <= getAdaptiveConcurrency cfg (Some "4g") h sel)%Z.
Proof.
  assert (Hgen : ∀ conn1 conn2 h2 sel2,
     (getNetworkFactor conn1 <= getNetworkFactor conn2)%Q →
     (Records.failureRatio h2 sel2 <= Records.failureRatio h sel)%Q →
     (getAdaptiveConcurrency cfg conn1 h sel
        <= getAdaptiveConcurrency cfg conn2 h2 sel2)%Z).
  { intros conn1 conn2 h2 sel2 Hnet Hfail.
    change (clamp (default 1%Z (minConcurrency cfg)) (default 6%Z (maxConcurrency cfg))
              (round (inject_Z (default 3%Z (baseConcurrency cfg)) *
                      getNetworkFactor conn1 *
                      Qmax 0.6 (1 - Records.failureRatio h sel)))
            <= clamp (default 1%Z (minConcurrency cfg)) (default 6%Z (maxConcurrency cfg))
              (round (inject_Z (default 3%Z (baseConcurrency cfg)) *
                      getNetworkFactor conn2 *
                      Qmax 0.6 (1 - Records.failureRatio h2 sel2))))%Z.
    apply clamp_mono, round_mono.
    assert (Hn1 : (0 < getNetworkFactor conn1)%Q).
    { destruct (getNetworkFactor_values conn1) as [->|[->| ->]]; reflexivity. }
    assert (Hb : (0 <= inject_Z (default 3%Z (baseConcurrency cfg)))%Q)
      by (unfold Qle; simpl; lia).
    pose proof (Q.le_max_l 0.6 (1 - Records.failureRatio h sel)) as Hf1.
    assert (Hf : (Qmax 0.6 (1 - Records.failureRatio h sel)
                  <= Qmax 0.6 (1 - Records.failureRatio h2 sel2))%Q).
    { apply Q.max_le_compat_l. lra. }
    set (f1 := Qmax 0.6 (1 - Records.failureRatio h sel)) in *. clearbody f1.
    set (f2 := Qmax 0.6 (1 - Records.failureRatio h2 sel2)) in *. clearbody f2.
    set (n1 := getNetworkFactor conn1) in *. clearbody n1.
    set (n2 := getNetworkFactor conn2) in *. clearbody n2.
    set (b := inject_Z (default 3%Z (baseConcurrency cfg))) in *. clearbody b.
    assert (H1 : (b * n1 <= b * n2)%Q) by nra.
    assert (H2 : (0 <= b * n1)%Q) by nra.
    nra. }
  split; [exact Hgen|]. split; apply Hgen; try lra; reflexivity || (unfold Qle; simpl; lia).
Qed.

Lemma plan_monotone_witness :
  (getAdaptiveConcurrency Demo.cfg_default (Some "2g") Demo.h_slow ["s"]
     <= getAdaptiveConcurrency Demo.cfg_default (Some "3g") Demo.h_slow ["s"]
     <= getAdaptiveConcurrency Demo.cfg_default (Some "4g") Demo.h_slow ["s"])%Z.
Proof.
  refine (proj2 (plan_monotone Demo.cfg_default Demo.h_slow ["s"] _)).
  simpl. lia.
Defined.

(** *** The plan and the selection *)

Lemma tally_comm h acc x y :
  tally h (tally h acc x) y = tally h (tally h acc y) x.
Proof.
  unfold tally. destruct (h !! x) as [rx|], (h !! y) as [ry|]; simpl; try done.
  f_equal; lia.
Qed.

Lemma tally_perm h sel1 sel2 :
  sel1 ≡ₚ sel2 → ∀ acc, fold_left (tally h) sel1 acc = fold_left (tally h) sel2 acc.
Proof.
  induction 1 as [|x l1 l2 Hp IH|x y l|l1 l2 l3 Hp1 IH1 Hp2 IH2]; intros acc; simpl.
  - done.
  - apply IH.
  - by rewrite tally_comm.
  - by rewrite IH1, IH2.
Qed.

Lemma tally_known h sel : ∀ acc,
  fold_left (tally h) (List.filter (Dispatch.known h) sel) acc =
  fold_left (tally h) sel acc.
Proof.
  induction sel as [|id rest IH]; intros acc; simpl; [done|].
  unfold Dispatch.known at 1. destruct (h !! id) as [r|] eqn:Hr.
  - rewrite bool_decide_true by by eexists. simpl. apply IH.
  - rewrite bool_decide_false by (by intros [? ?]).
    rewrite IH. unfold tally at 3. by rewrite Hr.
Qed.

(** X7.  The plan depends on the selection only through the records of
    the selected sources: selecting the same sources in another order
    gives the same plan, and so does leaving out the sources that have no
    record. *)
Theorem plan_selection (cfg : Config) (conn : option string) (h : store)
    (sel : list string) :
  (∀ sel', sel ≡ₚ sel' →
           getAdaptiveConcurrency cfg conn h sel' = getAdaptiveConcurrency cfg conn h sel) ∧
  getAdaptiveConcurrency cfg conn h (List.filter (Dispatch.known h) sel)
    = getAdaptiveConcurrency cfg conn h sel.
Proof.
  split.
  - intros sel' Hp. unfold getAdaptiveConcurrency.
    by rewrite (tally_perm h sel sel' Hp).
  - unfold getAdaptiveConcurrency. by rewrite tally_known.
Qed.

End PlanFacts.

(** ** The order of dispatch *)

Section SortFacts.
Import Health Session Dispatch.

Lemma insertBy_perm {A} (cmp : A → A → Q) x l : insertBy cmp x l ≡ₚ x :: l.
Proof.
  induction l as [|y l IH]; simpl; [done|].
  destruct (Qle_bool (cmp x y) 0); [done|].
  rewrite IH. apply Permutation_swap.
Qed.

Lemma sortBy_perm {A} (cmp : A → A → Q) l : sortBy cmp l ≡ₚ l.
Proof.
  induction l as [|x l IH]; simpl; [done|].
  unfold sortBy in *. rewrite insertBy_perm. by rewrite IH.
Qed.

Variable h : store.

Lemma insertBy_sorted x l :
  StronglySorted (scoreOrder h) l →
  StronglySorted (scoreOrder h)
    (insertBy (fun a b => (getSourceScore h b - getSourceScore h a)%Q) x l).
Proof.
  intros Hs. induction Hs as [|y l Hs IH Hy]; simpl.
  - by repeat constructor.
  - destruct (Qle_bool _ 0) eqn:E.
    + apply Qle_bool_iff in E.
      constructor; [by constructor|].
      assert (Hxy : scoreOrder h x y) by (unfold scoreOrder; lra).
      constructor; [done|].
      eapply Forall_impl; [exact Hy|]. unfold scoreOrder in *. intros z Hz. lra.
    + assert (Hyx : scoreOrder h y x).
      { unfold scoreOrder. destruct (Qlt_le_dec 0 (getSourceScore h y - getSourceScore h x))
          as [Hlt|Hle]; [lra|]. apply Qle_bool_iff in Hle. congruence. }
      constructor; [done|].
      apply Forall_forall. intros z Hz.
      rewrite insertBy_perm in Hz.
      apply elem_of_cons in Hz as [->|Hz]; [done|].
      rewrite Forall_forall in Hy. by apply Hy.
Qed.

(** X8.  The dispatch order is the selection, reordered: no source is
    dropped or added, and no source comes before one with a higher score. *)
Theorem orderedAPIs_sorted (sel : list string) :
  orderedAPIs h sel ≡ₚ sel ∧ StronglySorted (scoreOrder h) (orderedAPIs h sel).
Proof.
  split; [apply sortBy_perm|].
  unfold orderedAPIs, sortBy. induction sel as [|x l IH]; simpl.
  - constructor.
  - by apply insertBy_sorted.
Qed.

Lemma insertBy_withScore k x l :
  withScore h k (insertBy (fun a b => (getSourceScore h b - getSourceScore h a)%Q) x l)
  = withScore h k (x :: l).
Proof.
  unfold withScore. induction l as [|y l IH]; [done|].
  cbn [insertBy]. destruct (Qle_bool _ 0) eqn:E; [done|].
  cbn [List.filter] in *. rewrite IH.
  destruct (Qeq_bool (getSourceScore h x) k) eqn:Ex; [|done].
  destruct (Qeq_bool (getSourceScore h y) k) eqn:Ey; [|done].
  apply Qeq_bool_iff in Ex, Ey.
  assert (Hle : (getSourceScore h y - getSourceScore h x <= 0)%Q) by lra.
  apply Qle_bool_iff in Hle. congruence.
Qed.

(** X9.  The sort is stable: sources with the same score are dispatched in
    the order in which they were selected.  In particular the sources
    without a record, whose score is 0, keep their order. *)
Theorem orderedAPIs_stable (k : Q) (sel : list string) :
  withScore h k (orderedAPIs h sel) = withScore h k sel.
Proof.
  unfold orderedAPIs, sortBy. induction sel as [|x l IH]; [done|].
  cbn [foldr]. rewrite insertBy_withScore.
  unfold withScore in *. cbn [List.filter]. by rewrite IH.
Qed.

(** *** Sources without a record *)

Lemma scoreOfRec_pos (r : HealthRec) : (0 < scoreOfRec r)%Q.
Proof.
  unfold scoreOfRec.
  pose proof (Q.le_max_l 100 (avgLatencyMs r)) as Hm.
  set (m := Qmax 100 (avgLatencyMs r)) in *.
  assert (Hinv : (0 < / m)%Q) by (apply Qinv_lt_0_compat; lra).
  assert (Hd : (1 / m == / m)%Q) by (unfold Qdiv; apply Qmult_1_l).
  rewrite !Hd. clearbody m.
  destruct (0 <? successCount r + failureCount r)%nat eqn:E.
  - apply Nat.ltb_lt in E. pose proof (rate_bounds _ _ E) as [H0 H1].
    set (q := (ofNat (successCount r) / ofNat (successCount r + failureCount r))%Q) in *.
    clearbody q. lra.
  - lra.
Qed.

Lemma known_score id :
  Qeq_bool (getSourceScore h id) 0 = negb (known h id).
Proof.
  unfold getSourceScore, known. destruct (h !! id) as [r|] eqn:Hr.
  - rewrite bool_decide_true by by eexists. simpl.
    apply not_true_is_false. intros Heq. apply Qeq_bool_iff in Heq.
    pose proof (scoreOfRec_pos r). lra.
  - rewrite bool_decide_false by (by intros [? ?]). reflexivity.
Qed.

Lemma filter_all {A} (f : A → bool) (l : list A) :
  (∀ x, x ∈ l → f x = false) →
  List.filter f l = [] ∧ List.filter (fun x => negb (f x)) l = l.
Proof.
  induction l as [|x l IH]; intros Hall; [done|]. simpl.
  rewrite (Hall x) by apply list_elem_of_here. simpl.
  destruct IH as [-> ->]; [|done]. intros y Hy. apply Hall. by apply elem_of_cons; right.
Qed.

Lemma sorted_known_first (l : list string) :
  StronglySorted (scoreOrder h) l →
  l = List.filter (known h) l ++ List.filter (fun id => negb (known h id)) l.
Proof.
  intros Hs. induction Hs as [|y l Hs IH Hy]; [done|]. simpl.
  destruct (known h y) eqn:Hk; simpl.
  - by rewrite <- IH.
  - destruct (filter_all (known h) l) as [-> ->]; [|done].
    intros z Hz. rewrite Forall_forall in Hy. specialize (Hy z Hz).
    unfold scoreOrder in Hy.
    pose proof (known_score y) as Ky. rewrite Hk in Ky. apply Qeq_bool_iff in Ky.
    destruct (known h z) eqn:Hkz; [|done]. exfalso.
    unfold known in Hkz. apply bool_decide_eq_true in Hkz as [r Hr].
    unfold getSourceScore in Hy at 1. rewrite Hr in Hy.
    pose proof (scoreOfRec_pos r). lra.
Qed.

Lemma sortBy_scores_sorted (sel : list string) :
  StronglySorted (scoreOrder h) (orderedAPIs h sel).
Proof.
  unfold orderedAPIs, sortBy. induction sel as [|x l IH]; simpl.
  - constructor.
  - by apply insertBy_sorted.
Qed.

Lemma sortBy_withScore (k : Q) (sel : list string) :
  withScore h k (orderedAPIs h sel) = withScore h k sel.
Proof.
  unfold orderedAPIs, sortBy. induction sel as [|x l IH]; [done|].
  cbn [foldr]. rewrite insertBy_withScore.
  unfold withScore in *. cbn [List.filter]. by rewrite IH.
Qed.

(** X10.  Sources that have no health record are dispatched last, in the
    order in which they were selected, after all the sources that have
    one. *)
Theorem unknown_sources_last (sel : list string) :
  orderedAPIs h sel =
    List.filter (known h) (orderedAPIs h sel) ++
    List.filter (fun id => negb (known h id)) sel.
Proof.
  rewrite (sorted_known_first (orderedAPIs h sel)) at 1
    by apply sortBy_scores_sorted.
  f_equal.
  pose proof (sortBy_withScore 0 sel) as Hw. unfold withScore in Hw.
  rewrite <- (List.filter_ext _ _ known_score (orderedAPIs h sel)).
  rewrite <- (List.filter_ext _ _ known_score sel). exact Hw.
Qed.

End SortFacts.

(** ** The tasks of a session *)

Section TaskFacts.
Import Health Session Dispatch.
Variable env : Env.
Variable parseInt : string → option nat.
Variable cfg : Config.
Variable customAPIs : list CustomApi.

Abbreviation finish := (finish cfg).
Abbreviation startTask := (startTask env parseInt cfg customAPIs).
Abbreviation step := (step env parseInt cfg customAPIs).
Abbreviation run := (run env parseInt cfg customAPIs).
Abbreviation submit := (submit env parseInt cfg customAPIs).
Abbreviation aggregatedSearch := (aggregatedSearch env parseInt cfg customAPIs).

Lemma taskIds_set_status i st w : taskIds (set_status i st w) = taskIds w.
Proof.
  unfold taskIds, set_status. simpl. generalize (tasks w). intros l.
  revert i. induction l as [|t l IH]; intros [|i]; simpl; try done.
  f_equal. apply IH.
Qed.

Lemma taskIds_tasks w w' : tasks w' = tasks w → taskIds w' = taskIds w.
Proof. unfold taskIds. by intros ->. Qed.

Lemma taskIds_finish i apiId results cb w :
  taskIds (finish i apiId results cb w) = taskIds w.
Proof.
  rewrite (taskIds_tasks _ _ (finish_tasks cfg i apiId results cb w)).
  apply taskIds_set_status.
Qed.

Lemma taskIds_startTask i w : taskIds (startTask i w) = taskIds w.
Proof.
  destruct (statusAt w i) as [st|] eqn:Hst.
  - destruct (startTask_tasks env parseInt cfg customAPIs i w st Hst) as (st' & _ & Ht).
    rewrite (taskIds_tasks _ _ Ht). apply taskIds_set_status.
  - unfold Session.startTask. unfold statusAt in Hst.
    by destruct (tasks w !! i).
Qed.

Lemma taskIds_tryRun limit q r w :
  taskIds (Limiter.tryRun limit startTask q r w).2 = taskIds w.
Proof.
  apply (tryRun_preserves (fun w' => taskIds w' = taskIds w)); [|done].
  intros t w' Hw'. by rewrite taskIds_startTask.
Qed.

Lemma taskIds_step s s' ev :
  step s ev = Some s' → taskIds (world s') = taskIds (world s).
Proof.
  intros Hstep. destruct ev as [i results cb|i|]; simpl in Hstep.
  - destruct (tasks (world s) !! i) as [[apiId [|c| |]]|]; try done.
    inversion Hstep; subst s'; simpl. apply taskIds_finish.
  - destruct (tasks (world s) !! i) as [[apiId [|c| |]]|]; try done.
    inversion Hstep; subst s'; simpl.
    rewrite taskIds_tryRun. apply taskIds_set_status.
  - destruct (signal (world s)) as [[]|]; try done.
    inversion Hstep; subst s'; simpl.
    apply taskIds_tasks. by destruct (fireAbort_frame (world s)) as (-> & _).
Qed.

Lemma taskIds_run evs : ∀ s s',
  run s evs = Some s' → taskIds (world s') = taskIds (world s).
Proof.
  induction evs as [|ev rest IH]; intros s s' Hrun; simpl in Hrun.
  - by inversion Hrun.
  - destruct (step s ev) as [s1|] eqn:Hs; [|done].
    rewrite (IH s1 s' Hrun). by eapply taskIds_step.
Qed.

Lemma taskIds_submit l : ∀ s,
  taskIds (world (foldl submit s l)) = taskIds (world s).
Proof.
  induction l as [|i rest IH]; intros s; simpl; [done|].
  rewrite IH. unfold Session.submit. simpl. apply taskIds_tryRun.
Qed.

Lemma taskIds_reached (h : store) (conn : option string) (sel : list string)
    (sg : option bool) (evs : list Event) (s : State) :
  run (aggregatedSearch h conn sel sg) evs = Some s →
  taskIds (world s) =
    if bool_decide (sg = Some true) then [] else orderedAPIs h sel.
Proof.
  intros Hrun.
  rewrite (taskIds_run evs _ s Hrun). unfold Session.aggregatedSearch.
  destruct sel as [|id rest].
  { by case_bool_decide. }
  case_bool_decide; [done|].
  rewrite taskIds_submit. unfold taskIds. simpl.
  rewrite <- list_fmap_compose. unfold orderedAPIs.
  apply list_fmap_id.
Qed.

(** X11.  Throughout a session the tasks are the selected sources in
    dispatch order, one task per selected source: nothing that happens
    adds, drops or reorders a task.  A call with a signal that is already
    aborted has no task at all. *)
Theorem tasks_follow_order (h : store) (conn : option string) (sel : list string)
    (sg : option bool) (evs : list Event) (s : State)
    (Hrun : run (aggregatedSearch h conn sel sg) evs = Some s) :
  taskIds (world s) =
    (if bool_decide (sg = Some true) then [] else orderedAPIs h sel) ∧
  (sg ≠ Some true →
   taskIds (world s) ≡ₚ sel ∧ length (tasks (world s)) = length sel).
Proof.
  pose proof (taskIds_reached h conn sel sg evs s Hrun) as Hids.
  split; [done|]. intros Hsg.
  rewrite bool_decide_false in Hids by done.
  assert (Hp : taskIds (world s) ≡ₚ sel).
  { rewrite Hids. apply sortBy_perm. }
  split; [done|].
  rewrite <- (length_fmap fst). fold (taskIds (world s)).
  by rewrite Hp.
Qed.

End TaskFacts.

Lemma tasks_follow_order_witness :
  Dispatch.taskIds (Session.world Demo.after_two) = Dispatch.orderedAPIs ∅ Demo.five.
Proof.
  refine (proj1 (tasks_follow_order Demo.env Demo.noInt Demo.cfg_top2 [] ∅ None Demo.five
           (Some false)
           [Session.Return 0 [Demo.item "s1" "1"] Session.quiet; Session.Release 0;
            Session.Return 1 [Demo.item "s2" "1"] Session.quiet] Demo.after_two _)).
  vm_compute. reflexivity.
Defined.


(** ** The limiter inside a session *)

Section GateFacts.
Import Health Session Dispatch.
Variable env : Env.
Variable parseInt : string → option nat.
Variable cfg : Config.
Variable customAPIs : list CustomApi.

Abbreviation finish := (finish cfg).
Abbreviation startTask := (startTask env parseInt cfg customAPIs).
Abbreviation step := (step env parseInt cfg customAPIs).
Abbreviation run := (run env parseInt cfg customAPIs).
Abbreviation submit := (submit env parseInt cfg customAPIs).
Abbreviation aggregatedSearch := (aggregatedSearch env parseInt cfg customAPIs).

(** A finishing task adds no search. *)
Lemma finish_searches i apiId results cb w :
  searches (log (finish i apiId results cb w)) = searches (log w).
Proof.
  apply finish_cases.
  - intros _. by destruct (settle_quiet i (set_map (delete apiId (perSourceControllers w)) w))
      as (_ & -> & _).
  - intros _ _.
    match goal with |- context [settle i ?w'] =>
      by destruct (settle_quiet i w') as (_ & -> & _) end.
  - intros e _ _ _.
    match goal with |- context [settleRejected i e ?w'] =>
      destruct (settleRejected_frame i e w') as (_ & _ & _ & -> & _) end.
    match goal with |- context [deliver cb ?items ?w'] =>
      destruct (deliver_frame cb items w') as (_ & -> & _) end.
    unfold searches. rewrite omap_app. simpl. by rewrite app_nil_r.
  - intros _ _ _.
    match goal with |- context [settle i ?w'] =>
      destruct (settle_quiet i w') as (_ & -> & _) end.
    match goal with |- context [earlyAbort cfg ?w'] =>
      destruct (earlyAbort_frame cfg w') as (_ & _ & _ & -> & _) end.
    match goal with |- context [deliver cb ?items ?w'] =>
      destruct (deliver_frame cb items w') as (_ & -> & _) end.
    unfold searches. rewrite omap_app. simpl. by rewrite app_nil_r.
Qed.

(** A task that is started is then awaiting its search or has settled
    already; at most its own search is added. *)
Lemma startTask_started i apiId st0 w :
  tasks w !! i = Some (apiId, st0) →
  ∃ st, isCounted st = true ∧
        tasks (startTask i w) = tasks (set_status i st w) ∧
        (searches (log (startTask i w)) = searches (log w) ∨
         searches (log (startTask i w)) = searches (log w) ++ [apiId]).
Proof.
  intros Hi. unfold Session.startTask. rewrite Hi.
  destruct (aborted w).
  { exists Draining. split; [done|].
    destruct (settle_frame i w) as (_ & _ & _ & ->).
    destruct (settle_quiet i w) as (_ & -> & _). auto. }
  destruct (register_frame apiId w) as (_ & _ & _ & R4 & R5 & _).
  destruct (backend env parseInt customAPIs apiId) as [source|].
  - exists (Fetching (length (controllers w))). split; [done|].
    simpl. rewrite R5, R4. split; [done|right].
    unfold searches. rewrite omap_app. done.
  - exists Draining. split; [done|]. rewrite finish_tasks, finish_searches.
    unfold set_status. simpl. rewrite R5, R4. auto.
Qed.

(** *** Changing the state of one task *)

Lemma counted_alter (f : Status → bool) (l : list (string * Status)) i t st :
  l !! i = Some t →
  (length (List.filter (fun t => f t.2) (alter (fun t => (t.1, st)) i l))
     + (if f t.2 then 1 else 0) =
   length (List.filter (fun t => f t.2) l) + (if f st then 1 else 0))%nat.
Proof.
  unfold alter. revert i. induction l as [|x l IH]; intros [|i] Hi; simpl in *; try done.
  - inversion Hi; subst x. destruct (f t.2), (f st); simpl; lia.
  - specialize (IH i Hi). destruct (f x.2); simpl; lia.
Qed.

Lemma work_alter (l : list (string * Status)) i t st :
  l !! i = Some t →
  (sum_list ((fun t => weight t.2) <$> alter (fun t => (t.1, st)) i l) + weight t.2 =
   sum_list ((fun t => weight t.2) <$> l) + weight st)%nat.
Proof.
  unfold alter. revert i. induction l as [|x l IH]; intros [|i] Hi; simpl in *; try done.
  - inversion Hi; subst x. lia.
  - specialize (IH i Hi). unfold fmap in IH. lia.
Qed.

Lemma retag i apiId st0 st w w' :
  tasks w !! i = Some (apiId, st0) →
  tasks w' = tasks (set_status i st w) →
  length (tasks w') = length (tasks w) ∧
  taskIds w' = taskIds w ∧
  (∀ j, statusAt w' j = if decide (i = j) then Some st else statusAt w j) ∧
  (length (counted w') + (if isCounted st0 then 1 else 0) =
   length (counted w) + (if isCounted st then 1 else 0))%nat ∧
  (length (fetching w') + (if isFetching st0 then 1 else 0) =
   length (fetching w) + (if isFetching st then 1 else 0))%nat ∧
  (work w' + weight st0 = work w + weight st)%nat.
Proof.
  intros Hi Ht. repeat apply conj.
  - rewrite Ht. unfold set_status. simpl. apply length_alter.
  - rewrite (taskIds_tasks _ _ Ht). apply taskIds_set_status.
  - intros j. unfold statusAt at 1. rewrite Ht.
    pose proof (statusAt_set_status w i j st) as H. unfold statusAt in H at 1.
    rewrite H. destruct (decide (i = j)) as [<-|]; [|done].
    unfold statusAt. by rewrite Hi.
  - unfold counted. rewrite Ht. unfold set_status. simpl.
    apply (counted_alter isCounted _ i (apiId, st0) st Hi).
  - unfold fetching. rewrite Ht. unfold set_status. simpl.
    apply (counted_alter isFetching _ i (apiId, st0) st Hi).
  - unfold work. rewrite Ht. unfold set_status. simpl.
    apply (work_alter _ i (apiId, st0) st Hi).
Qed.

(** *** Starting the queued tasks *)

Lemma Slots_start limit j k r w :
  Slots limit j k r w → (k < j)%nat → (Z.of_nat r < limit)%Z →
  Slots limit j (S k) (S r) (startTask k w) ∧ (work (startTask k w) <= work w)%nat.
Proof.
  intros [Hk Hst Hse Hr Hl Hp] Hkj Hlt.
  destruct (lookup_lt_is_Some_2 (tasks w) k) as [[apiId st0] Hi]; [lia|].
  assert (Hq : st0 = Queued).
  { apply (Hst k); [|done]. unfold statusAt. by rewrite Hi. }
  subst st0.
  destruct (startTask_started k apiId Queued w Hi) as (st & Hc & Ht & Hlog).
  destruct (retag k apiId Queued st w _ Hi Ht) as (R1 & R2 & R3 & R4 & _ & R6).
  split; [split|].
  - lia.
  - intros i st' Hi'. rewrite R3 in Hi'. destruct (decide (k = i)) as [<-|Hne].
    + inversion Hi'; subst st'. split; [|lia]. intros ->. done.
    + rewrite (Hst i st' Hi'). lia.
  - rewrite R2.
    assert (Hid : taskIds w !! k = Some apiId).
    { unfold taskIds. rewrite list_lookup_fmap, Hi. done. }
    rewrite (take_S_r _ _ _ Hid).
    destruct Hlog as [->| ->].
    + by apply sublist_inserts_r.
    + by apply sublist_app.
  - simpl in R4. rewrite Hc in R4. lia.
  - lia.
  - lia.
  - simpl in R6. destruct st; simpl in *; try done; lia.
Qed.

Lemma tryRun_slots limit j m : ∀ k r w,
  (k + m = j)%nat → Slots limit j k r w →
  let res := Limiter.tryRun limit startTask (seq k m) r w in
  ∃ k', res.1.2 = seq k' (j - k') ∧ Slots limit j k' res.1.1 res.2 ∧
        ((k' < j)%nat → (limit <= Z.of_nat res.1.1)%Z) ∧
        (work res.2 <= work w)%nat.
Proof.
  induction m as [|m IH]; intros k r w Hkm Hs; simpl.
  - exists k. replace (j - k)%nat with 0%nat by lia. repeat apply conj; try done. lia.
  - destruct (Z.of_nat r <? limit)%Z eqn:Hlt.
    + apply Z.ltb_lt in Hlt.
      destruct (Slots_start limit j k r w Hs) as [Hs' Hw]; [lia|done|].
      destruct (IH (S k) (S r) (startTask k w)) as (k' & Hq & Hs2 & Hf & Hw2); [lia|done|].
      exists k'. repeat apply conj; try done. lia.
    + apply Z.ltb_ge in Hlt. exists k.
      replace (j - k)%nat with (S m) by lia. simpl.
      repeat apply conj; try done.
Qed.

Lemma Slots_same limit j k r w w' :
  tasks w' = tasks w → log w' = log w → Slots limit j k r w → Slots limit j k r w'.
Proof.
  intros Ht Hl [Hk Hst Hse Hr Hlim Hp].
  split; unfold statusAt, taskIds, counted; rewrite ?Ht, ?Hl; done.
Qed.

(** *** What an event does to the limiter *)

Lemma Gate_step s s' ev :
  Gate s → step s ev = Some s' →
  Gate s' ∧ limit s' = limit s ∧
  (work (world s') + (if isAbort ev then 0 else 1) <= work (world s))%nat.
Proof.
  intros (k & Hq & Hs & Hf) Hstep. unfold Gate, GateAt.
  pose proof Hs as [Hk Hst Hse Hr Hlim Hp].
  destruct ev as [i results cb|i|]; simpl in Hstep.
  - destruct (tasks (world s) !! i) as [[apiId [|c| |]]|] eqn:Hi; try done.
    inversion Hstep; subst s'; simpl.
    destruct (retag i apiId (Fetching c) Draining (world s) _ Hi
                (finish_tasks cfg i apiId results cb (world s)))
      as (R1 & R2 & R3 & R4 & _ & R6).
    assert (Hik : (i < k)%nat).
    { destruct (decide (k <= i)%nat) as [Hle|]; [|lia].
      assert (Fetching c = Queued); [|done].
      apply (Hst i); [|done]. unfold statusAt. by rewrite Hi. }
    split; [|split; [done|simpl in R6; lia]].
    rewrite R1. exists k. split; [done|]. split; [|done]. split.
    + lia.
    + intros j st Hj. rewrite R3 in Hj. destruct (decide (i = j)) as [<-|].
      * inversion Hj; subst st. split; [done|lia].
      * by apply Hst.
    + by rewrite finish_searches, R2.
    + simpl in R4. lia.
    + done.
    + done.
  - destruct (tasks (world s) !! i) as [[apiId [|c| |]]|] eqn:Hi; try done.
    inversion Hstep; subst s'; simpl.
    destruct (retag i apiId Draining Released (world s) (set_status i Released (world s))
                Hi eq_refl) as (R1 & R2 & R3 & R4 & _ & R6).
    simpl in R4, R6.
    assert (Hik : (i < k)%nat).
    { destruct (decide (k <= i)%nat) as [Hle|]; [|lia].
      assert (Draining = Queued); [|done].
      apply (Hst i); [|done]. unfold statusAt. by rewrite Hi. }
    assert (Hs1 : Slots (limit s) (length (tasks (world s))) k (running s - 1)
                    (set_status i Released (world s))).
    { split.
      - lia.
      - intros j st Hj. rewrite R3 in Hj. destruct (decide (i = j)) as [<-|].
        + inversion Hj; subst st. split; [done|lia].
        + by apply Hst.
      - unfold set_status at 1. simpl. by rewrite R2.
      - lia.
      - lia.
      - done. }
    rewrite tryRun_length, R1, Hq.
    destruct (tryRun_slots (limit s) (length (tasks (world s)))
                (length (tasks (world s)) - k) k (running s - 1)
                (set_status i Released (world s)))
      as (k' & Hq' & Hs' & Hf' & Hw'); [lia|done|].
    split; [|split; [done|lia]].
    exists k'. done.
  - destruct (signal (world s)) as [[]|]; try done.
    inversion Hstep; subst s'; simpl.
    destruct (fireAbort_frame (world s)) as (F1 & _).
    destruct (fireAbort_quiet (world s)) as (_ & F2 & _).
    split; [|split; [done|unfold work; rewrite F1; lia]].
    rewrite F1. exists k. split; [done|]. split; [|done].
    by apply (Slots_same _ _ _ _ (world s)).
Qed.

Lemma Gate_run evs : ∀ s s',
  Gate s → run s evs = Some s' →
  Gate s' ∧ limit s' = limit s ∧
  (length (moves evs) + work (world s') <= work (world s))%nat.
Proof.
  induction evs as [|ev rest IH]; intros s s' Hg Hrun; simpl in Hrun.
  - inversion Hrun; subst s'. simpl. done.
  - destruct (step s ev) as [s1|] eqn:Hs; [|done].
    destruct (Gate_step s s1 ev Hg Hs) as (Hg1 & Hl1 & Hw1).
    destruct (IH s1 s' Hg1 Hrun) as (Hg2 & Hl2 & Hw2).
    split; [done|]. split; [congruence|].
    unfold moves in *. simpl. destruct (isAbort ev); simpl; lia.
Qed.

(** *** The call itself *)

Lemma GateAt_submit j s :
  GateAt j s → (j < length (tasks (world s)))%nat →
  GateAt (S j) (submit s j) ∧
  length (tasks (world (submit s j))) = length (tasks (world s)) ∧
  limit (submit s j) = limit s ∧
  (work (world (submit s j)) <= work (world s))%nat.
Proof.
  intros (k & Hq & Hs & Hf) Hj. unfold Session.submit. simpl.
  pose proof Hs as [Hk Hst Hse Hr Hlim Hp].
  assert (Hq1 : queue s ++ [j] = seq k (S j - k)).
  { rewrite Hq. replace (S j - k)%nat with (S (j - k)) by lia.
    rewrite seq_S. do 2 f_equal. lia. }
  rewrite Hq1.
  destruct (tryRun_slots (limit s) (S j) (S j - k) k (running s) (world s))
    as (k' & Hq' & Hs' & Hf' & Hw'); [lia| |].
  { split; try done. lia. }
  rewrite tryRun_length. split; [|done].
  exists k'. done.
Qed.

Lemma GateAt_foldl m : ∀ j s,
  GateAt j s → (j + m <= length (tasks (world s)))%nat →
  let s' := foldl submit s (seq j m) in
  GateAt (j + m) s' ∧ length (tasks (world s')) = length (tasks (world s)) ∧
  limit s' = limit s ∧ (work (world s') <= work (world s))%nat.
Proof.
  induction m as [|m IH]; intros j s Hg Hle; simpl.
  - rewrite Nat.add_0_r. done.
  - destruct (GateAt_submit j s Hg) as (G1 & G2 & G3 & G4); [lia|].
    destruct (IH (S j) (submit s j) G1) as (H1 & H2 & H3 & H4); [lia|].
    replace (j + S m)%nat with (S j + m)%nat by lia.
    split; [done|]. split; [congruence|]. split; [congruence|lia].
Qed.

Lemma work_queued (l : list string) :
  sum_list ((fun t : string * Status => weight t.2) <$> ((fun id => (id, Queued)) <$> l))
    = (2 * length l)%nat.
Proof. induction l as [|x l IH]; simpl in *; [done|]. unfold fmap in IH. lia. Qed.

Lemma counted_queued (l : list string) :
  List.filter (fun t : string * Status => isCounted t.2) ((fun id => (id, Queued)) <$> l) = [].
Proof. induction l as [|x l IH]; simpl; done. Qed.

Lemma Gate_aggregatedSearch h conn sel sg :
  let s := aggregatedSearch h conn sel sg in
  Gate s ∧ (work (world s) <= 2 * length sel)%nat ∧
  (limit s = getAdaptiveConcurrency cfg conn h sel ∨ tasks (world s) = []).
Proof.
  assert (Hidle : ∀ r, Gate (idle sg r)).
  { intros r. exists 0%nat. simpl. split; [done|]. split; [|lia].
    split; simpl; try done; try lia. }
  unfold Session.aggregatedSearch. destruct sel as [|id rest].
  { simpl. split; [apply Hidle|]. split; [unfold work; simpl; lia|by right]. }
  case_bool_decide.
  { split; [apply Hidle|]. split; [unfold work; simpl; lia|by right]. }
  set (ordered := sortBy _ _).
  match goal with |- context [foldl _ ?s0 _] => set (s0' := s0) end.
  assert (Hlen : length (tasks (world s0')) = length ordered).
  { simpl. by rewrite length_fmap. }
  assert (Hg0 : GateAt 0 s0').
  { exists 0%nat. simpl. split; [done|]. split; [|lia]. split; simpl.
    - lia.
    - intros i st Hi. unfold statusAt in Hi. simpl in Hi.
      rewrite list_lookup_fmap in Hi. destruct (ordered !! i); [|done].
      simpl in Hi. inversion Hi. split; [lia|done].
    - done.
    - unfold counted. simpl. by rewrite counted_queued.
    - lia.
    - lia. }
  destruct (GateAt_foldl (length ordered) 0 s0' Hg0) as (G1 & G2 & G3 & G4); [lia|].
  simpl in G1. split; [|split].
  - unfold Gate. by rewrite G2, Hlen.
  - etrans; [exact G4|]. unfold work. simpl. rewrite work_queued.
    unfold ordered. rewrite sortBy_length. done.
  - left. by rewrite G3.
Qed.

Lemma Gate_reached h conn sel sg evs s :
  run (aggregatedSearch h conn sel sg) evs = Some s →
  Gate s ∧ (length (moves evs) + work (world s) <= 2 * length sel)%nat ∧
  (limit s = getAdaptiveConcurrency cfg conn h sel ∨ tasks (world s) = []).
Proof.
  intros Hrun.
  destruct (Gate_aggregatedSearch h conn sel sg) as (G1 & G2 & G3).
  destruct (Gate_run evs _ s G1 Hrun) as (H1 & H2 & H3).
  split; [done|]. split; [lia|].
  destruct G3 as [G3|G3]; [left; congruence|right].
  apply (fmap_nil_inv fst). change (taskIds (world s) = []).
  rewrite (taskIds_run env parseInt cfg customAPIs evs _ s Hrun).
  unfold taskIds. by rewrite G3.
Qed.

(** *** The signal *)

Lemma finish_signal i apiId results cb w :
  signal (finish i apiId results cb w) = signal w ∨
  (signal w = Some false ∧ signal (finish i apiId results cb w) = Some true).
Proof.
  apply finish_cases.
  - intros _. left.
    match goal with |- context [settle i ?w'] =>
      by destruct (settle_quiet i w') as (_ & _ & -> & _) end.
  - intros _ _. left.
    match goal with |- context [settle i ?w'] =>
      by destruct (settle_quiet i w') as (_ & _ & -> & _) end.
  - intros e _ _ _.
    match goal with |- context [settleRejected i e ?w'] =>
      destruct (settleRejected_frame i e w') as (_ & -> & _) end.
    match goal with |- context [deliver cb ?items ?w'] =>
      destruct (deliver_signal cb items w') as [(-> & _)|(Hs & _ & ->)] end;
      [by left|right].
    split; [done|]. by destruct (fireAbort_quiet
      (set_log (log (set_seen (filterNew (seen w) results).2
                       (set_map (delete apiId (perSourceControllers w)) w))
                  ++ [ObsCallback (filterNew (seen w) results).1])
         (set_reached (reachedTopK (set_seen (filterNew (seen w) results).2
                         (set_map (delete apiId (perSourceControllers w)) w)) + 1)
            (set_seen (filterNew (seen w) results).2
               (set_map (delete apiId (perSourceControllers w)) w))))) as (_ & _ & -> & _).
  - intros _ _ _.
    match goal with |- context [settle i ?w'] =>
      destruct (settle_quiet i w') as (_ & _ & -> & _) end.
    match goal with |- context [earlyAbort cfg ?w'] =>
      destruct (earlyAbort_frame cfg w') as (_ & -> & _) end.
    match goal with |- context [deliver cb ?items ?w'] =>
      destruct (deliver_signal cb items w') as [(-> & _)|(Hs & _ & ->)] end;
      [by left|right].
    split; [done|]. by destruct (fireAbort_quiet
      (set_log (log (set_seen (filterNew (seen w) results).2
                       (set_map (delete apiId (perSourceControllers w)) w))
                  ++ [ObsCallback (filterNew (seen w) results).1])
         (set_reached (reachedTopK (set_seen (filterNew (seen w) results).2
                         (set_map (delete apiId (perSourceControllers w)) w)) + 1)
            (set_seen (filterNew (seen w) results).2
               (set_map (delete apiId (perSourceControllers w)) w))))) as (_ & _ & -> & _).
Qed.

(** The signal changes only by firing. *)
Lemma step_signal s s' ev :
  step s ev = Some s' →
  (isAbort ev = false ∧ signal (world s') = signal (world s)) ∨
  (signal (world s) = Some false ∧ signal (world s') = Some true).
Proof.
  intros Hstep. destruct ev as [i results cb|i|]; simpl in Hstep.
  - destruct (tasks (world s) !! i) as [[apiId [|c| |]]|]; try done.
    inversion Hstep; subst s'; simpl.
    destruct (finish_signal i apiId results cb (world s)) as [->|?]; auto.
  - destruct (tasks (world s) !! i) as [[apiId [|c| |]]|]; try done.
    inversion Hstep; subst s'; simpl. left. split; [done|].
    match goal with |- context [Limiter.tryRun ?l _ ?q ?r ?w] =>
      by destruct (tryRun_quiet env parseInt cfg customAPIs l q r w) as (_ & _ & -> & _) end.
  - destruct (signal (world s)) as [[]|]; try done.
    inversion Hstep; subst s'; simpl. right. split; [done|].
    by destruct (fireAbort_quiet (world s)) as (_ & _ & -> & _).
Qed.

Lemma aborts_once evs : ∀ s s',
  run s evs = Some s' →
  (length (List.filter isAbort evs)
     <= if bool_decide (signal (world s) = Some false) then 1 else 0)%nat.
Proof.
  induction evs as [|ev rest IH]; intros s s' Hrun; simpl in Hrun.
  - simpl. lia.
  - destruct (step s ev) as [s1|] eqn:Hs; [|done].
    specialize (IH s1 s' Hrun). simpl.
    destruct (step_signal s s1 ev Hs) as [[Hev Hsg]|[Hsg Hsg1]].
    + rewrite Hev. by rewrite <- Hsg.
    + rewrite Hsg1 in IH. rewrite Hsg. simpl in *.
      destruct (isAbort ev); simpl; lia.
Qed.

Lemma length_moves evs :
  length evs = (length (moves evs) + length (List.filter isAbort evs))%nat.
Proof.
  unfold moves. induction evs as [|ev rest IH]; simpl; [done|].
  destruct (isAbort ev); simpl; lia.
Qed.

Lemma fetching_counted (l : list (string * Status)) :
  (length (List.filter (fun t => isFetching t.2) l)
     <= length (List.filter (fun t => isCounted t.2) l))%nat.
Proof.
  induction l as [|[id st] l IH]; simpl; [done|].
  destruct st; simpl; lia.
Qed.

(** X12.  Inside a session the limiter's counter is the number of tasks
    that were started and not yet released, so the searches awaiting
    their answer are never more than the adaptive concurrency (and none
    when that is not positive). *)
Theorem search_concurrency (h : store) (conn : option string) (sel : list string)
    (sg : option bool) (evs : list Event) (s : State)
    (Hrun : run (aggregatedSearch h conn sel sg) evs = Some s) :
  running s = length (counted (world s)) ∧
  (length (fetching (world s)) <= running s)%nat ∧
  (Z.of_nat (running s) <= Z.max 0 (getAdaptiveConcurrency cfg conn h sel))%Z.
Proof.
  destruct (Gate_reached h conn sel sg evs s Hrun) as ((k & Hq & Hs & Hf) & _ & Hl).
  destruct Hs as [Hk Hst Hse Hr Hlim Hp].
  split; [done|]. split.
  - rewrite Hr. apply fetching_counted.
  - destruct Hl as [<-|Ht]; [done|].
    rewrite Hr. unfold counted. rewrite Ht. simpl. lia.
Qed.

(** X13.  The sources are searched in dispatch order: the searches made
    so far are a subsequence of the ordered sources, so no source is
    searched more often than it was selected and none out of turn. *)
Theorem searches_follow_order (h : store) (conn : option string) (sel : list string)
    (sg : option bool) (evs : list Event) (s : State)
    (Hrun : run (aggregatedSearch h conn sel sg) evs = Some s) :
  sublist (searches (log (world s))) (orderedAPIs h sel).
Proof.
  destruct (Gate_reached h conn sel sg evs s Hrun) as ((k & Hq & Hs & Hf) & _).
  destruct Hs as [Hk Hst Hse Hr Hlim Hp].
  rewrite (taskIds_reached env parseInt cfg customAPIs h conn sel sg evs s Hrun) in Hse.
  case_bool_decide.
  - rewrite take_nil in Hse. apply sublist_nil_r in Hse. rewrite Hse.
    apply sublist_nil_l.
  - etrans; [exact Hse|]. apply sublist_take.
Qed.

(** X14.  A session ends: each search that returns and each release
    uses up one of the two units of work of a task, and the signal fires
    once at most, so a session over n sources sees at most 2n + 1
    events. *)
Theorem session_bounded (h : store) (conn : option string) (sel : list string)
    (sg : option bool) (evs : list Event) (s : State)
    (Hrun : run (aggregatedSearch h conn sel sg) evs = Some s) :
  (length (moves evs) + work (world s) <= 2 * length sel)%nat ∧
  (length (List.filter isAbort evs) <= 1)%nat ∧
  (length evs <= 2 * length sel + 1)%nat.
Proof.
  destruct (Gate_reached h conn sel sg evs s Hrun) as (_ & Hw & _).
  pose proof (aborts_once evs _ s Hrun) as Ha.
  assert (Ha1 : (length (List.filter isAbort evs) <= 1)%nat).
  { destruct (bool_decide _) in Ha; lia. }
  split; [done|]. split; [done|].
  rewrite length_moves. lia.
Qed.

(** *** Progress *)

Lemma forallb_false_lookup {A} (f : A → bool) (l : list A) :
  forallb f l = false → ∃ i x, l !! i = Some x ∧ f x = false.
Proof.
  induction l as [|x l IH]; simpl; [done|].
  destruct (f x) eqn:Hx; simpl.
  - intros H. destruct (IH H) as (i & y & Hi & Hy). by exists (S i), y.
  - intros _. by exists 0%nat, x.
Qed.

Lemma filter_nonempty_lookup {A} (f : A → bool) (l : list A) :
  (0 < length (List.filter f l))%nat → ∃ i x, l !! i = Some x ∧ f x = true.
Proof.
  induction l as [|x l IH]; simpl; [lia|].
  destruct (f x) eqn:Hx; simpl.
  - intros _. by exists 0%nat, x.
  - intros H. destruct (IH H) as (i & y & Hi & Hy). by exists (S i), y.
Qed.

(** X15.  A session does not get stuck: while a task is unsettled and
    the adaptive concurrency is at least 1, some search is in flight
    (its return is accepted, whatever it brings) or some release is
    pending. *)
Theorem session_progress (h : store) (conn : option string) (sel : list string)
    (sg : option bool) (evs : list Event) (s : State)
    (Hrun : run (aggregatedSearch h conn sel sg) evs = Some s)
    (Hlim : (1 <= getAdaptiveConcurrency cfg conn h sel)%Z)
    (Hopen : allSettled (world s) = false) :
  (∃ i, ∀ results cb, is_Some (step s (Return i results cb))) ∨
  (∃ i, is_Some (step s (Release i))).
Proof.
  destruct (Gate_reached h conn sel sg evs s Hrun) as ((k & Hq & Hs & Hf) & _ & Hl).
  destruct Hs as [Hk Hst Hse Hr Hlim' Hp].
  assert (Hc : ∀ j id st, tasks (world s) !! j = Some (id, st) → isCounted st = true →
    (∃ i, ∀ results cb, is_Some (step s (Return i results cb))) ∨
    (∃ i, is_Some (step s (Release i)))).
  { intros j id st Hj Hcnt. destruct st as [|c| |]; try done.
    - left. exists j. intros results cb. simpl. rewrite Hj. by eexists.
    - right. exists j. simpl. rewrite Hj. by eexists. }
  unfold allSettled in Hopen.
  destruct (forallb_false_lookup _ _ Hopen) as (i & [id st] & Hi & Hns).
  destruct Hl as [Hl|Ht]; [|by rewrite Ht in Hi].
  destruct st as [|c| |]; try done.
  - assert (Hki : (k <= i)%nat).
    { apply (Hst i Queued); [|done]. unfold statusAt. by rewrite Hi. }
    apply lookup_lt_Some in Hi.
    assert (Hfull : (limit s <= Z.of_nat (running s))%Z) by (apply Hf; lia).
    destruct (filter_nonempty_lookup (fun t : string * Status => isCounted t.2)
                (tasks (world s))) as (j & [id' st'] & Hj & Hcnt).
    { fold (counted (world s)). lia. }
    by apply (Hc j id' st').
  - by apply (Hc i id (Fetching c)).
Qed.

Lemma work_all_queued (l : list (string * Status)) :
  (∀ i t, l !! i = Some t → t.2 = Queued) →
  sum_list ((fun t => weight t.2) <$> l) = (2 * length l)%nat.
Proof.
  induction l as [|x l IH]; intros Hall; simpl; [done|].
  rewrite (Hall 0%nat x eq_refl). simpl.
  unfold fmap in IH. rewrite IH; [lia|].
  intros i t Hi. by apply (Hall (S i)).
Qed.

Lemma moves_quiet evs : moves evs = [] → forallb (fun ev => negb (throws ev)) evs = true.
Proof.
  unfold moves. induction evs as [|ev rest IH]; simpl; [done|].
  destruct ev; simpl; try done.
Qed.

(** X16.  With a plan that is not positive (maxConcurrency 0, say) the
    limiter never starts a task: no search is made, no search returns,
    and the promise is never fulfilled; only the signal can settle it. *)
Theorem no_slot_no_search (h : store) (conn : option string) (sel : list string)
    (sg : option bool) (evs : list Event) (s : State)
    (Hrun : run (aggregatedSearch h conn sel sg) evs = Some s)
    (Hsel : sel ≠ [])
    (Hlim : (getAdaptiveConcurrency cfg conn h sel <= 0)%Z) :
  moves evs = [] ∧ searches (log (world s)) = [] ∧ result (world s) ≠ Resolved.
Proof.
  destruct (decide (sg = Some true)) as [->|Hsg].
  { rewrite aggregatedSearch_idle in Hrun.
    apply run_idle in Hrun as [-> ->]; [|done|done].
    by destruct sel. }
  destruct (Gate_reached h conn sel sg evs s Hrun) as ((k & Hq & Hs & Hf) & Hw & Hl).
  destruct Hs as [Hk Hst Hse Hr Hlim' Hp].
  pose proof (taskIds_reached env parseInt cfg customAPIs h conn sel sg evs s Hrun) as Hids.
  rewrite bool_decide_false in Hids by done.
  assert (Hlen : length (tasks (world s)) = length sel).
  { rewrite <- (length_fmap fst). fold (taskIds (world s)). rewrite Hids.
    apply sortBy_length. }
  assert (Hne : tasks (world s) ≠ []).
  { intros Hnil. rewrite Hnil in Hlen. by destruct sel. }
  destruct Hl as [Hl|Hl]; [|done].
  assert (Hk0 : k = 0%nat).
  { destruct k; [done|]. assert (0 < limit s)%Z by (apply Hp; lia). lia. }
  subst k.
  assert (Hall : ∀ i t, tasks (world s) !! i = Some t → t.2 = Queued).
  { intros i t Hi. apply (Hst i); [|lia]. unfold statusAt. by rewrite Hi. }
  assert (Hm : moves evs = []).
  { apply length_zero_iff_nil. unfold work in Hw.
    rewrite (work_all_queued _ Hall) in Hw. lia. }
  split; [done|]. split.
  - rewrite take_0 in Hse. by apply sublist_nil_r in Hse.
  - intros Hres.
    destruct (Sound_run env parseInt cfg customAPIs evs _ s (moves_quiet evs Hm)
                (Sound_aggregatedSearch env parseInt cfg customAPIs h conn sel sg Hsg) Hrun)
      as [_ Hd].
    pose proof (dec_resolved _ Hd Hres) as Hset. unfold allSettled in Hset.
    destruct (tasks (world s)) as [|t l] eqn:Ht; [done|].
    simpl in Hset. rewrite (Hall 0%nat t eq_refl) in Hset. done.
Qed.

(** *** Completion *)

Lemma Gate_progress s :
  Gate s → (1 <= limit s)%Z → allSettled (world s) = false →
  ∃ ev s', step s ev = Some s' ∧ isAbort ev = false ∧ throws ev = false.
Proof.
  intros (k & Hq & Hs & Hf) Hlim Hopen.
  destruct Hs as [Hk Hst Hse Hr Hlim' Hp].
  assert (Hc : ∀ j id st, tasks (world s) !! j = Some (id, st) → isCounted st = true →
    ∃ ev s', step s ev = Some s' ∧ isAbort ev = false ∧ throws ev = false).
  { intros j id st Hj Hcnt. destruct st as [|c| |]; try done.
    - exists (Return j [] quiet). simpl. rewrite Hj. by eexists.
    - exists (Release j). simpl. rewrite Hj. by eexists. }
  unfold allSettled in Hopen.
  destruct (forallb_false_lookup _ _ Hopen) as (i & [id st] & Hi & Hns).
  destruct st as [|c| |]; try done.
  - assert (Hki : (k <= i)%nat).
    { apply (Hst i Queued); [|done]. unfold statusAt. by rewrite Hi. }
    apply lookup_lt_Some in Hi.
    assert (Hfull : (limit s <= Z.of_nat (running s))%Z) by (apply Hf; lia).
    destruct (filter_nonempty_lookup (fun t : string * Status => isCounted t.2)
                (tasks (world s))) as (j & [id' st'] & Hj & Hcnt).
    { fold (counted (world s)). lia. }
    by apply (Hc j id' st').
  - by apply (Hc i id (Fetching c)).
Qed.

Lemma complete_from (n : nat) : ∀ s,
  Gate s → (1 <= limit s)%Z → (work (world s) <= n)%nat →
  ∃ evs s', run s evs = Some s' ∧ allSettled (world s') = true ∧
            Forall (fun ev => isAbort ev = false ∧ throws ev = false) evs ∧
            (length evs <= work (world s))%nat.
Proof.
  induction n as [|n IH]; intros s Hg Hlim Hw.
  - destruct (allSettled (world s)) eqn:Hset.
    { exists [], s. simpl. repeat apply conj; try done. lia. }
    destruct (Gate_progress s Hg Hlim Hset) as (ev & s1 & Hstep & Hab & _).
    destruct (Gate_step s s1 ev Hg Hstep) as (_ & _ & Hdec).
    rewrite Hab in Hdec. lia.
  - destruct (allSettled (world s)) eqn:Hset.
    { exists [], s. simpl. repeat apply conj; try done. lia. }
    destruct (Gate_progress s Hg Hlim Hset) as (ev & s1 & Hstep & Hab & Hth).
    destruct (Gate_step s s1 ev Hg Hstep) as (Hg1 & Hl1 & Hdec).
    rewrite Hab in Hdec.
    destruct (IH s1 Hg1) as (evs & s' & Hrun & Hdone & Hall & Hlen); [lia|lia|].
    exists (ev :: evs), s'. simpl. rewrite Hstep.
    repeat apply conj; try done.
    + by apply Forall_cons.
    + lia.
Qed.

(** X17.  A session can always be brought to its end: with an adaptive
    concurrency of at least 1, from every state it reaches there is a
    course of returning searches and releases, none of them an abort and
    none with a throwing callback, after which every task is settled;
    it takes no more events than the work that is left. *)
Theorem session_can_complete (h : store) (conn : option string) (sel : list string)
    (sg : option bool) (evs : list Event) (s : State)
    (Hrun : run (aggregatedSearch h conn sel sg) evs = Some s)
    (Hlim : (1 <= getAdaptiveConcurrency cfg conn h sel)%Z) :
  ∃ evs' s', run s evs' = Some s' ∧ allSettled (world s') = true ∧
             Forall (fun ev => isAbort ev = false ∧ throws ev = false) evs' ∧
             (length evs' <= work (world s))%nat.
Proof.
  destruct (Gate_reached h conn sel sg evs s Hrun) as (Hg & _ & Hl).
  destruct Hl as [Hl|Ht].
  - apply (complete_from (work (world s))); [done|by rewrite Hl|done].
  - exists [], s. simpl. unfold allSettled. rewrite Ht.
    repeat apply conj; try done. lia.
Qed.

End GateFacts.

(** ** What a session calls, hands over and cancels *)

Section LogFacts.
Import Health Session Dispatch.
Variable env : Env.
Variable parseInt : string → option nat.
Variable cfg : Config.
Variable customAPIs : list CustomApi.

Abbreviation finish := (finish cfg).
Abbreviation startTask := (startTask env parseInt cfg customAPIs).
Abbreviation step := (step env parseInt cfg customAPIs).
Abbreviation run := (run env parseInt cfg customAPIs).
Abbreviation submit := (submit env parseInt cfg customAPIs).
Abbreviation aggregatedSearch := (aggregatedSearch env parseInt cfg customAPIs).

(** *** After the abort no search *)

Lemma startTask_aborted_log i w :
  aborted w = true → aborted (startTask i w) = true ∧ log (startTask i w) = log w.
Proof.
  intros Ha. unfold Session.startTask.
  destruct (tasks w !! i) as [[apiId st]|]; [|done]. rewrite Ha.
  destruct (settle_quiet i w) as (-> & -> & _). done.
Qed.

Lemma step_aborted_log s s' ev :
  aborted (world s) = true → step s ev = Some s' →
  aborted (world s') = true ∧ log (world s') = log (world s).
Proof.
  intros Ha Hstep. destruct ev as [i results cb|i|]; simpl in Hstep.
  - destruct (tasks (world s) !! i) as [[apiId [|c| |]]|]; try done.
    inversion Hstep; subst s'; simpl.
    by destruct (finish_aborted cfg i apiId results cb (world s) Ha) as (-> & -> & _).
  - destruct (tasks (world s) !! i) as [[apiId [|c| |]]|]; try done.
    inversion Hstep; subst s'; simpl.
    apply (tryRun_preserves
             (fun w' => aborted w' = true ∧ log w' = log (world s))); [|done].
    intros t w' [Ha' Hl']. destruct (startTask_aborted_log t w' Ha') as [-> ->]. done.
  - destruct (signal (world s)) as [[]|]; try done.
    inversion Hstep; subst s'; simpl.
    by destruct (fireAbort_quiet (world s)) as (-> & -> & _).
Qed.

Lemma run_aborted_log evs : ∀ s s',
  aborted (world s) = true → run s evs = Some s' → log (world s') = log (world s).
Proof.
  induction evs as [|ev rest IH]; intros s s' Ha Hrun; simpl in Hrun.
  - by inversion Hrun.
  - destruct (step s ev) as [s1|] eqn:Hs; [|done].
    destruct (step_aborted_log s s1 ev Ha Hs) as [Ha1 Hl].
    rewrite <- Hl. by apply IH.
Qed.

(** X18.  Once the external signal has fired the session searches no
    source any more: a task that the limiter starts afterwards returns at
    its first line, so the queue drains without a call. *)
Theorem no_search_after_abort (h : store) (conn : option string) (sel : list string)
    (sg : option bool) (evs1 evs2 : list Event) (s1 s2 : State)
    (Hrun1 : run (aggregatedSearch h conn sel sg) evs1 = Some s1)
    (Hfired : signal (world s1) = Some true)
    (Hrun2 : run s1 evs2 = Some s2) :
  searches (log (world s2)) = searches (log (world s1)).
Proof.
  destruct (decide (sg = Some true)) as [->|Hsg].
  { rewrite aggregatedSearch_idle in Hrun1.
    apply run_idle in Hrun1 as [-> ->]; [|done|done].
    apply run_idle in Hrun2 as [-> ->]; done. }
  destruct (aggregatedSearch_quiet env parseInt cfg customAPIs h conn sel sg)
    as (_ & _ & H3 & _).
  assert (Hf : Flagged (world s1)).
  { eapply run_flagged; [|exact Hrun1]. intros Hs. congruence. }
  by rewrite (run_aborted_log evs2 s1 s2 (Hf Hfired) Hrun2).
Qed.

(** *** The calls of onNewResults *)

Lemma settleRejected_reached i e w :
  reachedTopK (settleRejected i e w) = reachedTopK w.
Proof.
  unfold settleRejected, decide_result, set_status. simpl.
  by destruct (result w).
Qed.

Lemma earlyAbort_reached w : reachedTopK (earlyAbort cfg w) = reachedTopK w.
Proof. unfold earlyAbort. by destruct (_ && _ && _). Qed.

(** A task that resumes calls onNewResults at most once, with the new
    items of its results, and only if there are any. *)
Lemma finish_callbacks i apiId results cb w :
  let w' := finish i apiId results cb w in
  (callbacks (log w') = callbacks (log w) ∧ reachedTopK w' = reachedTopK w) ∨
  ((filterNew (seen w) results).1 ≠ [] ∧
   callbacks (log w') = callbacks (log w) ++ [(filterNew (seen w) results).1] ∧
   reachedTopK w' = (reachedTopK w + 1)%nat).
Proof.
  apply finish_cases.
  - intros _. left.
    match goal with |- context [settle i ?w'] =>
      destruct (settle_quiet i w') as (_ & -> & _);
      destruct (settle_frame i w') as (_ & _ & -> & _) end.
    done.
  - intros _ _. left.
    match goal with |- context [settle i ?w'] =>
      destruct (settle_quiet i w') as (_ & -> & _);
      destruct (settle_frame i w') as (_ & _ & -> & _) end.
    done.
  - intros e _ Hne _. right. split; [done|].
    rewrite settleRejected_reached.
    match goal with |- context [settleRejected i e ?w'] =>
      destruct (settleRejected_frame i e w') as (_ & _ & _ & -> & _) end.
    match goal with |- context [deliver cb ?items ?w'] =>
      destruct (deliver_frame cb items w') as (_ & -> & _ & _ & -> & _) end.
    simpl. unfold callbacks. by rewrite omap_app.
  - intros _ Hne _. right. split; [done|].
    match goal with |- context [settle i ?w'] =>
      destruct (settle_quiet i w') as (_ & -> & _);
      destruct (settle_frame i w') as (_ & _ & -> & _) end.
    rewrite earlyAbort_reached.
    match goal with |- context [earlyAbort cfg ?w'] =>
      destruct (earlyAbort_frame cfg w') as (_ & _ & _ & -> & _) end.
    match goal with |- context [deliver cb ?items ?w'] =>
      destruct (deliver_frame cb items w') as (_ & -> & _ & _ & -> & _) end.
    simpl. unfold callbacks. by rewrite omap_app.
Qed.

Lemma startTask_reached i w :
  callbacks (log (startTask i w)) = callbacks (log w) ∧
  reachedTopK (startTask i w) = reachedTopK w.
Proof.
  destruct (startTask_quiet env parseInt cfg customAPIs i w) as (_ & Hc & _).
  split; [done|]. unfold Session.startTask.
  destruct (tasks w !! i) as [[apiId st]|]; [|done].
  destruct (aborted w).
  { by destruct (settle_frame i w) as (_ & _ & -> & _). }
  destruct (register_frame apiId w) as (_ & _ & R3 & _ & _ & _ & R7).
  destruct (backend env parseInt customAPIs apiId); [done|].
  destruct (finish_callbacks i apiId [] quiet (register apiId w)) as [[_ ->]|[Hne _]];
    done.
Qed.

Lemma step_callbacks s s' ev :
  step s ev = Some s' →
  ∃ new, callbacks (log (world s')) = callbacks (log (world s)) ++ new ∧
         reachedTopK (world s') = (reachedTopK (world s) + length new)%nat ∧
         Forall (fun items => items ≠ [] ∧ items ⊆ returnedItems [ev]) new.
Proof.
  intros Hstep. destruct ev as [i results cb|i|]; simpl in Hstep.
  - destruct (tasks (world s) !! i) as [[apiId [|c| |]]|]; try done.
    inversion Hstep; subst s'; simpl.
    destruct (finish_callbacks i apiId results cb (world s)) as [[-> ->]|(Hne & -> & ->)].
    + exists []. rewrite app_nil_r. simpl. split; [done|]. split; [lia|done].
    + eexists [_]. split; [done|]. split; [done|].
      apply Forall_singleton. split; [done|].
      intros it Hit. unfold returnedItems. simpl. rewrite app_nil_r.
      by destruct (filterNew_spec parseInt results (seen (world s))) as (_ & _ & H);
        destruct (H it Hit).
  - destruct (tasks (world s) !! i) as [[apiId [|c| |]]|]; try done.
    inversion Hstep; subst s'; simpl. exists []. rewrite app_nil_r. simpl.
    rewrite Nat.add_0_r. split; [|split; [|done]].
    + apply (tryRun_preserves
               (fun w' => callbacks (log w') = callbacks (log (world s)))); [|done].
      intros t w' Hw'. by destruct (startTask_reached t w') as [-> _].
    + apply (tryRun_preserves
               (fun w' => reachedTopK w' = reachedTopK (world s))); [|done].
      intros t w' Hw'. by destruct (startTask_reached t w') as [_ ->].
  - destruct (signal (world s)) as [[]|]; try done.
    inversion Hstep; subst s'; simpl. exists []. rewrite app_nil_r. simpl.
    rewrite Nat.add_0_r.
    destruct (fireAbort_quiet (world s)) as (_ & -> & _).
    by destruct (fireAbort_frame (world s)) as (_ & _ & -> & _).
Qed.

Lemma returnedItems_cons ev evs :
  returnedItems (ev :: evs) = returnedItems [ev] ++ returnedItems evs.
Proof.
  unfold returnedItems. destruct ev; simpl; try done. by rewrite app_nil_r.
Qed.

Lemma run_callbacks evs : ∀ s s',
  run s evs = Some s' →
  ∃ new, callbacks (log (world s')) = callbacks (log (world s)) ++ new ∧
         reachedTopK (world s') = (reachedTopK (world s) + length new)%nat ∧
         Forall (fun items => items ≠ [] ∧ items ⊆ returnedItems evs) new.
Proof.
  induction evs as [|ev rest IH]; intros s s' Hrun; simpl in Hrun.
  - inversion Hrun; subst s'. exists []. rewrite app_nil_r. simpl.
    split; [done|]. split; [lia|done].
  - destruct (step s ev) as [s1|] eqn:Hs; [|done].
    destruct (step_callbacks s s1 ev Hs) as (new1 & H1 & H2 & H3).
    destruct (IH s1 s' Hrun) as (new2 & G1 & G2 & G3).
    exists (new1 ++ new2). rewrite G1, H1, G2, H2, length_app, <- app_assoc.
    split; [done|]. split; [lia|].
    rewrite returnedItems_cons. apply Forall_app. split.
    + eapply Forall_impl; [exact H3|]. intros items [? Hsub]. split; [done|].
      intros it Hit. apply elem_of_app. left. by apply Hsub.
    + eapply Forall_impl; [exact G3|]. intros items [? Hsub]. split; [done|].
      intros it Hit. apply elem_of_app. right. by apply Hsub.
Qed.

Lemma foldl_submit_reached l : ∀ s,
  reachedTopK (world (foldl submit s l)) = reachedTopK (world s).
Proof.
  induction l as [|i rest IH]; intros s; simpl; [done|].
  rewrite IH. unfold Session.submit. simpl.
  apply (tryRun_preserves (fun w' => reachedTopK w' = reachedTopK (world s))); [|done].
  intros t w' Hw'. by destruct (startTask_reached t w') as [_ ->].
Qed.

(** X19.  Every call of onNewResults hands over a non-empty list of
    items that some search of the session returned, and reachedTopK
    counts exactly these calls. *)
Theorem callbacks_sound (h : store) (conn : option string) (sel : list string)
    (sg : option bool) (evs : list Event) (s : State)
    (Hrun : run (aggregatedSearch h conn sel sg) evs = Some s) :
  reachedTopK (world s) = length (callbacks (log (world s))) ∧
  Forall (fun items => items ≠ [] ∧ items ⊆ returnedItems evs)
         (callbacks (log (world s))).
Proof.
  destruct (run_callbacks evs _ s Hrun) as (new & H1 & H2 & H3).
  destruct (aggregatedSearch_quiet env parseInt cfg customAPIs h conn sel sg)
    as (_ & Hc & _).
  assert (Hr : reachedTopK (world (aggregatedSearch h conn sel sg)) = 0%nat).
  { unfold Session.aggregatedSearch. destruct sel as [|id rest]; [done|].
    case_bool_decide; [done|]. by rewrite foldl_submit_reached. }
  rewrite H1, H2, Hc, Hr. simpl. done.
Qed.

(** *** The controllers *)

Lemma register_controllers apiId w :
  signal w ≠ Some true → controllers (register apiId w) = controllers w ++ [false].
Proof.
  intros Hs. unfold register. simpl. by destruct (signal w) as [[]|].
Qed.

Lemma finish_nil_controllers i apiId cb w :
  controllers (finish i apiId [] cb w) = controllers w.
Proof.
  apply finish_cases; simpl; try done.
  - intros _.
    match goal with |- context [settle i ?w'] =>
      by destruct (settle_frame i w') as (-> & _) end.
  - intros _ _.
    match goal with |- context [settle i ?w'] =>
      by destruct (settle_frame i w') as (-> & _) end.
Qed.

Lemma finish_controllers i apiId results cb w :
  earlyAbortAfterTopK cfg = false →
  signal (finish i apiId results cb w) ≠ Some true →
  controllers (finish i apiId results cb w) = controllers w.
Proof.
  intros Hearly. apply finish_cases.
  - intros _ _.
    match goal with |- context [settle i ?w'] =>
      by destruct (settle_frame i w') as (-> & _) end.
  - intros _ _ _.
    match goal with |- context [settle i ?w'] =>
      by destruct (settle_frame i w') as (-> & _) end.
  - intros e _ _ _.
    match goal with |- context [settleRejected i e ?w'] =>
      destruct (settleRejected_frame i e w') as (_ & -> & _ & _ & -> & _) end.
    match goal with |- context [deliver cb ?items ?w'] =>
      destruct (deliver_signal cb items w') as [(_ & _ & _ & ->)|(_ & _ & ->)] end;
      [done|].
    intros Hs. exfalso. apply Hs.
    match goal with |- context [fireAbort ?w'] =>
      by destruct (fireAbort_quiet w') as (_ & _ & -> & _) end.
  - intros _ _ _.
    match goal with |- context [settle i ?w'] =>
      destruct (settle_frame i w') as (-> & _);
      destruct (settle_quiet i w') as (_ & _ & -> & _) end.
    unfold earlyAbort. rewrite Hearly. simpl.
    match goal with |- context [deliver cb ?items ?w'] =>
      destruct (deliver_signal cb items w') as [(_ & _ & _ & ->)|(_ & _ & ->)] end;
      [done|].
    intros Hs. exfalso. apply Hs.
    match goal with |- context [fireAbort ?w'] =>
      by destruct (fireAbort_quiet w') as (_ & _ & -> & _) end.
Qed.

Lemma startTask_calm i w :
  signal w ≠ Some true → Calm w → Calm (startTask i w).
Proof.
  intros Hs Hc. unfold Session.startTask.
  destruct (tasks w !! i) as [[apiId st]|]; [|done].
  destruct (aborted w).
  { unfold Calm. by destruct (settle_frame i w) as (-> & _). }
  pose proof (register_controllers apiId w Hs) as Hr.
  assert (Hc2 : Calm (register apiId w)).
  { unfold Calm. rewrite Hr. apply Forall_app. split; [done|]. by apply Forall_singleton. }
  destruct (backend env parseInt customAPIs apiId); [done|].
  unfold Calm. by rewrite finish_nil_controllers.
Qed.

Lemma tryRun_calm limit q r w :
  signal w ≠ Some true → Calm w →
  Calm (Limiter.tryRun limit startTask q r w).2.
Proof.
  intros Hs Hc.
  apply (tryRun_preserves (fun w' => signal w' = signal w ∧ Calm w')); [|done].
  intros t w' [Hs' Hc'].
  destruct (startTask_quiet env parseInt cfg customAPIs t w') as (_ & _ & -> & _).
  split; [done|]. apply startTask_calm; [congruence|done].
Qed.

Lemma step_calm s s' ev :
  earlyAbortAfterTopK cfg = false →
  step s ev = Some s' → signal (world s') ≠ Some true →
  Calm (world s) → Calm (world s').
Proof.
  intros Hearly Hstep Hs' Hc.
  assert (Hs : signal (world s) ≠ Some true).
  { destruct (step_signal env parseInt cfg customAPIs s s' ev Hstep) as [[_ <-]|[-> _]];
      done. }
  destruct ev as [i results cb|i|]; simpl in Hstep.
  - destruct (tasks (world s) !! i) as [[apiId [|c| |]]|]; try done.
    inversion Hstep; subst s'; simpl in *.
    unfold Calm. by rewrite finish_controllers.
  - destruct (tasks (world s) !! i) as [[apiId [|c| |]]|]; try done.
    inversion Hstep; subst s'; simpl in *.
    by apply tryRun_calm.
  - destruct (signal (world s)) as [[]|]; try done.
    inversion Hstep; subst s'; simpl in *. exfalso. apply Hs'.
    by destruct (fireAbort_quiet (world s)) as (_ & _ & -> & _).
Qed.

Lemma run_signal evs : ∀ s s',
  run s evs = Some s' → signal (world s') ≠ Some true → signal (world s) ≠ Some true.
Proof.
  induction evs as [|ev rest IH]; intros s s' Hrun Hs'; simpl in Hrun.
  - by inversion Hrun; subst.
  - destruct (step s ev) as [s1|] eqn:Hs; [|done].
    specialize (IH s1 s' Hrun Hs').
    destruct (step_signal env parseInt cfg customAPIs s s1 ev Hs) as [[_ <-]|[-> _]];
      done.
Qed.

Lemma run_calm evs : ∀ s s',
  earlyAbortAfterTopK cfg = false →
  run s evs = Some s' → signal (world s') ≠ Some true →
  Calm (world s) → Calm (world s').
Proof.
  induction evs as [|ev rest IH]; intros s s' Hearly Hrun Hs' Hc; simpl in Hrun.
  - by inversion Hrun; subst.
  - destruct (step s ev) as [s1|] eqn:Hs; [|done].
    apply (IH s1 s' Hearly Hrun Hs').
    apply (step_calm s s1 ev Hearly Hs); [|done].
    by apply (run_signal rest s1 s').
Qed.

Lemma foldl_submit_calm l : ∀ s,
  signal (world s) ≠ Some true → Calm (world s) → Calm (world (foldl submit s l)).
Proof.
  induction l as [|i rest IH]; intros s Hs Hc; simpl; [done|].
  apply IH.
  - destruct (submit_quiet env parseInt cfg customAPIs s i) as (_ & _ & -> & _). done.
  - unfold Session.submit. simpl. by apply tryRun_calm.
Qed.

(** X20.  The session cancels a source's search only for a cause: as
    long as the signal has not fired, and unless early abort is switched
    on, no controller it created is aborted. *)
Theorem no_cancel_without_cause (h : store) (conn : option string) (sel : list string)
    (sg : option bool) (evs : list Event) (s : State)
    (Hrun : run (aggregatedSearch h conn sel sg) evs = Some s)
    (Hearly : earlyAbortAfterTopK cfg = false)
    (Hsig : signal (world s) ≠ Some true) :
  Calm (world s).
Proof.
  apply (run_calm evs _ s Hearly Hrun Hsig).
  unfold Session.aggregatedSearch. destruct sel as [|id rest].
  { apply Forall_nil_2. }
  case_bool_decide; [apply Forall_nil_2|].
  apply foldl_submit_calm; simpl; [done|apply Forall_nil_2].
Qed.

End LogFacts.

Section SessionRuns.
Import Health Session Dispatch Demo Runs.

Lemma search_concurrency_witness :
  running after_two = length (counted (world after_two)) ∧
  (length (fetching (world after_two)) <= running after_two)%nat ∧
  (Z.of_nat (running after_two)
     <= Z.max 0 (getAdaptiveConcurrency cfg_top2 None ∅ five))%Z.
Proof.
  apply (search_concurrency env noInt cfg_top2 [] ∅ None five (Some false)
           two_answers after_two).
  vm_compute. reflexivity.
Defined.

Lemma searches_follow_order_witness :
  sublist (searches (log (world after_two))) (orderedAPIs ∅ five).
Proof.
  apply (searches_follow_order env noInt cfg_top2 [] ∅ None five (Some false)
           two_answers after_two).
  vm_compute. reflexivity.
Defined.

Lemma session_bounded_witness :
  (length (moves two_answers) + work (world after_two) <= 2 * length five)%nat ∧
  (length (List.filter isAbort two_answers) <= 1)%nat ∧
  (length two_answers <= 2 * length five + 1)%nat.
Proof.
  apply (session_bounded env noInt cfg_top2 [] ∅ None five (Some false)
           two_answers after_two).
  vm_compute. reflexivity.
Defined.

Lemma session_progress_witness :
  (∃ i, ∀ results cb,
     is_Some (step env noInt cfg_top2 [] after_two (Return i results cb))) ∨
  (∃ i, is_Some (step env noInt cfg_top2 [] after_two (Release i))).
Proof.
  apply (session_progress env noInt cfg_top2 [] ∅ None five (Some false)
           two_answers after_two).
  - vm_compute. reflexivity.
  - vm_compute. discriminate.
  - vm_compute. reflexivity.
Defined.

Lemma no_slot_no_search_witness :
  moves [Abort] = [] ∧ searches (log (world stuck)) = [] ∧
  result (world stuck) ≠ Resolved.
Proof.
  apply (no_slot_no_search env noInt cfg_zero [] ∅ None five (Some false)
           [Abort] stuck).
  - vm_compute. reflexivity.
  - discriminate.
  - vm_compute. discriminate.
Defined.

Lemma session_can_complete_witness :
  ∃ evs' s', run env noInt cfg_top2 [] after_two evs' = Some s' ∧
             allSettled (world s') = true ∧
             (length evs' <= work (world after_two))%nat.
Proof.
  destruct (session_can_complete env noInt cfg_top2 [] ∅ None five (Some false)
              two_answers after_two) as (evs' & s' & Hrun & Hdone & _ & Hlen).
  - vm_compute. reflexivity.
  - vm_compute. discriminate.
  - by exists evs', s'.
Defined.

Lemma no_search_after_abort_witness :
  searches (log (world fired_later)) = searches (log (world fired)).
Proof.
  apply (no_search_after_abort env noInt cfg_top2 [] ∅ None five (Some false)
           [Return 0 [item "s1" "1"] quiet; Abort]
           [Return 1 [item "s2" "1"] quiet; Release 0] fired fired_later).
  - vm_compute. reflexivity.
  - vm_compute. reflexivity.
  - vm_compute. reflexivity.
Defined.

Lemma callbacks_sound_witness :
  reachedTopK (world after_two) = length (callbacks (log (world after_two))) ∧
  Forall (fun items => items ≠ [] ∧ items ⊆ returnedItems two_answers)
         (callbacks (log (world after_two))).
Proof.
  apply (callbacks_sound env noInt cfg_top2 [] ∅ None five (Some false)
           two_answers after_two).
  vm_compute. reflexivity.
Defined.

Lemma no_cancel_without_cause_witness : Calm (world one_done).
Proof.
  apply (no_cancel_without_cause env noInt cfg_default [] ∅ None ["s1"; "s2"]
           (Some false) [Return 0 [item "s1" "1"] quiet; Release 0] one_done).
  - vm_compute. reflexivity.
  - reflexivity.
  - vm_compute. discriminate.
Defined.

End SessionRuns.

(** ** The filter of new items *)

Section FilterFacts.
Import Session.

Lemma filterNew_seen results : ∀ sn : gset string,
  (∀ it, it ∈ results → dedupKey it ∈ sn) →
  filterNew sn results = ([], sn).
Proof.
  induction results as [|item rest IH]; intros sn Hall; simpl; [done|].
  destruct (decide (dedupKey item ∈ sn)) as [Hin|Hnew].
  - apply IH. intros it Hit. apply Hall. set_solver.
  - exfalso. apply Hnew, Hall. set_solver.
Qed.

Lemma filterNew_keys results : ∀ sn : gset string,
  (filterNew sn results).2 = sn ∪ list_to_set (dedupKey <$> results).
Proof.
  induction results as [|item rest IH]; intros sn; simpl.
  - set_solver.
  - destruct (decide (dedupKey item ∈ sn)) as [Hin|Hnew]; simpl; rewrite IH; set_solver.
Qed.

(** X21.  The filter keeps the new items in the order of the results,
    loses no new key (every item whose key was not seen has its key among
    the kept ones), leaves the seen set as the old one joined with the
    keys of the results, and so keeps nothing when the same results come
    again. *)
Theorem filterNew_complete (results : list VideoItem) (sn : gset string) :
  sublist (filterNew sn results).1 results ∧
  (∀ it, it ∈ results → (dedupKey it ∉ sn) →
         dedupKey it ∈ dedupKey <$> (filterNew sn results).1) ∧
  (filterNew sn results).2 = sn ∪ list_to_set (dedupKey <$> results) ∧
  filterNew (filterNew sn results).2 results = ([], (filterNew sn results).2).
Proof.
  split; [|split; [|split]].
  - revert sn. induction results as [|item rest IH]; intros sn; simpl; [done|].
    destruct (decide (dedupKey item ∈ sn)); simpl.
    + by apply sublist_cons.
    + by apply sublist_skip.
  - revert sn. induction results as [|item rest IH]; intros sn it Hit Hnew; simpl.
    + by apply elem_of_nil in Hit.
    + destruct (decide (dedupKey item ∈ sn)) as [Hin|Hnew']; simpl.
      * apply IH; [|done]. apply elem_of_cons in Hit as [->|Hit]; done.
      * destruct (decide (dedupKey it = dedupKey item)) as [->|Hne]; [set_solver|].
        apply elem_of_cons. right. apply IH.
        -- apply elem_of_cons in Hit as [->|Hit]; done.
        -- set_solver.
  - apply filterNew_keys.
  - apply filterNew_seen. intros it Hit. rewrite filterNew_keys.
    apply elem_of_union_r, elem_of_list_to_set, list_elem_of_fmap. by exists it.
Qed.

End FilterFacts.

(** ** searchVideos: the answers *)

Section AnswerFacts.
Import Health Service Answers.
Variable env : Env.

Lemma mapM_tag_objects source capi ids :
  ∃ l, mapM (tag env source capi) (objects ids) = Some l ∧
       vod_id <$> l = ids ∧
       Forall (fun it => source_code it = source ∧
                 source_name it =
                   (if bool_decide (source = "custom") then "自定义源"
                    else from_option site_name "" (API_SITES env !! source)) ∧
                 api_url it = (if bool_decide (source = "custom") then capi else None)) l.
Proof.
  induction ids as [|id ids (l & Hl & Hids & Hall)].
  - exists []. done.
  - eexists (_ :: l). unfold objects in *. simpl.
    change (list_fmap string RawItem RawObject ids) with (RawObject <$> ids).
    rewrite Hl. simpl.
    split; [reflexivity|]. simpl.
    change (list_fmap VideoItem string vod_id l) with (vod_id <$> l).
    split; [by rewrite Hids|].
    apply Forall_cons. done.
Qed.

(** X22.  When the upstream call of a pending request answers with a 2xx
    status and a list of objects, exec tags every item with the source of
    the call (code, name, and the address for a custom source), records
    one success with the elapsed time, and fulfils its promise with code
    200 and the tagged list, in the upstream order; every caller awaiting
    the promise returns that response. *)
Theorem exec_success_recorded (s : State) (p : nat) (status : nat) (ids : list string)
    (finish : Q) (now : Z) (key source : string) (capi : option string) (start : Q)
    (Hp : promises s !! p = Some (Pending key source capi start))
    (Hok : ok status = true) :
  ∃ l s' rec',
    step env s (Respond p (Response status (WithList (objects ids))) finish now) = Some s' ∧
    vod_id <$> l = ids ∧
    Forall (fun it => source_code it = source ∧
              source_name it =
                (if bool_decide (source = "custom") then "自定义源"
                 else from_option site_name "" (API_SITES env !! source)) ∧
              api_url it = (if bool_decide (source = "custom") then capi else None)) l ∧
    sourceHealth s' = updateHealth (sourceHealth s) source true (finish - start) now ∧
    sourceHealth s' !! source = Some rec' ∧
    successCount rec' = (from_option successCount 0 (sourceHealth s !! source) + 1)%nat ∧
    failureCount rec' = from_option failureCount 0%nat (sourceHealth s !! source) ∧
    promises s' !! p = Some (Settled key (Limiter.Fulfilled (mkResponse 200 None l))) ∧
    inflightRequests s' !! key = None ∧
    (∀ c, (c, p) ∈ waiting s → (c, mkResponse 200 None l) ∈ returned s').
Proof.
  destruct (mapM_tag_objects source capi ids) as (l & Hl & Hids & Hall).
  rewrite (step_respond env s p _ finish now key source capi start Hp).
  rewrite execFinish_parts. simpl. rewrite Hok. simpl. rewrite Hl.
  eexists l, _, _. split; [reflexivity|]. simpl.
  split; [done|]. split; [done|]. split; [done|].
  unfold updateHealth. rewrite lookup_insert_eq.
  split; [reflexivity|]. simpl.
  split; [by destruct (sourceHealth s !! source)|].
  split; [by destruct (sourceHealth s !! source)|].
  split; [|split].
  - apply list_lookup_insert_eq. by eapply lookup_lt_Some.
  - apply lookup_delete_eq.
  - intros c Hc. apply elem_of_app. right.
    apply list_elem_of_fmap. exists (c, p). split; [done|].
    apply list_elem_of_filter. done.
Qed.

(** *** Callers and promises *)

Lemma Awaits_step s s' ev :
  Table s → Awaits s → step env s ev = Some s' → Awaits s'.
Proof.
  intros Ht Ha Hstep. destruct ev as [c query source capi start|p r finish now].
  - simpl in Hstep. destruct (requestKeyOf env query source capi) as [e|key].
    { inversion Hstep; subst s'. exact Ha. }
    destruct (inflightRequests s !! key) as [p|] eqn:Hk;
      inversion Hstep; subst s'; intros c' p' Hin; simpl in *;
      apply elem_of_app in Hin as [Hin|Hin].
    + exact (Ha c' p' Hin).
    + apply list_elem_of_singleton in Hin. inversion Hin; subst c' p'.
      destruct (proj1 (Ht key p) Hk) as (src & cp & st & Hp).
      by exists key, src, cp, st.
    + destruct (Ha c' p' Hin) as (key' & src & cp & st & Hp & Hi).
      exists key', src, cp, st. split.
      * by apply lookup_app_l_Some.
      * rewrite lookup_insert_ne; [done|]. intros <-. congruence.
    + apply list_elem_of_singleton in Hin. inversion Hin; subst c' p'.
      exists key, source, capi, start. split.
      * by rewrite lookup_app_r, Nat.sub_diag.
      * apply lookup_insert_eq.
  - destruct (promises s !! p) as [[key source capi start|]|] eqn:Hp;
      try (simpl in Hstep; rewrite Hp in Hstep; done).
    rewrite (step_respond env s p r finish now key source capi start Hp) in Hstep.
    inversion Hstep; subst s'. intros c' p' Hin. simpl in *.
    apply list_elem_of_filter in Hin as [Hne Hin]. simpl in Hne.
    destruct (Ha c' p' Hin) as (key' & src & cp & st & Hp' & Hi).
    exists key', src, cp, st. split.
    + by rewrite list_lookup_insert_ne.
    + rewrite lookup_delete_ne; [done|]. intros <-.
      assert (Hk : inflightRequests s !! key = Some p) by (apply Ht; eauto).
      congruence.
Qed.

Lemma Awaits_run evs : ∀ s s',
  Table s → Awaits s → run env s evs = Some s' → Awaits s'.
Proof.
  induction evs as [|ev rest IH]; intros s s' Ht Ha Hrun; simpl in Hrun.
  - by inversion Hrun; subst.
  - destruct (step env s ev) as [s1|] eqn:Hs; [|done].
    apply (IH s1 s'); [by eapply Table_step|by eapply Awaits_step|done].
Qed.

Lemma resume_wellformed h inflight key source capi start finish now r :
  WellFormed (resume (execFinish env h inflight key source capi start finish now r).2).
Proof.
  rewrite execFinish_parts. simpl.
  destruct (execBody env source capi r); simpl; [by left|right]. by eauto.
Qed.

(** X23.  No caller is left behind: in every state a caller that awaits
    is awaiting a promise that is still pending and registered under its
    key, so however its fetch ends the caller gets a response, and that
    response has code 200 or code 400. *)
Theorem no_caller_left_waiting (h0 : store) (evs : list Event) (s : State)
    (Hrun : run env (init h0) evs = Some s) :
  Awaits s ∧
  ∀ c p r finish now, (c, p) ∈ waiting s →
    ∃ s' resp, step env s (Respond p r finish now) = Some s' ∧
               (c, resp) ∈ returned s' ∧ WellFormed resp ∧
               (∀ c', (c', p) ∉ waiting s').
Proof.
  assert (Ha : Awaits s).
  { apply (Awaits_run evs (init h0) s); [apply Table_init| |done].
    intros c p Hin. by apply elem_of_nil in Hin. }
  split; [done|]. intros c p r finish now Hin.
  destruct (Ha c p Hin) as (key & src & cp & st & Hp & Hi).
  rewrite (step_respond env s p r finish now key src cp st Hp).
  eexists _, _. split; [reflexivity|]. simpl. split; [|split].
  - apply elem_of_app. right. apply list_elem_of_fmap. exists (c, p).
    split; [reflexivity|]. by apply list_elem_of_filter.
  - apply resume_wellformed.
  - intros c' Hc'. apply list_elem_of_filter in Hc' as [Hc' _]. by apply Hc'.
Qed.

(** *** What has been returned and fetched *)

Lemma step_returned s s' ev :
  step env s ev = Some s' →
  Forall (fun cr => WellFormed cr.2) (returned s) →
  fetches s = promiseKey <$> promises s →
  Forall (fun cr => WellFormed cr.2) (returned s') ∧
  fetches s' = promiseKey <$> promises s'.
Proof.
  intros Hstep Hr Hf. destruct ev as [c query source capi start|p r finish now].
  - simpl in Hstep. destruct (requestKeyOf env query source capi) as [e|key].
    { inversion Hstep; subst s'; simpl. split; [|done].
      apply Forall_app. split; [done|]. apply Forall_singleton. right. simpl. eauto. }
    destruct (inflightRequests s !! key) as [p|]; inversion Hstep; subst s'; simpl.
    + done.
    + split; [done|]. by rewrite fmap_app, Hf.
  - destruct (promises s !! p) as [[key source capi start|]|] eqn:Hp;
      try (simpl in Hstep; rewrite Hp in Hstep; done).
    rewrite (step_respond env s p r finish now key source capi start Hp) in Hstep.
    inversion Hstep; subst s'; simpl. split.
    + apply Forall_app. split; [done|]. apply Forall_fmap, Forall_forall.
      intros cp _. simpl. apply resume_wellformed.
    + rewrite Hf. rewrite list_fmap_insert. simpl.
      symmetry. apply list_insert_id. by rewrite list_lookup_fmap, Hp.
Qed.

(** X24.  searchVideos never throws: whatever is called and however the
    fetches end, every response returned has code 200 without a message,
    or code 400 with a message and an empty list.  And every promise
    stands for exactly one fetch, made with the promise's request key. *)
Theorem responses_well_formed (h0 : store) (evs : list Event) (s : State)
    (Hrun : run env (init h0) evs = Some s) :
  Forall (fun cr => WellFormed cr.2) (returned s) ∧
  fetches s = promiseKey <$> promises s.
Proof.
  assert (Hgen : ∀ evs s0 s1,
    run env s0 evs = Some s1 →
    Forall (fun cr => WellFormed cr.2) (returned s0) →
    fetches s0 = promiseKey <$> promises s0 →
    Forall (fun cr => WellFormed cr.2) (returned s1) ∧
    fetches s1 = promiseKey <$> promises s1).
  { clear. intros evs. induction evs as [|ev rest IH]; intros s0 s1 Hrun Hr Hf;
      simpl in Hrun.
    - by inversion Hrun; subst.
    - destruct (step env s0 ev) as [s'|] eqn:Hs; [|done].
      destruct (step_returned s0 s' ev Hs Hr Hf) as [Hr' Hf'].
      by apply (IH s' s1). }
  apply (Hgen evs (init h0) s Hrun); done.
Qed.

(** *** searchSingleSource *)


End AnswerFacts.

Section AnswerRuns.
Import Health Service Answers Demo.

Lemma exec_success_recorded_witness :
  ∃ l s',
    step env called_twice
      (Respond 0 (Response 200 (WithList (objects ["a"; "b"]))) 8010 0) = Some s' ∧
    vod_id <$> l = ["a"; "b"] ∧
    Forall (fun it => source_code it = "s1") l ∧
    (∀ c, (c, 0%nat) ∈ waiting called_twice → (c, mkResponse 200 None l) ∈ returned s').
Proof.
  destruct (exec_success_recorded env called_twice 0 200 ["a"; "b"] 8010 0
              "/proxy?url=https://one.example?ac=videolist&wd=q" "s1" None 10)
    as (l & s' & rec' & Hstep & Hids & Hall & _ & _ & _ & _ & _ & _ & Hw).
  - vm_compute. reflexivity.
  - reflexivity.
  - exists l, s'. repeat apply conj; try done.
    eapply Forall_impl; [exact Hall|]. by intros it (? & _).
Defined.

Lemma no_caller_left_waiting_witness : Awaits called_twice.
Proof.
  apply (proj1 (no_caller_left_waiting env ∅ two_calls called_twice eq_refl)).
Defined.

Lemma responses_well_formed_witness :
  fetches called_twice = promiseKey <$> promises called_twice.
Proof.
  apply (proj2 (responses_well_formed env ∅ two_calls called_twice eq_refl)).
Defined.


End AnswerRuns.

(** ** getVideoDetail: splitting the play addresses *)

Section DetailFacts.
Import Stdlib.Strings.Ascii.
Import Detail.

Lemma append_cons (d : ascii) (a b : string) : String d a +:+ b = String d (a +:+ b).
Proof. reflexivity. Qed.

Lemma append_nil_l (b : string) : "" +:+ b = b.
Proof. reflexivity. Qed.

Lemma append_snoc (cur : string) (c : ascii) (s : string) :
  (cur +:+ String c "") +:+ s = cur +:+ String c s.
Proof.
  induction cur as [|d cur IH]; [done|]. rewrite !append_cons. by rewrite IH.
Qed.

Lemma append_assoc (a b c : string) : (a +:+ b) +:+ c = a +:+ (b +:+ c).
Proof.
  induction a as [|d a IH]; [done|]. rewrite !append_cons. by rewrite IH.
Qed.

Lemma append_nil_r (a : string) : a +:+ "" = a.
Proof.
  induction a as [|d a IH]; [done|]. rewrite append_cons. by rewrite IH.
Qed.

Lemma has_app c a b : has c (a +:+ b) = has c a || has c b.
Proof.
  induction a as [|d a IH]; [done|]. rewrite append_cons. simpl. rewrite IH.
  by rewrite orb_assoc.
Qed.

Lemma prefix_nil (s : string) : String.prefix "" s = true.
Proof. by destruct s. Qed.

Lemma prefix_cons_inv (a b : ascii) (s1 s2 : string) :
  String.prefix (String a s1) (String b s2) = true → a = b ∧ String.prefix s1 s2 = true.
Proof. simpl. by destruct (ascii_dec a b). Qed.

Lemma prefix_char_eq (c : ascii) (sep s : string) :
  String.prefix (String c sep) (String c s) = String.prefix sep s.
Proof. simpl. by destruct (ascii_dec c c). Qed.

Lemma prefix_char_ne (c d : ascii) (sep s : string) :
  Ascii.eqb c d = false → String.prefix (String c sep) (String d s) = false.
Proof.
  intros Hne. simpl. destruct (ascii_dec c d) as [->|]; [|done].
  by rewrite Ascii.eqb_refl in Hne.
Qed.

(** *** A separator of one character *)

Lemma split1_free (c : ascii) (a : string) : ∀ cur,
  has c a = false → splitFrom (String c "") 0 cur a = [cur +:+ a].
Proof.
  induction a as [|d a IH]; intros cur Hfree; simpl.
  - by rewrite append_nil_r.
  - simpl in Hfree. apply orb_false_iff in Hfree as [Hcd Hfree].
    destruct (ascii_dec c d) as [->|Hne]; [by rewrite Ascii.eqb_refl in Hcd|].
    rewrite (IH _ Hfree). by rewrite append_snoc.
Qed.

Lemma split1_cut (c : ascii) (a s : string) : ∀ cur,
  has c a = false →
  splitFrom (String c "") 0 cur (a +:+ String c s) =
    (cur +:+ a) :: splitFrom (String c "") 0 "" s.
Proof.
  induction a as [|d a IH]; intros cur Hfree; rewrite ?append_cons, ?append_nil_l; simpl.
  - destruct (ascii_dec c c); [|done]. by rewrite prefix_nil, append_nil_r.
  - simpl in Hfree. apply orb_false_iff in Hfree as [Hcd Hfree].
    destruct (ascii_dec c d) as [->|Hne]; [by rewrite Ascii.eqb_refl in Hcd|].
    rewrite (IH _ Hfree). by rewrite append_snoc.
Qed.

(** The pieces of a split hold no character that neither the string nor
    the piece begun held. *)
Lemma splitFrom_free (d : ascii) (sep s : string) : ∀ skip cur,
  has d s = false → has d cur = false →
  Forall (fun p => has d p = false) (splitFrom sep skip cur s).
Proof.
  induction s as [|c s IH]; intros skip cur Hs Hcur; simpl.
  - by apply Forall_singleton.
  - simpl in Hs. apply orb_false_iff in Hs as [Hdc Hs].
    destruct skip as [|k]; [|by apply IH].
    match goal with |- context [if ?b then _ else _] => destruct b end.
    + apply Forall_cons. split; [done|]. by apply IH.
    + apply IH; [done|]. rewrite has_app. simpl. by rewrite Hcur, Hdc.
Qed.

(** The pieces of a split by one character do not hold it. *)
Lemma split1_pieces (c : ascii) (s : string) : ∀ cur,
  has c cur = false →
  Forall (fun p => has c p = false) (splitFrom (String c "") 0 cur s).
Proof.
  induction s as [|d s IH]; intros cur Hcur; simpl.
  - by apply Forall_singleton.
  - destruct (ascii_dec c d) as [->|Hne].
    + rewrite prefix_nil. apply Forall_cons. split; [done|]. by apply IH.
    + apply IH. rewrite has_app. simpl. rewrite Hcur. simpl.
      rewrite orb_false_r. by apply Ascii.eqb_neq.
Qed.

(** *** The separator of play sources *)

Lemma splitFrom_cons (sep cur : string) (c : ascii) (rest : string) :
  splitFrom sep 0 cur (String c rest) =
    if String.prefix sep (String c rest)
    then cur :: splitFrom sep (String.length sep - 1) "" rest
    else splitFrom sep 0 (cur +:+ String c "") rest.
Proof. reflexivity. Qed.

Lemma splitFrom_last (sep : string) (s : string) : ∀ skip cur,
  is_Some (last (splitFrom sep skip cur s)).
Proof.
  induction s as [|c s IH]; intros skip cur; simpl; [by eexists|].
  destruct skip as [|k]; [|apply IH].
  match goal with |- context [if ?b then _ else _] => destruct b end; [|apply IH].
  rewrite last_cons. destruct (IH (String.length sep - 1)%nat "") as [y ->]. by eexists.
Qed.

Lemma last_splitFrom_cons (sep : string) (s : string) skip cur x :
  last (x :: splitFrom sep skip cur s) = last (splitFrom sep skip cur s).
Proof.
  rewrite last_cons. by destruct (splitFrom_last sep s skip cur) as [y ->].
Qed.

Lemma sep3_free (a s : string) : ∀ cur,
  has dollar a = false →
  splitFrom "$$$" 0 cur (a +:+ s) = splitFrom "$$$" 0 (cur +:+ a) s.
Proof.
  induction a as [|d a IH]; intros cur Hfree.
  - by rewrite append_nil_l, append_nil_r.
  - simpl in Hfree. apply orb_false_iff in Hfree as [Hd Hfree].
    rewrite append_cons, splitFrom_cons.
    rewrite (prefix_char_ne dollar d) by done.
    rewrite (IH _ Hfree). by rewrite append_snoc.
Qed.

Lemma sep3_single (d : ascii) (s cur : string) :
  Ascii.eqb dollar d = false →
  splitFrom "$$$" 0 cur (String dollar (String d s)) =
    splitFrom "$$$" 0 (cur +:+ "$") (String d s).
Proof.
  intros Hd. rewrite splitFrom_cons.
  assert (Hp : String.prefix "$$$" (String dollar (String d s)) = false).
  { unfold dollar in *. rewrite (prefix_char_eq "$").
    by apply prefix_char_ne. }
  by rewrite Hp.
Qed.

Lemma playable_head (u : string) :
  isPlayable u = true → ∃ h u', u = String h u' ∧ Ascii.eqb dollar h = false.
Proof.
  unfold isPlayable. destruct u as [|h u']; [done|]. intros Hp.
  exists h, u'. split; [done|].
  apply andb_true_iff in Hp as [_ Hp]. apply orb_true_iff in Hp as [Hp|Hp];
    apply prefix_cons_inv in Hp as [<- _]; reflexivity.
Qed.

Lemma sep3_episode (e : string * string) (tail : string) : ∀ cur,
  Plain e →
  splitFrom "$$$" 0 cur (episodeLine e +:+ tail) =
    splitFrom "$$$" 0 (cur +:+ episodeLine e) tail.
Proof.
  intros cur (Hn & _ & Hu & _ & Hp). unfold episodeLine.
  destruct (playable_head _ Hp) as (h & u' & Heq & Hh).
  rewrite !append_assoc. rewrite (sep3_free (e.1)) by done.
  change ("$" +:+ (e.2 +:+ tail)) with (String dollar (e.2 +:+ tail)).
  rewrite Heq at 1. rewrite append_cons, sep3_single by done.
  rewrite <- append_cons, <- Heq. rewrite (sep3_free (e.2)) by done.
  by rewrite !append_assoc.
Qed.

(** A play line holds no separator of play sources. *)
Lemma sep3_line (eps : list (string * string)) : ∀ cur,
  Forall Plain eps →
  splitFrom "$$$" 0 cur (playLine eps) = [cur +:+ playLine eps].
Proof.
  unfold playLine. induction eps as [|e rest IH]; intros cur Hall.
  - simpl. by rewrite append_nil_r.
  - apply Forall_cons in Hall as [He Hrest].
    destruct rest as [|e2 rest'].
    + simpl. rewrite <- (append_nil_r (episodeLine e)) at 1.
      by rewrite sep3_episode.
    + change (joinWith "#" (episodeLine <$> e :: e2 :: rest'))
        with (episodeLine e +:+ "#" +:+ joinWith "#" (episodeLine <$> e2 :: rest')).
      rewrite sep3_episode by done.
      rewrite (sep3_free "#") by done.
      rewrite (IH _ Hrest). by rewrite !append_assoc.
Qed.

Lemma endsWithDollar_cons (c : ascii) (rest : string) :
  endsWithDollar (String c rest) = false → endsWithDollar rest = false.
Proof. destruct rest; [done|]. done. Qed.

(** Before a play source that holds no separator, what comes first does
    not matter as long as it does not end in a dollar sign. *)
Lemma sep3_boundary (main : string) (n : nat) : ∀ prev cur,
  (String.length prev <= n)%nat → endsWithDollar prev = false →
  last (splitFrom "$$$" 0 cur (prev +:+ "$$$" +:+ main)) =
    last (splitFrom "$$$" 0 "" main).
Proof.
  induction n as [|n IH]; intros prev cur Hlen Hend.
  - destruct prev; [|simpl in Hlen; lia].
    rewrite append_nil_l.
    change ("$$$" +:+ main) with (String dollar (String dollar (String dollar main))).
    rewrite splitFrom_cons.
    assert (Hp : String.prefix "$$$" (String dollar (String dollar (String dollar main)))
                 = true).
    { unfold dollar. rewrite !(prefix_char_eq "$"). apply prefix_nil. }
    rewrite Hp. simpl. apply last_splitFrom_cons.
  - destruct prev as [|c rest].
    { apply (IH "" cur); [simpl; lia|done]. }
    pose proof (endsWithDollar_cons c rest Hend) as Hrest.
    rewrite append_cons, splitFrom_cons.
    destruct (String.prefix "$$$" (String c (rest +:+ "$$$" +:+ main))) eqn:Hp.
    + apply prefix_cons_inv in Hp as [<- Hp].
      destruct rest as [|c2 rest2]; [done|].
      rewrite append_cons in Hp. apply prefix_cons_inv in Hp as [<- Hp].
      destruct rest2 as [|c3 rest3]; [done|].
      rewrite append_cons in Hp. apply prefix_cons_inv in Hp as [<- Hp].
      rewrite last_splitFrom_cons. rewrite !append_cons. simpl.
      apply IH; [simpl in Hlen; lia|].
      by apply (endsWithDollar_cons "$"), (endsWithDollar_cons "$").
    + apply IH; [simpl in Hlen; lia|done].
Qed.

(** *** The episodes of a play line *)

Lemma hash_line (eps : list (string * string)) :
  eps ≠ [] → Forall Plain eps →
  split "#" (playLine eps) = episodeLine <$> eps.
Proof.
  unfold split, playLine. induction eps as [|e rest IH]; intros Hne Hall; [done|].
  apply Forall_cons in Hall as [He Hrest].
  assert (Hfree : has hash (episodeLine e) = false).
  { destruct He as (_ & Hn & _ & Hu & _). unfold episodeLine.
    rewrite !has_app, Hn, Hu. done. }
  destruct rest as [|e2 rest'].
  - simpl. by rewrite split1_free.
  - change (joinWith "#" (episodeLine <$> e :: e2 :: rest'))
      with (episodeLine e +:+ String hash (joinWith "#" (episodeLine <$> e2 :: rest'))).
    rewrite split1_cut by done. change (String hash "") with "#".
    rewrite IH; done.
Qed.

Lemma episodeUrl_line (e : string * string) : Plain e → episodeUrl (episodeLine e) = e.2.
Proof.
  intros (Hn & _ & Hu & _). unfold episodeUrl, split, episodeLine.
  change ("$" +:+ e.2) with (String dollar e.2).
  rewrite split1_cut by done. by rewrite split1_free.
Qed.

Lemma playable_line (eps : list (string * string)) :
  Forall Plain eps →
  List.filter isPlayable (episodeUrl <$> (episodeLine <$> eps)) = eps.*2.
Proof.
  induction eps as [|e rest IH]; intros Hall; [done|].
  apply Forall_cons in Hall as [He Hrest]. simpl.
  rewrite (episodeUrl_line e He).
  destruct He as (_ & _ & _ & _ & ->). f_equal. by apply IH.
Qed.

Lemma playLine_nonempty (eps : list (string * string)) :
  eps ≠ [] → Forall Plain eps → playLine eps ≠ "".
Proof.
  intros Hne Hall Heq.
  pose proof (hash_line eps Hne Hall) as Hs. rewrite Heq in Hs.
  destruct eps as [|e rest]; [done|]. destruct rest; [|done].
  apply Forall_cons in Hall as [(_ & _ & _ & _ & Hp) _].
  unfold split in Hs. simpl in Hs. inversion Hs as [He].
  unfold episodeLine in He. destruct (e.1); [|done].
  rewrite append_nil_l in He. done.
Qed.

(** X26.  The play addresses survive the trip through vod_play_url: for
    episodes whose names and addresses hold neither $ nor # and whose
    addresses start with http:// or https://, written name$address and
    joined by #, getVideoDetail extracts exactly the addresses, in order;
    and when further play sources come first, separated by $$$, only the
    last one counts, whatever the earlier ones hold, as long as the text
    before the separator does not end in a dollar sign.  The fallback on
    vod_content is then not consulted. *)
Theorem play_episodes_round_trip (matchM3u8 : string → list string)
    (eps : list (string * string)) (content : option string)
    (Hne : eps ≠ []) (Hplain : Forall Plain eps) :
  playEpisodes (Some (playLine eps)) = eps.*2 ∧
  (∀ prev, endsWithDollar prev = false →
           playEpisodes (Some (prev +:+ "$$$" +:+ playLine eps)) = eps.*2) ∧
  episodes matchM3u8 (Some (playLine eps)) content = eps.*2.
Proof.
  assert (H1 : playEpisodes (Some (playLine eps)) = eps.*2).
  { unfold playEpisodes. rewrite bool_decide_false by by apply playLine_nonempty.
    unfold split at 1. rewrite sep3_line by done. simpl.
    rewrite append_nil_l, hash_line by done. by apply playable_line. }
  split; [done|]. split.
  - intros prev Hend. unfold playEpisodes.
    rewrite bool_decide_false.
    2:{ intros Heq. destruct prev; discriminate Heq. }
    unfold split at 1.
    rewrite (sep3_boundary _ (String.length prev)) by done.
    rewrite sep3_line by done. simpl.
    rewrite append_nil_l, hash_line by done. by apply playable_line.
  - unfold episodes. rewrite H1.
    destruct eps as [|e rest]; [done|]. done.
Qed.

(** X27.  Whatever vod_play_url holds, every address extracted from it
    starts with http:// or https:// and holds neither # nor $. *)
Theorem play_episodes_clean (vod_play_url : option string) :
  Forall (fun url => isPlayable url = true ∧ has hash url = false ∧
                     has dollar url = false)
         (playEpisodes vod_play_url).
Proof.
  unfold playEpisodes. destruct vod_play_url as [s|]; [|done].
  case_bool_decide; [done|].
  destruct (last (split "$$$" s)) as [mainSource|]; [|done].
  apply Forall_forall. intros url Hin.
  apply list_elem_of_In, filter_In in Hin as [Hin Hp].
  split; [done|].
  apply list_elem_of_In, list_elem_of_fmap in Hin as (ep & -> & Hep).
  assert (Hh : has hash ep = false).
  { pose proof (split1_pieces hash mainSource "" eq_refl) as Hall.
    rewrite Forall_forall in Hall. by apply Hall. }
  unfold episodeUrl.
  pose proof (split1_pieces dollar ep "" eq_refl) as Hd.
  pose proof (splitFrom_free hash (String dollar "") ep 0 "" Hh eq_refl) as Hh'.
  change (split "$" ep) with (splitFrom (String dollar "") 0 "" ep).
  destruct (splitFrom (String dollar "") 0 "" ep) as [|p0 [|p1 ps]]; [done|done|].
  apply Forall_cons in Hd as [_ Hd]. apply Forall_cons in Hd as [Hd _].
  apply Forall_cons in Hh' as [_ Hh']. apply Forall_cons in Hh' as [Hh' _].
  done.
Qed.

End DetailFacts.

(** ** useVideoPreview: scrubbing *)

Section PreviewFacts.
Import Preview.

Lemma target_inside (t d : Q) :
  (0 <= target t d)%Q ∧ (target t d <= Qmax 0 (d - 0.05))%Q ∧
  ((0 <= t)%Q → (t <= d - 0.05)%Q → target t d == t)%Q.
Proof.
  unfold target. split; [|split].
  - apply Q.min_glb; [apply Q.le_max_r|apply Q.le_max_l].
  - apply Q.le_min_r.
  - intros H0 Hd.
    assert (H1 : (Qmax t 0 == t)%Q) by (by apply Q.max_l).
    rewrite Q.min_l; [done|]. rewrite H1.
    apply (Qle_trans _ (d - 0.05)); [exact Hd|]. apply Q.le_max_r.
Qed.

Lemma onScrub_cases frameStep video lastRequested t :
  onScrub frameStep video lastRequested t = (lastRequested, None) ∨
  ∃ v d, video = Some v ∧ duration v = Some d ∧ (1 <= readyState v)%nat ∧
         (frameStep <= Qabs (t - lastRequested))%Q ∧
         onScrub frameStep video lastRequested t = (t, Some (target t d)).
Proof.
  unfold onScrub. destruct video as [v|]; [|by left].
  destruct (duration v) as [d|] eqn:Hd; [|by left].
  destruct (readyState v <? 1)%nat eqn:Hr; [by left|].
  destruct (Qle_bool frameStep (Qabs (t - lastRequested))) eqn:Hf; simpl; [|by left].
  right. exists v, d. repeat apply conj; try done.
  - apply Nat.ltb_ge in Hr. done.
  - by apply Qle_bool_iff.
Qed.

(** X28.  Scrubbing is throttled and stays inside the video: every
    request that is let through is at least frameStep away from the one
    let through before it (from 0 for the first, so a first request
    nearer than frameStep to the start is dropped), it is made only once
    the duration is known, and it seeks to a time between 0 and the
    duration less 0.05 s: to the requested time itself when that lies in
    this range. *)
Theorem scrubs_throttled (frameStep : Q) (calls : list (option Video * Q)) :
  Health.chain (fun a b => (frameStep <= Qabs (b - a))%Q) 0%Q
               ((scrubs frameStep 0%Q calls).*1) ∧
  Forall (Inside calls) (scrubs frameStep 0%Q calls).
Proof.
  generalize 0%Q as lastRequested. intros lastRequested. split.
  - revert lastRequested. induction calls as [|[video t] rest IH]; intros lastRequested;
      simpl; [done|].
    destruct (onScrub_cases frameStep video lastRequested t)
      as [->|(v & d & _ & _ & _ & Hf & ->)]; [apply IH|].
    simpl. split; [done|apply IH].
  - revert lastRequested. induction calls as [|[video t] rest IH]; intros lastRequested;
      simpl; [done|].
    assert (Hweak : ∀ l, Forall (Inside rest) l → Forall (Inside ((video, t) :: rest)) l).
    { intros l Hl. eapply Forall_impl; [exact Hl|].
      intros r (H0 & v & d & Hin & Hrest).
      split; [done|]. exists v, d. split; [by apply elem_of_cons; right|done]. }
    destruct (onScrub_cases frameStep video lastRequested t)
      as [->|(v & d & -> & Hd & Hr & _ & ->)]; [apply Hweak, IH|].
    apply Forall_cons. split; [|apply Hweak, IH].
    destruct (target_inside t d) as (T1 & T2 & T3).
    split; [done|]. exists v, d. simpl. split; [apply list_elem_of_here|done].
Qed.

End PreviewFacts.

Section DetailRuns.
Import Detail Runs.

Lemma play_episodes_round_trip_witness :
  playEpisodes (Some (playLine two_episodes)) =
    ["http://a.example/1.m3u8"; "https://a.example/2.m3u8"] ∧
  playEpisodes (Some ("0$http://b.example/0.m3u8" +:+ "$$$" +:+ playLine two_episodes)) =
    ["http://a.example/1.m3u8"; "https://a.example/2.m3u8"].
Proof.
  destruct (play_episodes_round_trip (fun _ => []) two_episodes None) as (H1 & H2 & _).
  - discriminate.
  - repeat (apply Forall_cons; split; [repeat apply conj; reflexivity|]).
    apply Forall_nil_2.
  - split; [exact H1|]. apply H2. reflexivity.
Defined.

End DetailRuns.
